(** * CWCOT detector: resolution and classification of the purchase
      agreement addendum

    A shallow embedding of the engine of [src/main.js]: the resilient
    invoker [safe], the artifact-type predicate [isPdfUrl] and [toAbs], the
    text classifier [detectCWCOTInText], the label classifier [labelType],
    tile discovery [listDocumentTiles], the locator [clickTileAndSniffPdf],
    the legacy resolution [getAddendumUrl], the orchestrator
    [getBestAddendumAndDetect] and the two races of the main loop.

    - A JavaScript string is its sequence of UTF-16 code units: [jsstring]
      is [list N].
    - A regular expression of the program is a term of [re]; [run] lists
      the ways it matches from a position in the order the backtracking of
      ECMAScript tries them, and [exec] scans the start positions from
      left to right, as [RegExp.prototype.exec] does.
    - The [Map] and the [Set]s of the program are [gmap] and [gset].
    - What the browser answers (the nodes a selector finds, the address of
      a popup, the text of a PDF) comes from a record of calls, [page],
      over an abstract world that the program threads through its calls; a
      call may throw.  Next to the world a run carries a trace of its
      sleeps and of the steps of the orchestration. *)

From Stdlib Require Import List NArith ZArith String Ascii Bool Lia.
From Stdlib Require Import DecimalString.
From stdpp Require Import gmap.
Import ListNotations.

Local Open Scope N_scope.

(** ** Strings *)

Module Js.

Abbreviation jsstring := (list N).

(** The code units of an ASCII literal. *)
Definition u16 (s : string) : jsstring :=
  List.map N_of_ascii (list_ascii_of_string s).

(** [\s] of a regular expression, which is also what [trim] strips:
    WhiteSpace and LineTerminator of ECMAScript. *)
Definition is_space (c : N) : bool :=
  ((9 <=? c) && (c <=? 13)) || (c =? 32) || (c =? 160) || (c =? 0x1680)
  || ((0x2000 <=? c) && (c <=? 0x200A))
  || (c =? 0x2028) || (c =? 0x2029) || (c =? 0x202F) || (c =? 0x205F)
  || (c =? 0x3000) || (c =? 0xFEFF).

(** LineTerminator: what [.] does not match. *)
Definition is_line_terminator (c : N) : bool :=
  (c =? 10) || (c =? 13) || (c =? 0x2028) || (c =? 0x2029).

Definition is_upper (c : N) : bool := (65 <=? c) && (c <=? 90).
Definition is_lower (c : N) : bool := (97 <=? c) && (c <=? 122).
Definition is_digit (c : N) : bool := (48 <=? c) && (c <=? 57).

(** [\w] (no [u] flag): ASCII letters, digits and the underscore. *)
Definition is_word (c : N) : bool :=
  is_upper c || is_lower c || is_digit c || (c =? 95).

(** [String.prototype.toLowerCase] as the patterns of the program see
    it, one code unit at a time.  The ASCII capitals, and the two code
    units outside ASCII whose lower case falls into ASCII: U+0130 gives [i]
    followed by U+0307 and the Kelvin sign U+212A gives [k].  The other
    code units are left as they are: the Unicode table sends them to code
    units outside ASCII that are no white space, and no pattern of the
    program tells those apart.  This function stands for [toLowerCase]
    only where the result goes to a pattern ([detectCWCOTInText],
    [labelType]); where the result itself is kept, as the key of
    [labelCounts] in the tile pass, the function of the engine is a
    parameter (see [Tiles]). *)
Definition lower_cu (c : N) : jsstring :=
  if is_upper c then [c + 32]
  else if c =? 0x130 then [105; 0x307]
  else if c =? 0x212A then [107]
  else [c].

Definition toLowerCase (s : jsstring) : jsstring := flat_map lower_cu s.

(** Canonicalize of a pattern with the [i] flag and without the [u]
    flag, on the ASCII characters the patterns are written in: a code unit
    outside ASCII is never identified with an ASCII one. *)
Definition canon (c : N) : N := if is_lower c then c - 32 else c.

Fixpoint starts_with (w s : jsstring) : bool :=
  match w, s with
  | [], _ => true
  | a :: w', b :: s' => (a =? b) && starts_with w' s'
  | _ :: _, [] => false
  end.

(** [String.prototype.includes]. *)
Fixpoint includes (w s : jsstring) : bool :=
  starts_with w s ||
  match s with
  | [] => false
  | _ :: s' => includes w s'
  end.

(** [a === b] on strings. *)
Fixpoint str_eqb (a b : jsstring) : bool :=
  match a, b with
  | [], [] => true
  | x :: a', y :: b' => (x =? y) && str_eqb a' b'
  | _, _ => false
  end.

(** A string in a condition: the empty one is falsy. *)
Definition nonempty (s : jsstring) : bool :=
  match s with [] => false | _ => true end.

(** [String.prototype.trim]. *)
Fixpoint trim_start (s : jsstring) : jsstring :=
  match s with
  | c :: s' => if is_space c then trim_start s' else s
  | [] => []
  end.

Definition trim_end (s : jsstring) : jsstring := rev (trim_start (rev s)).
Definition trim (s : jsstring) : jsstring := trim_end (trim_start s).

(** [s.replace(/C+/g, ' ')] for a character class [C]: every maximal run
    of code units of the class becomes one space.  [in_run] says that the
    code unit before belonged to a run that was replaced already. *)
Fixpoint collapse_runs (cls : N -> bool) (in_run : bool) (s : jsstring)
  : jsstring :=
  match s with
  | [] => []
  | c :: s' =>
      if cls c then
        if in_run then collapse_runs cls true s'
        else 32 :: collapse_runs cls true s'
      else c :: collapse_runs cls false s'
  end.

(** [s.replace(/\s+/g, ' ')]. *)
Definition collapse_ws (s : jsstring) : jsstring :=
  collapse_runs is_space false s.

End Js.
Export Js.

(** ** Regular expressions *)

Module Regex.

(** The patterns of the program apply a quantifier to one character
    class only ([\s*], [.*], [[0-9]{1,2}], [s?], ...), so does [Rep]; it has
    at most one capturing group, [Grp]. *)
Inductive re : Type :=
| Eps
| Cls (p : N -> bool)
| Seq (a b : re)
| Alt (a b : re)
| Rep (greedy : bool) (lo : nat) (hi : option nat) (p : N -> bool)
| Grp (a : re)
| WordB
| Bol
| Eol.

(** The state of a match: the code units before the current position,
    last one first, those after it, and the capture of group 1. *)
Record mstate : Type := MState {
  consumed : jsstring;
  rest : jsstring;
  cap1 : option jsstring
}.

Definition step (st : mstate) (c : N) (r : jsstring) : mstate :=
  MState (c :: consumed st) r (cap1 st).

(** [adv st w post]: the state after reading [w], with [post] left. *)
Definition adv (st : mstate) (w post : jsstring) : mstate :=
  MState (rev w ++ consumed st) post (cap1 st).

Definition word_at (o : option N) : bool :=
  match o with Some c => is_word c | None => false end.

(** RepeatMatcher on a class: the states after [lo] to [hi] code units of
    the class, the longest first when greedy. *)
Fixpoint reps (greedy : bool) (p : N -> bool) (lo hi : nat) (st : mstate)
  : list mstate :=
  match hi with
  | O => if Nat.eqb lo 0 then [st] else []
  | S hi' =>
      let more :=
        match rest st with
        | c :: r => if p c then reps greedy p (Nat.pred lo) hi' (step st c r)
                    else []
        | [] => []
        end in
      if Nat.eqb lo 0
      then (if greedy then more ++ [st] else st :: more)
      else more
  end.

(** All the ways [r] matches from [st], in the order the backtracking of
    ECMAScript tries them. *)
Fixpoint run (r : re) (st : mstate) : list mstate :=
  match r with
  | Eps => [st]
  | Cls p =>
      match rest st with
      | c :: s => if p c then [step st c s] else []
      | [] => []
      end
  | Seq a b => flat_map (run b) (run a st)
  | Alt a b => run a st ++ run b st
  | Rep g lo hi p =>
      reps g p lo
        (match hi with Some h => h | None => List.length (rest st) end) st
  | Grp a =>
      List.map
        (fun st' =>
           MState (consumed st') (rest st')
             (Some (rev (firstn (List.length (consumed st')
                                 - List.length (consumed st))
                           (consumed st')))))
        (run a st)
  | WordB =>
      if xorb (word_at (head (consumed st))) (word_at (head (rest st)))
      then [st] else []
  | Bol => match consumed st with [] => [st] | _ => [] end
  | Eol => match rest st with [] => [st] | _ => [] end
  end.

(** The first match, scanning the start positions from [pre] on: the
    state the match starts in and the state it ends in. *)
Fixpoint search (r : re) (pre_rev s : jsstring)
  : option (mstate * mstate) :=
  match run r (MState pre_rev s None) with
  | st :: _ => Some (MState pre_rev s None, st)
  | [] =>
      match s with
      | [] => None
      | c :: s' => search r (c :: pre_rev) s'
      end
  end.

Definition exec (r : re) (s : jsstring) : option (mstate * mstate) :=
  search r [] s.

(** [re.test(s)]. *)
Definition test (r : re) (s : jsstring) : bool :=
  match exec r s with Some _ => true | None => false end.

(** [s.match(re)[1]] of a pattern without [g]; [None] is [null]. *)
Definition match1 (r : re) (s : jsstring) : option jsstring :=
  match exec r s with
  | Some (_, st) => Some (match cap1 st with Some c => c | None => [] end)
  | None => None
  end.

(** The text between two states of one match. *)
Definition matched (st0 st : mstate) : jsstring :=
  rev (firstn (List.length (consumed st) - List.length (consumed st0))
         (consumed st)).

(** The matches of a pattern with the [g] flag, from left to right, each
    search resuming where the match before ended ([s.match(re)] and
    [s.matchAll(re)]).  No pattern of the program matches the empty
    string; [fuel] bounds the number of matches by the length of [s]. *)
Fixpoint match_all_from (fuel : nat) (r : re) (pre_rev s : jsstring)
  : list jsstring :=
  match fuel with
  | O => []
  | S fuel' =>
      match search r pre_rev s with
      | None => []
      | Some (st0, st) =>
          matched st0 st :: match_all_from fuel' r (consumed st) (rest st)
      end
  end.

Definition match_all (r : re) (s : jsstring) : list jsstring :=
  match_all_from (List.length s) r [] s.

(** *** Writing patterns *)

Definition chr (c : N) : re := Cls (N.eqb c).
Definition chri (c : N) : re := Cls (fun x => canon x =? canon c).

Fixpoint seq_of (f : N -> re) (w : jsstring) : re :=
  match w with
  | [] => Eps
  | [c] => f c
  | c :: w' => Seq (f c) (seq_of f w')
  end.

(** A literal, and a literal under the [i] flag. *)
Definition lit (s : string) : re := seq_of chr (u16 s).
Definition liti (s : string) : re := seq_of chri (u16 s).

Definition any_of (s : string) (c : N) : bool :=
  existsb (N.eqb c) (u16 s).

Definition dot (c : N) : bool := negb (is_line_terminator c).

Definition star (p : N -> bool) : re := Rep true 0 None p.
Definition plus (p : N -> bool) : re := Rep true 1 None p.
Definition opt (p : N -> bool) : re := Rep true 0 (Some 1%nat) p.

Fixpoint seqs (l : list re) : re :=
  match l with
  | [] => Eps
  | [r] => r
  | r :: l' => Seq r (seqs l')
  end.

Fixpoint alts (l : list re) : re :=
  match l with
  | [] => Eps
  | [r] => r
  | r :: l' => Alt r (alts l')
  end.

(** *** Positions and spans *)

(** A pattern without a capturing group. *)
Fixpoint plain (r : re) : bool :=
  match r with
  | Seq a b | Alt a b => plain a && plain b
  | Grp _ => false
  | _ => true
  end.

(** The state at the position between [pre] and [s], nothing captured. *)
Definition at_ (pre s : jsstring) : mstate := MState (rev pre) s None.

(** [r] matches [w] between [pre] and [post]. *)
Definition span (r : re) (pre w post : jsstring) : Prop :=
  In (at_ (pre ++ w) post) (run r (at_ pre (w ++ post))).

(** The code unit before and the one after a position. *)
Definition before_cu (pre : jsstring) : option N := List.head (rev pre).
Definition after_cu (post : jsstring) : option N := List.head post.

(** [w] is [u] read through [P], code unit by code unit. *)
Definition reads (P : N -> N -> bool) (u w : jsstring) : Prop :=
  Forall2 (fun c x => P c x = true) u w.

(** The same text, the case of the ASCII letters apart. *)
Definition same_ci (u w : jsstring) : Prop :=
  List.map canon w = List.map canon u.

(** A pattern that ends in its capturing group. *)
Fixpoint tailgrp (r : re) : bool :=
  match r with
  | Seq a b => plain a && tailgrp b
  | Grp b => plain b
  | _ => false
  end.

(** [r] matches [w] between [pre] and [post] and captures [g]. *)
Definition cspan (r : re) (pre w g post : jsstring) : Prop :=
  In (MState (rev (pre ++ w)) post (Some g)) (run r (at_ pre (w ++ post))).

End Regex.
Export Regex.

(** ** JavaScript values *)

Module Value.

(** The values a caller can hand to a function that expects an address.
    Of the numbers, the integers and NaN; of an object, what [String]
    makes of it: [None] when its conversion throws. *)
Inductive jsval : Type :=
| VUndefined
| VNull
| VBool (b : bool)
| VNum (z : Z)
| VNaN
| VStr (s : jsstring)
| VObj (shown : option jsstring).

(** ToBoolean. *)
Definition truthy (v : jsval) : bool :=
  match v with
  | VUndefined | VNull | VNaN => false
  | VBool b => b
  | VNum z => negb (Z.eqb z 0)
  | VStr s => match s with [] => false | _ => true end
  | VObj _ => true
  end.

(** [String(v)]; [None] when the conversion throws. *)
Definition ToString (v : jsval) : option jsstring :=
  match v with
  | VUndefined => Some (u16 "undefined")
  | VNull => Some (u16 "null")
  | VBool true => Some (u16 "true")
  | VBool false => Some (u16 "false")
  | VNum z => Some (u16 (NilZero.string_of_int (Z.to_int z)))
  | VNaN => Some (u16 "NaN")
  | VStr s => Some s
  | VObj shown => shown
  end.

End Value.
Export Value.

(** ** Addresses *)

Module Url.

(** [/\.pdf(\?|$)/i] *)
Definition PDF_EXT_RE : re :=
  Seq (liti ".pdf") (Alt (chr 63) Eol).

(** [/imgix\.net\/resi\/globalDocuments\//i] *)
Definition IMGIX_RE : re := liti "imgix.net/resi/globalDocuments/".

(** [/imgix\.net\/resi\/globalDocuments\/.+\.pdf/i] *)
Definition IMGIX_PDF_RE : re :=
  seqs [liti "imgix.net/resi/globalDocuments/"; plus dot; liti ".pdf"].

(** [isPdfUrl]: the [try] turns a conversion that throws into [false]. *)
Definition isPdfUrl (u : jsval) : bool :=
  if negb (truthy u) then false
  else
    match ToString u with
    | None => false
    | Some s =>
        if test PDF_EXT_RE s then true
        else if test IMGIX_RE s then true
        else false
    end.

(** [isPdfUrl] on a string, as the locator calls it. *)
Definition isPdfUrlS (s : jsstring) : bool := isPdfUrl (VStr s).

(** [/^https?:\/\//i] *)
Definition HTTP_RE : re :=
  seqs [Bol; liti "http";
        Rep true 0 (Some 1%nat) (fun x => canon x =? canon 115);
        lit "://"].

(** [base.replace(/\/+$/, '')]: the slashes at the end go. *)
Fixpoint drop_slashes (s : jsstring) : jsstring :=
  match s with
  | c :: s' => if c =? 47 then drop_slashes s' else s
  | [] => []
  end.

Definition strip_trailing_slashes (base : jsstring) : jsstring :=
  rev (drop_slashes (rev base)).

(** [href.replace(/^\.?\//, '')]: a leading [./] or [/] goes. *)
Definition strip_dot_slash (href : jsstring) : jsstring :=
  match href with
  | 46 :: 47 :: h => h
  | 47 :: h => h
  | _ => href
  end.

(** [toAbs]; nothing in its [try] throws on strings. *)
Definition toAbs (href base : jsstring) : jsstring :=
  match href with
  | [] => []
  | _ =>
      if test HTTP_RE href then href
      else if starts_with (u16 "//") href then u16 "https:" ++ href
      else if starts_with (u16 "/") href
           then strip_trailing_slashes base ++ href
      else strip_trailing_slashes base ++ u16 "/" ++ strip_dot_slash href
  end.

Definition AUCTION_BASE : jsstring := u16 "https://www.auction.com".

(** An address of the artifact type: [.pdf], in either case, right
    before the end or a question mark; or the document host
    [imgix.net/resi/globalDocuments/], in either case, anywhere. *)
Definition pdf_extension (s : jsstring) : Prop :=
  exists pre w post, s = pre ++ w ++ post /\ same_ci (u16 ".pdf") w /\
    (post = [] \/ exists post', post = 63 :: post').

Definition document_host (s : jsstring) : Prop :=
  exists pre w post, s = pre ++ w ++ post /\
    same_ci (u16 "imgix.net/resi/globalDocuments/") w.

Definition artifact_typed (s : jsstring) : Prop :=
  pdf_extension s \/ document_host s.

(** What a locator may return: nothing, or an address of the artifact
    type. *)
Definition resolved (r : jsstring) : Prop := r <> [] -> artifact_typed r.

End Url.
Export Url.

(** ** Text classification *)

Module Detect.

(** [/[^\S\r\n]+/]: white space other than CR and LF. *)
Definition is_blank (c : N) : bool :=
  is_space c && negb (c =? 13) && negb (c =? 10).

(** [normText] on a string: soft hyphens go, the dashes U+2010 to U+2015
    become [-], runs of blanks become one space, and the result is
    trimmed. *)
Definition normText (s : jsstring) : jsstring :=
  let s1 := List.filter (fun c => negb (c =? 0xAD)) s in
  let s2 := List.map (fun c => if (0x2010 <=? c) && (c <=? 0x2015)
                               then 45 else c) s1 in
  trim (collapse_runs is_blank false s2).

Record rule : Type := Rule { rule_re : re; rule_k : string }.

(** [[- ]] *)
Definition dash_or_space (c : N) : bool := (c =? 45) || (c =? 32).

Definition RE_CWCOT : re := seqs [WordB; lit "cwcot"; WordB].
Definition RE_SPELLED : re :=
  seqs [lit "claim"; Rep true 0 (Some 1%nat) (N.eqb 115); plus is_space;
        lit "without"; plus is_space; lit "conveyance"; plus is_space;
        lit "of"; plus is_space; lit "title"].
Definition RE_TITLE : re :=
  seqs [lit "real"; plus is_space; lit "estate"; plus is_space;
        lit "purchase"; plus is_space; lit "addendum"; star is_space;
        lit "(cwcot"; star is_space; lit "property)"].
Definition RE_SECOND_CHANCE : re :=
  seqs [WordB; lit "second"; star is_space; opt dash_or_space;
        star is_space; lit "chance"; WordB].
Definition RE_POST_FORECLOSURE : re :=
  seqs [lit "post"; star is_space; opt dash_or_space; star is_space;
        lit "foreclosure"; plus is_space; lit "sale"].

Definition RULES : list rule :=
  [ Rule RE_CWCOT "CWCOT";
    Rule RE_SPELLED "CWCoT spelled out";
    Rule RE_TITLE "Title: CWCOT Property";
    Rule RE_SECOND_CHANCE "Second Chance";
    Rule RE_POST_FORECLOSURE "Post-Foreclosure Sale" ].

(** [/cwcot/i], for the file name. *)
Definition RE_FILENAME : re := liti "cwcot".

(** [/rev\.?\s*([0-9]{1,2}\.[0-9]{1,2}\.[0-9]{2,4})/] *)
Definition RE_REV_TAG : re :=
  seqs [Rep true 1 (Some 2%nat) is_digit; chr 46;
        Rep true 1 (Some 2%nat) is_digit; chr 46;
        Rep true 2 (Some 4%nat) is_digit].
Definition RE_REV : re :=
  seqs [lit "rev"; opt (N.eqb 46); star is_space; Grp RE_REV_TAG].

Record detection : Type := Detection {
  isCWCOT : bool;
  hits : list string;
  cwcot_rev : jsstring
}.

(** The rules that match [t], in the order of [RULES]. *)
Definition rule_hits (t : jsstring) : list string :=
  List.map rule_k (List.filter (fun r => test (rule_re r) t) RULES).

(** [detectCWCOTInText]; an empty [filename] is the falsy one. *)
Definition detectCWCOTInText (rawText filename : jsstring) : detection :=
  let t := toLowerCase (normText rawText) in
  let hits0 := rule_hits t in
  let hits1 :=
    match filename with
    | [] => hits0
    | _ => if test RE_FILENAME filename then hits0 ++ ["filename:CWCOT"%string]
           else hits0
    end in
  let cwcot_rev :=
    match match1 RE_REV t with Some g => g | None => [] end in
  Detection (negb (Nat.eqb (List.length hits1) 0)) hits1 cwcot_rev.

(** [w] stands in [t] as a whole word: no letter, digit or underscore
    right before it or right after it. *)
Definition whole_word (w t : jsstring) : Prop :=
  exists pre post, t = pre ++ w ++ post /\
    word_at (before_cu pre) = false /\ word_at (after_cu post) = false.

(** [lo] to [hi] decimal digits. *)
Definition digits (lo hi : nat) (d : jsstring) : Prop :=
  forallb is_digit d = true /\ (lo <= List.length d <= hi)%nat.

(** A revision tag: one or two digits, a dot, one or two digits, a dot,
    two to four digits. *)
Definition rev_tag (g : jsstring) : Prop :=
  exists d1 d2 d3, g = d1 ++ [46] ++ d2 ++ [46] ++ d3 /\
    digits 1 2 d1 /\ digits 1 2 d2 /\ digits 2 4 d3.

(** The tag [g] stands in [t] after "rev", an optional dot and optional
    white space. *)
Definition rev_at (t g : jsstring) : Prop :=
  exists pre dot ws post,
    t = pre ++ u16 "rev" ++ dot ++ ws ++ g ++ post /\
    (dot = [] \/ dot = [46]) /\ forallb is_space ws = true /\ rev_tag g.

End Detect.
Export Detect.

(** ** Label classification *)

Module Label.

(** The strings ['prohibited'], ['asis'], ['paa'], ['generic'], ['psa']
    and ['other'] of [labelType]. *)
Inductive LabelCategory : Type :=
| prohibited | asis | paa | generic | psa | other.

(** [/prohibited\s+sales\s+addendum/] *)
Definition RE_PROHIBITED : re :=
  seqs [lit "prohibited"; plus is_space; lit "sales"; plus is_space;
        lit "addendum"].

(** [/purchase\s*agreement\s*addendum\b/] *)
Definition RE_PAA : re :=
  seqs [lit "purchase"; star is_space; lit "agreement"; star is_space;
        lit "addendum"; WordB].

(** [/addendum\s*to\s*purchase\s*agreement\b/] *)
Definition RE_ADDENDUM_TO_PA : re :=
  seqs [lit "addendum"; star is_space; lit "to"; star is_space;
        lit "purchase"; star is_space; lit "agreement"; WordB].

(** [[\s-]] *)
Definition space_or_dash (c : N) : bool := is_space c || (c =? 45).

(** [/\bas[\s-]*is\b.*addendum/] *)
Definition RE_ASIS : re :=
  seqs [WordB; lit "as"; star space_or_dash; lit "is"; WordB; star dot;
        lit "addendum"].

(** [/as-?is\s+addendum\s+to\s+psa/] *)
Definition RE_ASIS_PSA : re :=
  seqs [lit "as"; opt (N.eqb 45); lit "is"; plus is_space; lit "addendum";
        plus is_space; lit "to"; plus is_space; lit "psa"].

(** [/\baddendum\b/] *)
Definition RE_ADDENDUM : re := seqs [WordB; lit "addendum"; WordB].

(** [/\breview\s+purchase\s+agreement\b|\bfreddie\s+mac\s+occupied\s+psa\b|
      \bpurchase\s+and\s+sale\s+agreement\b|\bauction\s+purchase\s+agreement\b|
      \bpsa\b/] *)
Definition RE_PSA : re :=
  alts
    [ seqs [WordB; lit "review"; plus is_space; lit "purchase";
            plus is_space; lit "agreement"; WordB];
      seqs [WordB; lit "freddie"; plus is_space; lit "mac"; plus is_space;
            lit "occupied"; plus is_space; lit "psa"; WordB];
      seqs [WordB; lit "purchase"; plus is_space; lit "and"; plus is_space;
            lit "sale"; plus is_space; lit "agreement"; WordB];
      seqs [WordB; lit "auction"; plus is_space; lit "purchase";
            plus is_space; lit "agreement"; WordB];
      seqs [WordB; lit "psa"; WordB] ].

(** The [L] of [isPurchaseAgreementAddendumLabel]: lower case, runs of
    white space collapsed, trimmed. *)
Definition norm_label (label : jsstring) : jsstring :=
  trim (collapse_ws (toLowerCase label)).

Definition isPurchaseAgreementAddendumLabel (label : jsstring) : bool :=
  let L := norm_label label in
  match L with
  | [] => false
  | _ =>
      if test RE_PROHIBITED L then false
      else test RE_PAA L || test RE_ADDENDUM_TO_PA L
  end.

Definition labelType (label : jsstring) : LabelCategory :=
  let L := toLowerCase label in
  if test RE_PROHIBITED L then prohibited
  else if test RE_ASIS L || test RE_ASIS_PSA L then asis
  else if isPurchaseAgreementAddendumLabel label then paa
  else if test RE_ADDENDUM L then generic
  else if test RE_PSA L then psa
  else other.

End Label.
Export Label.

(** ** Tile discovery: the in-page pass *)

Module Tiles.

(** What the pass reads of a DOM node: [nid] stands for the identity of
    the node (two entries with the same [nid] are the same node, found by
    two selectors or in two scopes), [node_text] for
    [node.innerText || node.textContent || ''], [target_href] for the
    [href] the pass reads off the node's target and [node_data_id] for its
    [data-elm-id]. *)
Record node : Type := Node {
  nid : nat;
  node_text : jsstring;
  target_href : jsstring;
  node_data_id : jsstring
}.

Record tile : Type := Tile {
  label : jsstring;
  href : jsstring;
  ordinal : nat;
  dataId : jsstring
}.

(** [norm] of the pass, [normalize] of the locator:
    [(s || '').replace(/\s+/g, ' ').trim()]. *)
Definition norm (s : jsstring) : jsstring := trim (collapse_ws s).

(** The three accumulators of the pass; next to each tile, the node it
    was made from. *)
Record acc : Type := Acc {
  seenNodes : gset nat;
  labelCounts : gmap jsstring nat;
  tiles : list (nat * tile)
}.

(** The pass keys [labelCounts] by [label.toLowerCase()], and two labels
    share a counter exactly when that function sends them to the same
    string.  It is the function of the engine the pass runs in, with the
    whole Unicode table behind it: here it is the parameter [lower], and
    what is proved of the pass holds whatever it is. *)
Section Pass.
Variable lower : jsstring -> jsstring.

Definition pushTile (a : acc) (n : node) : acc :=
  if bool_decide (nid n ∈ seenNodes a) then a
  else
    let seen' := {[nid n]} ∪ seenNodes a in
    let label := norm (node_text n) in
    match label with
    | [] => Acc seen' (labelCounts a) (tiles a)
    | _ =>
        let labelKey := lower label in
        let ordinal := default 0%nat (labelCounts a !! labelKey) in
        Acc seen' (<[labelKey := S ordinal]> (labelCounts a))
          (tiles a ++
             [(nid n, Tile label (target_href n) ordinal (node_data_id n))])
    end.

(** [nodes]: the nodes the selectors find, scope after scope and selector
    after selector, as [forEach(pushTile)] meets them. *)
Definition collect (nodes : list node) : acc :=
  fold_left pushTile nodes (Acc ∅ ∅ []).

Definition tiles_of_nodes (nodes : list node) : list tile :=
  List.map snd (tiles (collect nodes)).

(** The key of [labelCounts] a tile was counted under. *)
Definition label_key (p : nat * tile) : jsstring :=
  lower (label (snd p)).

(** How many of the tiles [l] were counted under [k]. *)
Definition count_key (k : jsstring) (l : list (nat * tile)) : nat :=
  List.length (List.filter (fun p => bool_decide (label_key p = k)) l).

(** A node shows the same text wherever the scan meets it. *)
Definition same_node_same_text (nodes : list node) : Prop :=
  forall m n, In m nodes -> In n nodes -> nid m = nid n ->
    node_text m = node_text n.

(** What the three accumulators hold after the nodes [done]. *)
Record Inv (done : list node) (a : acc) : Prop := {
  inv_seen : forall id,
    id ∈ seenNodes a <-> exists n, In n done /\ nid n = id;
  inv_from : forall id t, In (id, t) (tiles a) ->
    exists n, In n done /\ nid n = id /\ label t <> [];
  inv_nodup : NoDup (List.map fst (tiles a));
  inv_count : forall k,
    default 0%nat (labelCounts a !! k) = count_key k (tiles a);
  inv_ordinal : forall i id t, tiles a !! i = Some (id, t) ->
    ordinal t = count_key (label_key (id, t)) (take i (tiles a));
  inv_tile : same_node_same_text done ->
    forall n, In n done -> norm (node_text n) <> [] ->
    exists t, In (nid n, t) (tiles a) /\ label t = norm (node_text n)
}.

End Pass.


End Tiles.
Export Tiles.

(** ** Effects: a world, exceptions and a trace *)

Module Effects.

Inductive outcome (A : Type) : Type :=
| Ok (a : A)
| Throw (e : jsstring).
Arguments Ok {A} a.
Arguments Throw {A} e.

(** What a run leaves in its trace: the sleeps, and the steps of the
    orchestration the claims speak about. *)
Inductive event : Type :=
| Sleep (ms : N)
| Locate (t : tile)
| Classify (url : jsstring)
| ScanHidden
| ScanDirect
| LegacyClick.

Record sys (W : Type) : Type := Sys {
  world : W;
  trace : list event
}.
Arguments Sys {W} world trace.
Arguments world {W} s.
Arguments trace {W} s.

(** An exception carries what [String(e)] makes of it. *)
Definition M (W A : Type) : Type := sys W -> outcome A * sys W.

Section Monad.
Context {W : Type}.

Definition ret {A} (a : A) : M W A := fun s => (Ok a, s).

Definition throw {A} (e : jsstring) : M W A := fun s => (Throw e, s).

Definition bind {A B} (m : M W A) (f : A -> M W B) : M W B :=
  fun s =>
    match m s with
    | (Ok a, s') => f a s'
    | (Throw e, s') => (Throw e, s')
    end.

(** [promise.catch(h)] and [try { } catch (e) { }]. *)
Definition catch {A} (m : M W A) (h : jsstring -> M W A) : M W A :=
  fun s =>
    match m s with
    | (Ok a, s') => (Ok a, s')
    | (Throw e, s') => h e s'
    end.

(** [.catch(() => d)]. *)
Definition or_else {A} (m : M W A) (d : A) : M W A :=
  catch m (fun _ => ret d).

Definition emit (ev : event) : M W unit :=
  fun s => (Ok tt, Sys (world s) (trace s ++ [ev])).

Definition sleep (ms : N) : M W unit := emit (Sleep ms).

(** A call into the browser that may throw. *)
Definition call {A} (p : W -> outcome A * W) : M W A :=
  fun s => let (o, w) := p (world s) in (o, Sys w (trace s)).

(** A call into the browser that does not throw. *)
Definition call_ {A} (p : W -> A * W) : M W A :=
  fun s => let (a, w) := p (world s) in (Ok a, Sys w (trace s)).

Definition update (p : W -> W) : M W unit :=
  fun s => (Ok tt, Sys (p (world s)) (trace s)).

Definition read {A} (p : W -> A) : M W A :=
  fun s => (Ok (p (world s)), s).

End Monad.

Declare Scope m_scope.
Delimit Scope m_scope with m.
Notation "x <- m ;; k" := (bind m (fun x => k))
  (at level 20, m at level 99, k at level 200, only parsing) : m_scope.
Notation "m ;;; k" := (bind m (fun _ => k))
  (at level 20, k at level 200, only parsing) : m_scope.

(** *** Views of a trace *)

Definition is_locate (ev : event) : bool :=
  match ev with Locate _ => true | _ => false end.

Definition is_classify (ev : event) : bool :=
  match ev with Classify _ => true | _ => false end.

(** The three stages of the legacy chain. *)
Definition is_stage (ev : event) : bool :=
  match ev with ScanHidden | ScanDirect | LegacyClick => true | _ => false end.

(** [m] leaves nothing in the view [f] of the trace, however it ends. *)
Definition silent {W A} (f : event -> bool) (m : M W A) : Prop :=
  forall s o s', m s = (o, s') ->
    List.filter f (trace s') = List.filter f (trace s).

(** [m] leaves [evs] in the view [f] of the trace, however it ends. *)
Definition leaves {W A} (f : event -> bool) (m : M W A) (evs : list event)
  : Prop :=
  forall s o s', m s = (o, s') ->
    List.filter f (trace s') = List.filter f (trace s) ++ evs.

(** Between [s] and [s'] the trace grew by [evs], sleeps apart. *)
Definition grows {W} (s s' : sys W) (evs : list event) : Prop :=
  forall f : event -> bool, (forall ms, f (Sleep ms) = false) ->
    List.filter f (trace s') = List.filter f (trace s) ++ List.filter f evs.

End Effects.
Export Effects.

(** ** The resilient invoker *)

Module Invoker.

(** The alternatives of [ERR_RE], a pattern with the [i] flag. *)
Definition SIGNATURES : list string :=
  [ "detached frame"; "frame was detached";
    "Execution context was destroyed"; "Cannot find context";
    "Target closed"; "Navigation failed"; "Connection closed" ]%string.

Definition ERR_RE : re := alts (List.map liti SIGNATURES).

Definition PAGE_CLOSED : jsstring := u16 "Page is closed".

Section Safe.
Context {W A : Type}.

(** The loop of [safe] from [i] on, with [left] iterations to go
    ([i + left = tries]); [last] is the variable of that name. *)
Fixpoint safe_from (fn : M W A) (tries : nat) (wait : N) (i left : nat)
  (last : jsstring) : M W A :=
  match left with
  | O => throw last
  | S left' =>
      catch fn (fun e =>
        if includes PAGE_CLOSED e then throw e
        else if negb (test ERR_RE e) || Nat.eqb i (tries - 1) then throw e
        else (sleep (wait * N.of_nat (i + 1)) ;;;
              safe_from fn tries wait (S i) left' e)%m)
  end.

(** [safe(fn, tries, wait)]; with no iteration at all, [throw last]
    throws [undefined]. *)
Definition safe (fn : M W A) (tries : nat) (wait : N) : M W A :=
  safe_from fn tries wait 0 tries (u16 "undefined").

(** [safe(fn)]: [tries = 5], [wait = 450]. *)
Definition safe' (fn : M W A) : M W A := safe fn 5 450.

End Safe.

(** An error that [safe] answers with another attempt, if one is left. *)
Definition retriable (e : jsstring) : bool :=
  test ERR_RE e && negb (includes PAGE_CLOSED e).

(** [Retried fn wait k s sk]: from [s], [k] attempts in a row failed with
    a retriable error, each followed by a sleep of [wait] times its number
    (the first attempt has number 1), and [sk] is the state the next
    attempt starts in. *)
Inductive Retried {W A : Type} (fn : M W A) (wait : N)
  : nat -> sys W -> sys W -> Prop :=
| Retried_O s : Retried fn wait 0 s s
| Retried_S k s sk e s' :
    Retried fn wait k s sk ->
    fn sk = (Throw e, s') ->
    retriable e = true ->
    Retried fn wait (S k) s
      (Sys (world s') (trace s' ++ [Sleep (wait * N.of_nat (S k))])).

End Invoker.
Export Invoker.

(** ** The page *)

Module Page.

(** [{ openUrl, anchorHref, blobUrls }] of the click capture. *)
Record capture : Type := Capture {
  openUrl : jsstring;
  anchorHref : jsstring;
  blobUrls : list jsstring
}.

Definition NO_CAPTURE : capture := Capture [] [] [].

(** [{ index, selector, text }] of [getClickableTileData]. *)
Record tiledata : Type := TileData {
  td_index : nat;
  td_selector : jsstring;
  td_text : jsstring
}.

(** An [a[href]] of the document panel: its [innerText || textContent]
    and its [href]. *)
Record anchor : Type := Anchor {
  a_text : jsstring;
  a_href : jsstring
}.

(** What the browser does for the program.  A field with an [outcome]
    may throw; the others are calls the program guards itself. *)
Record page (W : Type) : Type := PageApi {
  (* tile discovery; [lower_case] is [String.prototype.toLowerCase] of
     the engine of the page *)
  lower_case : jsstring -> jsstring;
  query_tiles : W -> outcome (list node) * W;
  open_documents : W -> outcome unit * W;
  wait_for_tiles : W -> outcome unit * W;
  (* locator *)
  arm_listeners : W -> W;
  click_in_page : tile -> W -> outcome unit * W;
  clickable_tiles : W -> outcome (list tiledata) * W;
  click_by_data : tiledata -> W -> outcome unit * W;
  page_url : W -> outcome jsstring * W;
  popup_url : W -> jsstring * W;
  pdf_hits : W -> list jsstring;
  cdp_pdf_urls : W -> list jsstring;
  perf_entries : W -> outcome (list jsstring) * W;
  read_capture : W -> outcome capture * W;
  (* legacy chain *)
  patch_pdf_sniffer : W -> W;
  patch_click_capture : W -> outcome unit * W;
  panel_anchors : W -> outcome (list anchor) * W;
  panel_controls : W -> outcome (list jsstring) * W;
  click_control : nat -> W -> outcome unit * W;
  page_content : W -> outcome jsstring * W;
  (* text extraction *)
  get_reader : W -> outcome unit * W;
  pdf_text : jsstring -> W -> outcome jsstring * W;
  reader_failed : bool -> W -> W;
  filename_of : jsstring -> jsstring -> jsstring;
  (* retry *)
  reload : W -> W;
  is_closed : W -> bool;
  wait_for_body : W -> W
}.
Arguments lower_case {W} p.
Arguments query_tiles {W} p.
Arguments open_documents {W} p.
Arguments wait_for_tiles {W} p.
Arguments arm_listeners {W} p.
Arguments click_in_page {W} p.
Arguments clickable_tiles {W} p.
Arguments click_by_data {W} p.
Arguments page_url {W} p.
Arguments popup_url {W} p.
Arguments pdf_hits {W} p.
Arguments cdp_pdf_urls {W} p.
Arguments perf_entries {W} p.
Arguments read_capture {W} p.
Arguments patch_pdf_sniffer {W} p.
Arguments patch_click_capture {W} p.
Arguments panel_anchors {W} p.
Arguments panel_controls {W} p.
Arguments click_control {W} p.
Arguments page_content {W} p.
Arguments get_reader {W} p.
Arguments pdf_text {W} p.
Arguments reader_failed {W} p.
Arguments filename_of {W} p.
Arguments reload {W} p.
Arguments is_closed {W} p.
Arguments wait_for_body {W} p.

(** What [analyzeAddendumPdf] returns. *)
Record analysis : Type := Analysis {
  a_isCWCOT : bool;
  a_cwcot_hits : list string;
  a_cwcot_rev : jsstring;
  a_pdf_text_sample : jsstring;
  a_detection_source : string;
  a_filename : jsstring
}.

(** An entry of [results]: [{ label, url, ...det }]. *)
Record found : Type := Found {
  f_label : jsstring;
  f_url : jsstring;
  f_det : analysis
}.

(** The record a page resolves to.  [tiles_seen] and [tiles_labels] are
    [None] where the source has [undefined]. *)
Record selection : Type := Selection {
  selection_reason : string;
  sel_label : jsstring;
  url : jsstring;
  sel_isCWCOT : bool;
  cwcot_hits : list string;
  sel_cwcot_rev : jsstring;
  detection_source : string;
  filename : jsstring;
  pdf_text_sample : jsstring;
  tiles_seen : option nat;
  tiles_labels : option (list jsstring)
}.

(** [{ selection_reason, label, url, ...det, tiles_seen, tiles_labels }] *)
Definition selected (reason : string) (lbl u : jsstring) (det : analysis)
  (tiles : list tile) : selection :=
  Selection reason lbl u (a_isCWCOT det) (a_cwcot_hits det) (a_cwcot_rev det)
    (a_detection_source det) (a_filename det) (a_pdf_text_sample det)
    (Some (List.length tiles)) (Some (List.map label tiles)).

(** [/purchase[\s_-]*agreement[\s_-]*addendum/i] *)
Definition sep (c : N) : bool := is_space c || (c =? 95) || (c =? 45).
Definition RE_PAA_LOOSE : re :=
  seqs [liti "purchase"; star sep; liti "agreement"; star sep;
        liti "addendum"].

(** [/addendum[\s_-]*to[\s_-]*purchase[\s_-]*agreement/i] *)
Definition RE_ADDENDUM_TO_PA_LOOSE : re :=
  seqs [liti "addendum"; star sep; liti "to"; star sep; liti "purchase";
        star sep; liti "agreement"].

(** [/purchase.*agreement.*addendum/i] *)
Definition RE_PAA_URL : re :=
  seqs [liti "purchase"; star dot; liti "agreement"; star dot;
        liti "addendum"].

(** [/addendum.*to.*purchase.*agreement/i] *)
Definition RE_ADDENDUM_TO_PA_URL : re :=
  seqs [liti "addendum"; star dot; liti "to"; star dot; liti "purchase";
        star dot; liti "agreement"].

(** [isPAA] of [getBestAddendumAndDetect]. *)
Definition isPAA (t : tile) : bool :=
  isPurchaseAgreementAddendumLabel (label t)
  || test RE_PAA_LOOSE (label t)
  || test RE_ADDENDUM_TO_PA_LOOSE (label t)
  || test RE_PAA_URL (href t).

(** [want] and [bad] of [getAddendumUrl]:
    [/(purchase\s*agreement\s*addendum|addendum\s*to\s*purchase\s*agreement)/i]
    and [/prohibited\s+sales\s+addendum/i]. *)
Definition WANT : re :=
  Alt (seqs [liti "purchase"; star is_space; liti "agreement";
             star is_space; liti "addendum"])
      (seqs [liti "addendum"; star is_space; liti "to"; star is_space;
             liti "purchase"; star is_space; liti "agreement"]).
Definition BAD : re :=
  seqs [liti "prohibited"; plus is_space; liti "sales"; plus is_space;
        liti "addendum"].

(** The classes [[^Q'\s]] and [[^Q']], where [Q] stands for the double
    quote. *)
Definition no_quote (c : N) : bool := negb ((c =? 34) || (c =? 39)).
Definition no_quote_space (c : N) : bool := no_quote c && negb (is_space c).

Definition ci (c : N) (x : N) : bool := canon x =? canon c.

(** [/https?:\/\/C+imgix\.net\/resi\/globalDocuments\/C+?\.pdf/ig], where
    [C] is the class [[^Q'\s]]. *)
Definition HYDRATION_RE : re :=
  seqs [liti "http"; opt (ci 115); lit "://"; plus no_quote_space;
        liti "imgix.net/resi/globalDocuments/";
        Rep false 1 None no_quote_space; liti ".pdf"].

(** [/https?:\/\/C+imgix\.net\/resi\/globalDocuments\/C+\.pdf/gi], where
    [C] is the class [[^Q']]. *)
Definition HTML_PDF_RE : re :=
  seqs [liti "http"; opt (ci 115); lit "://"; plus no_quote;
        liti "imgix.net/resi/globalDocuments/"; plus no_quote; liti ".pdf"].

(** [/detached frame|Execution context was destroyed|Cannot find context/i] *)
Definition CONTEXT_LOST_RE : re :=
  alts [liti "detached frame"; liti "Execution context was destroyed";
        liti "Cannot find context"].

(** [/Target closed|Connection closed/i] *)
Definition READER_GONE_RE : re :=
  Alt (liti "Target closed") (liti "Connection closed").

(** The values of a [Set] in insertion order. *)
Definition set_values (l : list jsstring) : list jsstring :=
  fold_left (fun acc u => if existsb (str_eqb u) acc then acc else acc ++ [u])
    l [].

Section Orchestration.
Context {W : Type}.
Variable pg : page W.

Local Open Scope m_scope.

Definition ensureDocumentsOpen : M W unit :=
  or_else (safe' (call (open_documents pg))) tt ;;;
  sleep 900 ;;;
  or_else (safe' (call (wait_for_tiles pg))) tt.

(** [listDocumentTiles]: a scan that fails gives no tile. *)
Definition listDocumentTiles : M W (list tile) :=
  or_else
    (safe' (nodes <- call (query_tiles pg) ;;
            ret (tiles_of_nodes (lower_case pg) nodes)))
    [].

Definition readCapture : M W capture :=
  or_else (safe' (call (read_capture pg))) NO_CAPTURE.

(** The resource-timing poll: the name of the first entry under the
    document host; [k] is what follows the loop. *)
Fixpoint perf_poll (rounds : nat) (pause : N)
  (hit : jsstring -> option jsstring) (k : M W jsstring) : M W jsstring :=
  match rounds with
  | O => k
  | S rounds' =>
      perf <- or_else
                (safe' (names <- call (perf_entries pg) ;;
                        ret (match List.find (test IMGIX_PDF_RE) names with
                             | Some n => n
                             | None => []
                             end)))
                [] ;;
      match hit perf with
      | Some r => ret r
      | None => sleep pause ;;; perf_poll rounds' pause hit k
      end
  end.

(** [matches[ordinal] || matches[0]] *)
Definition pick_match {A} (matches : list A) (ord : nat) : option A :=
  match nth_error matches ord with
  | Some x => Some x
  | None => List.head matches
  end.

(** [clickTileAndSniffPdf] *)
Definition clickTileAndSniffPdf (t : tile) : M W jsstring :=
  emit (Locate t) ;;;
  if nonempty (href t) && isPdfUrlS (href t)
  then ret (toAbs (href t) AUCTION_BASE)
  else
    update (arm_listeners pg) ;;;
    catch (safe' (call (click_in_page pg t)))
      (fun _ =>
         td <- or_else (call (clickable_tiles pg)) [] ;;
         let matches :=
           List.filter (fun d => str_eqb (norm (td_text d)) (norm (label t)))
             td in
         match pick_match matches (ordinal t) with
         | Some d => call (click_by_data pg d)
         | None => ret tt
         end) ;;;
    sleep 900 ;;;
    now <- or_else (safe' (call (page_url pg))) [] ;;
    if isPdfUrlS now then ret now
    else
      pu <- call_ (popup_url pg) ;;
      if isPdfUrlS pu then ret pu
      else
        hit <- read (fun w => List.hd [] (pdf_hits pg w)) ;;
        if nonempty hit && isPdfUrlS hit then ret hit
        else
          cdp <- read (fun w => List.hd [] (cdp_pdf_urls pg w)) ;;
          if nonempty cdp && isPdfUrlS cdp then ret cdp
          else
            perf_poll 6 250
              (fun perf => if isPdfUrlS perf then Some perf else None)
              (cap <- readCapture ;;
               let base := if nonempty now then now else AUCTION_BASE in
               if isPdfUrlS (openUrl cap)
               then ret (toAbs (openUrl cap) base)
               else if isPdfUrlS (anchorHref cap)
               then ret (toAbs (anchorHref cap) base)
               else
                 let blob := List.hd [] (blobUrls cap) in
                 if nonempty blob && isPdfUrlS blob then ret blob
                 else ret []).

(** The direct scan of [getAddendumUrl], on the anchors of the panel. *)
Definition direct_link (anchors : list anchor) : jsstring :=
  match List.find
          (fun a => let t := trim (a_text a) in
                    test WANT t && negb (test BAD t)
                    && test PDF_EXT_RE (a_href a))
          anchors with
  | Some a => a_href a
  | None => []
  end.

(** The index of the first control the legacy click would take. *)
Fixpoint first_wanted (controls : list jsstring) (i : nat) : option nat :=
  match controls with
  | [] => None
  | c :: cs =>
      let t := trim c in
      if test WANT t && negb (test BAD t) then Some i
      else first_wanted cs (S i)
  end.

(** [getAddendumUrl] *)
Definition getAddendumUrl (baseUrl : jsstring) : M W jsstring :=
  update (patch_pdf_sniffer pg) ;;;
  safe' (call (patch_click_capture pg)) ;;;
  ensureDocumentsOpen ;;;
  emit ScanDirect ;;;
  direct <- or_else
              (safe' (anchors <- call (panel_anchors pg) ;;
                      ret (direct_link anchors)))
              [] ;;
  if nonempty direct then ret (toAbs direct baseUrl)
  else
    preHits <- read (fun w => List.length (pdf_hits pg w)) ;;
    emit LegacyClick ;;;
    or_else
      (safe' (controls <- call (panel_controls pg) ;;
              match first_wanted controls 0 with
              | Some i => call (click_control pg i)
              | None => ret tt
              end))
      tt ;;;
    sleep 1200 ;;;
    nowUrl <- or_else (safe' (call (page_url pg))) [] ;;
    if test PDF_EXT_RE nowUrl || test IMGIX_PDF_RE nowUrl then ret nowUrl
    else
      popupUrl <- call_ (popup_url pg) ;;
      if nonempty popupUrl then ret popupUrl
      else
        hit <- read (fun w => List.hd [] (skipn preHits (pdf_hits pg w))) ;;
        if nonempty hit then ret (toAbs hit baseUrl)
        else
          perf_poll 8 400
            (fun perf => if nonempty perf then Some (toAbs perf baseUrl)
                         else None)
            (html <- or_else (safe' (call (page_content pg))) [] ;;
             match match_all HTML_PDF_RE html with
             | m :: _ => ret m
             | [] =>
                 cap <- readCapture ;;
                 if nonempty (openUrl cap)
                 then ret (toAbs (openUrl cap) baseUrl)
                 else if nonempty (anchorHref cap)
                 then ret (toAbs (anchorHref cap) baseUrl)
                 else ret (List.hd [] (blobUrls cap))
             end).

(** [parseHydrationLinksFromHTML] *)
Definition parseHydrationLinksFromHTML : M W (list jsstring) :=
  emit ScanHidden ;;;
  html <- or_else (safe' (call (page_content pg))) [] ;;
  if nonempty html then ret (set_values (match_all HYDRATION_RE html))
  else ret [].

(** [analyzeAddendumPdf] *)
Definition analyzeAddendumPdf (baseUrl addendumUrl : jsstring)
  : M W analysis :=
  emit (Classify addendumUrl) ;;;
  call (get_reader pg) ;;;
  catch
    (pdfText <- safe' (call (pdf_text pg addendumUrl)) ;;
     let filename := filename_of pg baseUrl addendumUrl in
     let textForDetect := normText pdfText in
     let det := detectCWCOTInText textForDetect filename in
     ret (Analysis (isCWCOT det) (hits det) (cwcot_rev det)
            (firstn 600 textForDetect) "pdfjs" filename))
    (fun e => update (reader_failed pg (test READER_GONE_RE e)) ;;; throw e).

(** The loop over [paaTiles]. *)
Fixpoint candidates (baseUrl : jsstring) (ts : list tile)
  (seen : gset jsstring) (results : list found) : M W (list found) :=
  match ts with
  | [] => ret results
  | t :: ts' =>
      pdfUrl <- clickTileAndSniffPdf t ;;
      ensureDocumentsOpen ;;;
      if negb (nonempty pdfUrl) || bool_decide (pdfUrl ∈ seen)
      then candidates baseUrl ts' seen results
      else
        det <- analyzeAddendumPdf baseUrl pdfUrl ;;
        candidates baseUrl ts' ({[pdfUrl]} ∪ seen)
          (results ++ [Found (label t) pdfUrl det])
  end.

(** [if (results.length) { ... }] *)
Definition select_result (results : list found) (tiles : list tile)
  : option selection :=
  match results with
  | [] => None
  | first :: _ =>
      match List.find (fun r => a_isCWCOT (f_det r)) results with
      | Some hit =>
          Some (selected "paa_cwcot_hit" (f_label hit) (f_url hit)
                  (f_det hit) tiles)
      | None =>
          Some (selected "paa_no_cwcot" (f_label first) (f_url first)
                  (f_det first) tiles)
      end
  end.

Definition NOT_FOUND (tiles : list tile) : selection :=
  Selection "paa_not_found" [] [] false [] [] EmptyString [] []
    (Some (List.length tiles)) (Some (List.map label tiles)).

(** What follows when no candidate resolved. *)
Definition fallback (baseUrl : jsstring) (tiles : list tile)
  : M W selection :=
  hiddenLinks <- parseHydrationLinksFromHTML ;;
  match List.find
          (fun u => test RE_PAA_URL u || test RE_ADDENDUM_TO_PA_URL u)
          hiddenLinks with
  | Some paaHidden =>
      det <- analyzeAddendumPdf baseUrl paaHidden ;;
      ret (selected "hydration_paa" (u16 "(hidden PAA)") paaHidden det tiles)
  | None =>
      legacy <- getAddendumUrl baseUrl ;;
      if nonempty legacy then
        det <- analyzeAddendumPdf baseUrl legacy ;;
        ret (selected "legacy_paa" (u16 "(legacy PAA)") legacy det tiles)
      else ret (NOT_FOUND tiles)
  end.

(** The body of the [try] of one attempt. *)
Definition attempt (baseUrl : jsstring) : M W selection :=
  ensureDocumentsOpen ;;;
  tiles <- listDocumentTiles ;;
  let paaTiles := List.filter isPAA tiles in
  results <- candidates baseUrl paaTiles ∅ [] ;;
  match select_result results tiles with
  | Some r => ret r
  | None => fallback baseUrl tiles
  end.

(** [waitSettle]: it catches what it waits on, and does nothing on a
    closed page. *)
Definition waitSettle : M W unit :=
  closed <- read (is_closed pg) ;;
  if closed then ret tt
  else
    update (wait_for_body pg) ;;;
    closed' <- read (is_closed pg) ;;
    if closed' then ret tt else sleep 600.

(** The attempts from [2 - retries] on: the last one lets every error
    through. *)
Fixpoint attempts (retries : nat) (baseUrl : jsstring) : M W selection :=
  match retries with
  | O => attempt baseUrl
  | S retries' =>
      catch (attempt baseUrl)
        (fun e =>
           if negb (test CONTEXT_LOST_RE e) then throw e
           else (update (reload pg) ;;; waitSettle ;;;
                 attempts retries' baseUrl))
  end.

(** [getBestAddendumAndDetect] *)
Definition getBestAddendumAndDetect (baseUrl : jsstring) : M W selection :=
  attempts 2 baseUrl.

End Orchestration.

(** The tags [getBestAddendumAndDetect] gives its outcomes. *)
Definition REASONS : list string :=
  [ "paa_cwcot_hit"; "paa_no_cwcot"; "hydration_paa"; "legacy_paa";
    "paa_not_found" ]%string.

End Page.
Export Page.

(** ** The budget of a page *)

Module Budget.

Local Open Scope Z_scope.

(** The detection of a page as the main loop sees it: when it settles,
    in milliseconds after its start ([None]: it never does), and how. *)
Record task : Type := Task {
  finish : option Z;
  settled : outcome selection
}.

(** [Math.max(4000, Number(cfg.detectTimeoutMs) || 5000)] *)
Definition detectTimeout (cfgMs : Z) : Z :=
  Z.max 4000 (if cfgMs =? 0 then 5000 else cfgMs).

Definition defaultDetectResult : selection :=
  Selection "timeout_no_paa" [] [] false [] [] EmptyString [] [] None None.

Definition before (t : option Z) (deadline : Z) : bool :=
  match t with
  | Some x => x <? deadline
  | None => false
  end.

(** [if (!late.selection_reason) late.selection_reason = 'paa_slow'] *)
Definition tag_slow (late : selection) : selection :=
  match selection_reason late with
  | EmptyString =>
      Selection "paa_slow" (sel_label late) (url late) (sel_isCWCOT late)
        (cwcot_hits late) (sel_cwcot_rev late) (detection_source late)
        (filename late) (pdf_text_sample late) (tiles_seen late)
        (tiles_labels late)
  | _ => late
  end.

(** The two races of the main loop, [picked] in the end.  The first timer
    fires at [detectTimeout]; the second race starts then and its timer
    fires [Math.max(5000, detectTimeout)] later.  A detection that
    settles at the very instant of a timer is counted as late. *)
Definition pick (cfgMs : Z) (tk : task) : outcome selection :=
  let budget := detectTimeout cfgMs in
  if before (finish tk) budget then settled tk
  else
    let late :=
      if before (finish tk) (budget + Z.max 5000 budget)
      then match settled tk with
           | Ok r => Some r
           | Throw _ => None
           end
      else None in
    match late with
    | Some r => Ok (tag_slow r)
    | None => Ok defaultDetectResult
    end.

End Budget.
Export Budget.

(** ** Pages to run the program on *)

Module Samples.

(** A page that never changes: the nodes its selectors find, the anchors
    of its document panel, its markup, and the text its PDFs hold.  A
    click opens a window at [popup], or none when [popup] is empty.  The
    labels of the samples are ASCII, where [toLowerCase] above is the
    function of every engine. *)
Definition static_page (nodes : list node) (anchors : list anchor)
  (html : jsstring) (text_of : jsstring -> jsstring) (popup : jsstring)
  : page unit :=
  {| lower_case := toLowerCase;
     query_tiles := fun w => (Ok nodes, w);
     open_documents := fun w => (Ok tt, w);
     wait_for_tiles := fun w => (Ok tt, w);
     arm_listeners := fun w => w;
     click_in_page := fun _ w => (Ok tt, w);
     clickable_tiles := fun w => (Ok [], w);
     click_by_data := fun _ w => (Ok tt, w);
     page_url := fun w => (Ok (u16 "https://www.auction.com/details/1"), w);
     popup_url := fun w => (popup, w);
     pdf_hits := fun _ => [];
     cdp_pdf_urls := fun _ => [];
     perf_entries := fun w => (Ok [], w);
     read_capture := fun w => (Ok NO_CAPTURE, w);
     patch_pdf_sniffer := fun w => w;
     patch_click_capture := fun w => (Ok tt, w);
     panel_anchors := fun w => (Ok anchors, w);
     panel_controls := fun w => (Ok (List.map a_text anchors), w);
     click_control := fun _ w => (Ok tt, w);
     page_content := fun w => (Ok html, w);
     get_reader := fun w => (Ok tt, w);
     pdf_text := fun u w => (Ok (text_of u), w);
     reader_failed := fun _ w => w;
     filename_of := fun _ _ => [];
     reload := fun w => w;
     is_closed := fun _ => false;
     wait_for_body := fun w => w |}.

Definition PAA_A : jsstring := u16 "https://cdn.example.com/docs/a.pdf".
Definition PAA_B : jsstring := u16 "https://cdn.example.com/docs/b.pdf".

(** Two tiles of the target label; the first document is a CWCOT
    addendum, the second is not. *)
Definition two_tiles : list node :=
  [ Node 1 (u16 "Purchase Agreement Addendum") PAA_A [];
    Node 2 (u16 "Purchase Agreement Addendum") PAA_B [] ].

Definition two_texts (u : jsstring) : jsstring :=
  if str_eqb u PAA_A then u16 "Real Estate Purchase Addendum - CWCOT"
  else u16 "Nothing of interest".

Definition two_tile_page : page unit :=
  static_page two_tiles [] [] two_texts [].

Definition BASE : jsstring := u16 "https://www.auction.com/details/1".

Definition START : sys unit := Sys tt [].

(** An operation that loses its execution context [n] times and then
    answers with the number of the call; the world counts the calls. *)
Definition flaky (n : nat) : M nat nat :=
  call (fun calls =>
          if Nat.ltb calls n
          then (Throw (u16 "Error: Execution context was destroyed"), S calls)
          else (Ok calls, S calls)).

(** A page without tiles whose panel links the addendum directly and
    whose markup holds an address of it as well. *)
Definition HIDDEN_PAA : jsstring :=
  u16 "https://adc.imgix.net/resi/globalDocuments/"
  ++ u16 "purchase-agreement-addendum.pdf".

Definition DIRECT_PAA : jsstring := u16 "/docs/paa.pdf".

Definition both_links_page : page unit :=
  static_page []
    [Anchor (u16 "Purchase Agreement Addendum") DIRECT_PAA]
    (u16 "<script>{'doc':'" ++ HIDDEN_PAA ++ u16 "'}</script>")
    (fun _ => u16 "Addendum")
    [].

(** A page without tiles and without links, where the click on the
    addendum control opens the login page in a new window. *)
Definition LOGIN : jsstring := u16 "https://www.auction.com/login".

Definition login_popup_page : page unit :=
  static_page [] [Anchor (u16 "Purchase Agreement Addendum") (u16 "#")] []
    (fun _ => []) LOGIN.


End Samples.
Export Samples.


(** ** Notions for the properties of the helpers *)

Module Shapes.

(** An absolute address, as [toAbs] tells one: [http://] or [https://],
    in either case, at its start. *)
Definition absolute (s : jsstring) : Prop := test HTTP_RE s = true.

(** [tidy cls after_run s]: in [s] the code units of the class [cls] are
    spaces and no two of them are neighbours; [after_run] says that the
    code unit before [s] was one. *)
Fixpoint tidy (cls : N -> bool) (after_run : bool) (s : jsstring) : bool :=
  match s with
  | [] => true
  | c :: s' =>
      if cls c then (c =? 32) && negb after_run && tidy cls true s'
      else tidy cls false s'
  end.

(** The code unit at an end of a string is no white space. *)
Definition edge_ok (o : option N) : Prop :=
  match o with
  | Some c => is_space c = false
  | None => True
  end.

(** No white space at either end. *)
Definition trimmed (s : jsstring) : Prop :=
  edge_ok (List.head s) /\ edge_ok (List.head (rev s)).

(** A pattern that does not look at what follows its match. *)
Fixpoint blind (r : re) : bool :=
  match r with
  | Seq a b | Alt a b => blind a && blind b
  | Grp _ | WordB | Eol => false
  | _ => true
  end.

(** The tags [detectCWCOTInText] can give, in the order it gives them. *)
Definition HIT_KEYS : list string :=
  List.map rule_k RULES ++ ["filename:CWCOT"%string].

(** [w] stands somewhere in [t], the case of the ASCII letters apart. *)
Definition includes_ci (w t : jsstring) : Prop :=
  exists pre x post, t = pre ++ x ++ post /\ same_ci w x.

(** Whatever [r] matches holds a piece that satisfies [P]. *)
Definition yields (P : jsstring -> Prop) (r : re) : Prop :=
  forall pre w post, span r pre w post ->
    exists x m y, w = x ++ m ++ y /\ P m.

(** The categories [labelType] gives for the kinds of addendum. *)
Definition addendum_category (c : LabelCategory) : bool :=
  match c with
  | prohibited | asis | paa | generic => true
  | psa | other => false
  end.

(** What identifies a tile to the locator: its label without case, as
    the engine's [lower] folds it, and its ordinal. *)
Definition tile_key (lower : jsstring -> jsstring) (t : tile)
  : jsstring * nat :=
  (lower (label t), ordinal t).

(** The tile the pass makes of a node, its ordinal apart. *)
Definition made_from (t : tile) (n : node) : Prop :=
  label t = norm (node_text n) /\ href t = target_href n /\
  dataId t = node_data_id n.

(** [t] ends in [w], the case of the ASCII letters apart. *)
Definition ends_ci (w t : jsstring) : Prop :=
  exists pre x, t = pre ++ x /\ same_ci w x.

(** Whatever [r] matches ends in a piece that satisfies [P]. *)
Definition yields_last (P : jsstring -> Prop) (r : re) : Prop :=
  forall pre w post, span r pre w post ->
    exists x m, w = x ++ m /\ P m.

(** The two patterns for the addresses in the markup, [HYDRATION_RE] and
    [HTML_PDF_RE], differ in the class of the code units between the fixed
    parts and in the greed of the second run only. *)
Definition link_re (cls : N -> bool) (g : bool) : re :=
  seqs [liti "http"; opt (ci 115); lit "://"; plus cls;
        liti "imgix.net/resi/globalDocuments/";
        Rep g 1 None cls; liti ".pdf"].

(** An address of a document as the markup of a page holds it: absolute,
    under the document host, ending in [.pdf]. *)
Definition document_link (u : jsstring) : Prop :=
  absolute u /\ document_host u /\ ends_ci (u16 ".pdf") u.

(** Every value [m] returns satisfies [Q]. *)
Definition returns {W A} (m : M W A) (Q : A -> Prop) : Prop :=
  forall s a s', m s = (Ok a, s') -> Q a.

(** What an analysis of a document tells, whatever the document. *)
Record sound_analysis (a : analysis) : Prop := {
  sa_verdict : a_isCWCOT a = true <-> a_cwcot_hits a <> [];
  sa_hits : sublist (a_cwcot_hits a) HIT_KEYS;
  sa_sample : (List.length (a_pdf_text_sample a) <= 600)%nat;
  sa_source : a_detection_source a = "pdfjs"%string
}.

(** What the loop over the candidates keeps of its results: addresses
    that are not empty, of the artifact type, pairwise distinct and all in
    [seen], each with a sound analysis and the label of a tile of [ts]. *)
Record kept (ts : list tile) (seen : gset jsstring) (results : list found)
  : Prop := {
  kept_nodup : NoDup (List.map f_url results);
  kept_each : forall x, In x results ->
    f_url x <> [] /\ f_url x ∈ seen /\ artifact_typed (f_url x) /\
    sound_analysis (f_det x) /\ exists t, In t ts /\ f_label x = label t
}.

(** Labels as the pass leaves them: not empty, and normalized. *)
Definition labelled (ts : list tile) : Prop :=
  forall t, In t ts -> label t <> [] /\ norm (label t) = label t.

(** What holds of every outcome of [getBestAddendumAndDetect]. *)
Record coherent (r : selection) : Prop := {
  coh_verdict : sel_isCWCOT r = true <-> cwcot_hits r <> [];
  coh_hit :
    selection_reason r = "paa_cwcot_hit"%string -> sel_isCWCOT r = true;
  coh_miss :
    selection_reason r = "paa_no_cwcot"%string -> sel_isCWCOT r = false;
  coh_url : url r = [] <-> selection_reason r = "paa_not_found"%string;
  coh_none : url r = [] ->
    sel_isCWCOT r = false /\ detection_source r = EmptyString /\
    sel_label r = [];
  coh_source : url r <> [] -> detection_source r = "pdfjs"%string;
  coh_tile :
    selection_reason r = "paa_cwcot_hit"%string \/
    selection_reason r = "paa_no_cwcot"%string ->
    artifact_typed (url r) /\
    exists labels, tiles_labels r = Some labels /\ In (sel_label r) labels;
  coh_hits : sublist (cwcot_hits r) HIT_KEYS;
  coh_sample : (List.length (pdf_text_sample r) <= 600)%nat;
  coh_seen : exists labels,
    tiles_labels r = Some labels /\
    tiles_seen r = Some (List.length labels) /\
    forall l, In l labels -> l <> [] /\ norm l = l
}.

(** What the loop over the candidates does, tile by tile, from the
    state [s] and the addresses [seen] so far: the locator resolves the
    tile to an address and the panel is reopened; an address that is empty
    or was seen adds no result; any other address is classified, and the
    result carries the label of the tile, the address and that
    classification.  [Examined pg base ts seen s new s']: the tiles [ts]
    gave the results [new], in this order, and left the state [s']. *)
Inductive Examined {W : Type} (pg : page W) (base : jsstring)
  : list tile -> gset jsstring -> sys W -> list found -> sys W -> Prop :=
| Examined_nil seen s : Examined pg base [] seen s [] s
| Examined_skip t ts seen s u s1 s2 new s' :
    clickTileAndSniffPdf pg t s = (Ok u, s1) ->
    ensureDocumentsOpen pg s1 = (Ok tt, s2) ->
    u = [] \/ u ∈ seen ->
    Examined pg base ts seen s2 new s' ->
    Examined pg base (t :: ts) seen s new s'
| Examined_keep t ts seen s u s1 s2 det s3 new s' :
    clickTileAndSniffPdf pg t s = (Ok u, s1) ->
    ensureDocumentsOpen pg s1 = (Ok tt, s2) ->
    u <> [] -> u ∉ seen ->
    analyzeAddendumPdf pg base u s2 = (Ok det, s3) ->
    Examined pg base ts ({[u]} ∪ seen) s3 new s' ->
    Examined pg base (t :: ts) seen s (Found (label t) u det :: new) s'.

(** [s] does not go on with a code unit of the class [p]. *)
Definition stops (p : N -> bool) (s : jsstring) : Prop :=
  match s with
  | c :: _ => p c = false
  | [] => True
  end.

(** The tag [g] stands in [t] right after [pre], "rev", an optional dot
    and optional white space. *)
Definition rev_from (t pre g : jsstring) : Prop :=
  exists dot ws post,
    t = pre ++ u16 "rev" ++ dot ++ ws ++ g ++ post /\
    (dot = [] \/ dot = [46]) /\ forallb is_space ws = true /\ rev_tag g.

(** The tag of the first match of the pattern in [t]: it stands after
    the first "rev" that a tag follows, and its third component takes as
    many digits as it can, four at most. *)
Definition first_rev_at (t g : jsstring) : Prop :=
  exists pre dot ws d1 d2 d3 post,
    t = pre ++ u16 "rev" ++ dot ++ ws ++ g ++ post /\
    (dot = [] \/ dot = [46]) /\ forallb is_space ws = true /\
    g = d1 ++ [46] ++ d2 ++ [46] ++ d3 /\
    digits 1 2 d1 /\ digits 1 2 d2 /\ digits 2 4 d3 /\
    (List.length d3 = 4%nat \/ stops is_digit post) /\
    (forall pre' g', rev_from t pre' g' ->
       (List.length pre <= List.length pre')%nat).


End Shapes.
Export Shapes.

(** ** Notions for the retries *)

Module Retrying.

(** The time a run has slept, in milliseconds. *)
Fixpoint slept (evs : list event) : N :=
  match evs with
  | [] => 0
  | Sleep ms :: evs' => ms + slept evs'
  | _ :: evs' => slept evs'
  end.

(** The sum of the pauses of [safe] after [k] failed attempts:
    [wait * 1 + ... + wait * k]. *)
Fixpoint backoff (wait : N) (k : nat) : N :=
  match k with
  | O => 0
  | S k' => backoff wait k' + wait * N.of_nat (S k')
  end.

(** [fn] does not sleep. *)
Definition quiet {W A} (fn : M W A) : Prop :=
  forall s o s', fn s = (o, s') -> slept (trace s') = slept (trace s).

Section Reload.
Context {W : Type}.
Variable pg : page W.
Variable base : jsstring.

Local Open Scope m_scope.

(** What the orchestrator does between two attempts. *)
Definition recover : M W unit := update (reload pg) ;;; waitSettle pg.

(** [Reloaded k s sk]: from [s], [k] attempts in a row lost their
    execution context, each followed by a reload and the wait for the
    page to settle, and [sk] is the state the next attempt starts in. *)
Inductive Reloaded : nat -> sys W -> sys W -> Prop :=
| Reloaded_O s : Reloaded 0 s s
| Reloaded_S k s sk e s1 s2 :
    Reloaded k s sk ->
    attempt pg base sk = (Throw e, s1) ->
    test CONTEXT_LOST_RE e = true ->
    recover s1 = (Ok tt, s2) ->
    Reloaded (S k) s s2.

End Reload.

(** A page without tiles and without links whose click capture cannot be
    installed. *)
Definition BOOM : jsstring := u16 "Error: boom".

Definition no_capture_page : page unit :=
  let p := static_page [] [] [] (fun _ => []) [] in
  {| lower_case := lower_case p;
     query_tiles := query_tiles p;
     open_documents := open_documents p;
     wait_for_tiles := wait_for_tiles p;
     arm_listeners := arm_listeners p;
     click_in_page := click_in_page p;
     clickable_tiles := clickable_tiles p;
     click_by_data := click_by_data p;
     page_url := page_url p;
     popup_url := popup_url p;
     pdf_hits := pdf_hits p;
     cdp_pdf_urls := cdp_pdf_urls p;
     perf_entries := perf_entries p;
     read_capture := read_capture p;
     patch_pdf_sniffer := patch_pdf_sniffer p;
     patch_click_capture := fun w => (Throw BOOM, w);
     panel_anchors := panel_anchors p;
     panel_controls := panel_controls p;
     click_control := click_control p;
     page_content := page_content p;
     get_reader := get_reader p;
     pdf_text := pdf_text p;
     reader_failed := reader_failed p;
     filename_of := filename_of p;
     reload := reload p;
     is_closed := is_closed p;
     wait_for_body := wait_for_body p |}.

End Retrying.
Export Retrying.

(** ** Navigation and new pages *)

Module Navigation.

(** [/\.auction\.com\b/i] *)
Definition AUCTION_HOST_RE : re := seqs [liti ".auction.com"; WordB].

(** [/^about:blank$/i] *)
Definition ABOUT_BLANK_RE : re := seqs [Bol; liti "about:blank"; Eol].

(** The address a navigation may end at. *)
Definition on_site (u : jsstring) : bool :=
  test AUCTION_HOST_RE u || test ABOUT_BLANK_RE u.

(** The errors the two functions make themselves, as [String] shows
    them. *)
Definition CLOSED_BEFORE : jsstring :=
  u16 "Error: Page is closed before navigation".
Definition REDIRECTED : jsstring :=
  u16 "Error: Redirected away from auction.com".
Definition CONTEXT_INVALID : jsstring :=
  u16 "Error: Browser context is no longer valid".
Definition NO_PAGE : jsstring := u16 "Error: Failed to create page".
Definition CLOSED_AT_ONCE : jsstring :=
  u16 "Error: Page was closed immediately after creation".
Definition GAVE_UP : jsstring :=
  u16 "Error: Failed to create new page after multiple attempts".

Section Loop.
Context {W A : Type}.

Local Open Scope m_scope.

(** The loop of [safeNavigate] and of [createNewPage] from [i] on, with
    [left] iterations to go: whatever the error, another attempt follows
    after [pause * (i + 1)] milliseconds, unless the attempt was the last
    one; [after] is what stands behind the loop. *)
Fixpoint retry_from (body : M W A) (pause : N) (maxRetries i left : nat)
  (after : M W A) : M W A :=
  match left with
  | O => after
  | S left' =>
      catch body (fun e =>
        if Nat.eqb i (maxRetries - 1) then throw e
        else (sleep (pause * N.of_nat (i + 1)) ;;;
              retry_from body pause maxRetries (S i) left' after))
  end.

(** [Tried body pause k s sk]: from [s], [k] attempts in a row failed,
    each followed by a sleep of [pause] times its number, and [sk] is the
    state the next attempt starts in. *)
Inductive Tried (body : M W A) (pause : N)
  : nat -> sys W -> sys W -> Prop :=
| Tried_O s : Tried body pause 0 s s
| Tried_S k s sk e s' :
    Tried body pause k s sk ->
    body sk = (Throw e, s') ->
    Tried body pause (S k) s
      (Sys (world s') (trace s' ++ [Sleep (pause * N.of_nat (S k))])).

End Loop.

(** What [safeNavigate] uses of a page: [isClosed], [goto] with its
    response, and [url]. *)
Record navigator (W R : Type) : Type := Navigator {
  page_closed : W -> bool;
  goto : jsstring -> W -> outcome R * W;
  current_url : W -> jsstring
}.
Arguments page_closed {W R} _ _.
Arguments goto {W R} _ _ _.
Arguments current_url {W R} _ _.

(** What [createNewPage] uses of a context: whether [pages()] answers,
    [newPage], whose page may be missing, and [isClosed] of the new
    page. *)
Record factory (W P : Type) : Type := Factory {
  context_valid : W -> bool * W;
  new_page : W -> outcome (option P) * W;
  born_closed : P -> W -> bool
}.
Arguments context_valid {W P} _ _.
Arguments new_page {W P} _ _.
Arguments born_closed {W P} _ _ _.

Section Navigate.
Context {W R P : Type}.
Variable nv : navigator W R.
Variable fc : factory W P.

Local Open Scope m_scope.

(** The body of the [try] of [safeNavigate]. *)
Definition navigate_once (url : jsstring) : M W (option R) :=
  closed <- read (page_closed nv) ;;
  if closed then throw CLOSED_BEFORE
  else
    response <- call (goto nv url) ;;
    currentUrl <- read (current_url nv) ;;
    if negb (test AUCTION_HOST_RE currentUrl)
       && negb (test ABOUT_BLANK_RE currentUrl)
    then throw REDIRECTED
    else ret (Some response).

(** [safeNavigate]; [None] is the [undefined] of a loop that never ran. *)
Definition safeNavigate (url : jsstring) (maxRetries : nat)
  : M W (option R) :=
  retry_from (navigate_once url) 1500 maxRetries 0 maxRetries (ret None).

(** The body of the [try] of [createNewPage]. *)
Definition create_once : M W P :=
  valid <- call_ (context_valid fc) ;;
  if negb valid then throw CONTEXT_INVALID
  else
    page <- call (new_page fc) ;;
    match page with
    | None => throw NO_PAGE
    | Some p =>
        closed <- read (born_closed fc p) ;;
        if closed then throw CLOSED_AT_ONCE else ret p
    end.

(** [createNewPage] *)
Definition createNewPage (retries : nat) : M W P :=
  retry_from create_once 1000 retries 0 retries (throw GAVE_UP).

End Navigate.

(** The pauses after the attempts [i + 1] to [i + n]. *)
Fixpoint pauses (pause : N) (i n : nat) : list event :=
  match n with
  | O => []
  | S n' => Sleep (pause * N.of_nat (i + 1)) :: pauses pause (S i) n'
  end.

(** A page that is closed, and counts the calls of [goto]. *)
Definition closed_page : navigator nat unit :=
  {| page_closed := fun _ => true;
     goto := fun _ calls => (Ok tt, S calls);
     current_url := fun _ => [] |}.

(** A page that is redirected away [n] times and then arrives; the world
    counts the calls of [goto]. *)
Definition detour (n : nat) : navigator nat nat :=
  {| page_closed := fun _ => false;
     goto := fun _ calls => (Ok calls, S calls);
     current_url := fun calls =>
       if Nat.leb calls n then u16 "https://www.example.com/"
       else u16 "https://www.auction.com/details/1" |}.

End Navigation.
Export Navigation.

(** ** Cookies *)

Module Cookies.

(** An entry of the array [cookiesFromHeader] returns. *)
Record cookie : Type := Cookie {
  c_name : jsstring;
  c_value : jsstring;
  c_domain : string;
  c_path : string;
  c_secure : bool;
  c_httpOnly : bool;
  c_sameSite : string
}.

(** [header.split(/; */)]: a piece ends at a semicolon, and the spaces
    that follow the semicolon belong to the separator.  [skip] says that
    the separator is being read, [cur] holds the piece being read,
    reversed. *)
Fixpoint split_from (skip : bool) (cur s : jsstring) : list jsstring :=
  match s with
  | [] => [rev cur]
  | c :: s' =>
      if skip && (c =? 32) then split_from true cur s'
      else if c =? 59 then rev cur :: split_from true [] s'
      else split_from false (c :: cur) s'
  end.

Definition split_semicolons (s : jsstring) : list jsstring :=
  split_from false [] s.

(** [kv.indexOf(c)]; [None] is [-1]. *)
Fixpoint index_of (c : N) (s : jsstring) : option nat :=
  match s with
  | [] => None
  | x :: s' =>
      if x =? c then Some 0%nat
      else match index_of c s' with
           | Some i => Some (S i)
           | None => None
           end
  end.

Definition make_cookie (name value : jsstring) : cookie :=
  Cookie name value ".auction.com" "/" true false "Lax".

(** The function mapped over the pieces; [None] is [null]. *)
Definition cookie_of (kv : jsstring) : option cookie :=
  match index_of 61 kv with
  | None => None
  | Some i => Some (make_cookie (trim (firstn i kv)) (trim (skipn (S i) kv)))
  end.

Fixpoint keep_some {A} (l : list (option A)) : list A :=
  match l with
  | [] => []
  | Some a :: l' => a :: keep_some l'
  | None :: l' => keep_some l'
  end.

(** [cookiesFromHeader] *)
Definition cookiesFromHeader (header : jsstring) : list cookie :=
  match header with
  | [] => []
  | _ => keep_some (List.map cookie_of (split_semicolons header))
  end.

(** The header a browser sends for the cookies [cs]. *)
Fixpoint header_of (cs : list cookie) : jsstring :=
  match cs with
  | [] => []
  | [c] => c_name c ++ [61] ++ c_value c
  | c :: cs' => c_name c ++ [61] ++ c_value c ++ [59; 32] ++ header_of cs'
  end.

Definition without (c : N) (s : jsstring) : Prop :=
  forallb (fun x => negb (x =? c)) s = true.

(** A cookie as [cookiesFromHeader] makes them, with a name and a value
    that a header can carry. *)
Definition clean (c : cookie) : Prop :=
  without 59 (c_name c) /\ without 61 (c_name c) /\ trimmed (c_name c) /\
  without 59 (c_value c) /\ trimmed (c_value c) /\
  c = make_cookie (c_name c) (c_value c).

Definition SESSION : list cookie :=
  [ make_cookie (u16 "sid") (u16 "a=b c");
    make_cookie (u16 "theme") [];
    make_cookie [] (u16 "x") ].

End Cookies.
Export Cookies.

(** ** Texts of a page, rows and the summary *)

Module Report.

Local Open Scope m_scope.

Section Select.
Context {W : Type}.

(** [textContent] of the first node a selector finds; [None] when it
    finds none. *)
Variable text_content : jsstring -> W -> outcome (option jsstring) * W.



End Select.

(** [/Additional Documents|Review Purchase Agreement|Purchase Agreement
    Addendum/i] and [/Log\s*In|Sign\s*Up/i] *)
Definition DOCS_WORD_RE : re :=
  alts [liti "Additional Documents"; liti "Review Purchase Agreement";
        liti "Purchase Agreement Addendum"].
Definition LOGIN_WORD_RE : re :=
  Alt (seqs [liti "Log"; star is_space; liti "In"])
      (seqs [liti "Sign"; star is_space; liti "Up"]).

(** What [cookieHealth] returns. *)
Record health : Type := Health {
  healthy : bool;
  showsLogin : bool;
  hasDocsWord : bool;
  health_sample : jsstring
}.

Definition health_of (t : jsstring) : health :=
  let docs := test DOCS_WORD_RE t in
  let login := test LOGIN_WORD_RE t in
  Health (docs && negb login) login docs (firstn 220 t).


(** A row of the output, without the time stamp and without the fields
    copied from [getBasics]. *)
Record row : Type := Row {
  row_url : jsstring;
  addendum_url : jsstring;
  row_isCWCOT : bool;
  row_cwcot_hits : list string;
  row_cwcot_rev : jsstring;
  row_detection_source : string;
  row_filename : jsstring;
  row_pdf_text_sample : jsstring;
  row_selection_reason : string;
  clicked_label : jsstring;
  row_tiles_seen : option nat;
  row_tiles_labels : option (list jsstring);
  cookie_healthy : bool;
  cookie_hint : string;
  row_error : jsstring
}.

(** The row of a page that went through. *)
Definition success_row (u : jsstring) (picked : selection) (h : health)
  : row :=
  Row u (url picked) (sel_isCWCOT picked) (cwcot_hits picked)
    (sel_cwcot_rev picked) (detection_source picked) (filename picked)
    (pdf_text_sample picked) (selection_reason picked) (sel_label picked)
    (tiles_seen picked) (tiles_labels picked) (healthy h)
    (if healthy h then EmptyString
     else if showsLogin h then "Login text visible; cookies likely stale"
     else "Docs keywords not visible")
    [].

(** The row of a page that failed with [e]. *)
Definition error_row (u e : jsstring) : row :=
  Row u [] false [] [] EmptyString [] [] EmptyString [] None None false
    EmptyString e.

(** A number of the language, as [Number(cfg.maxProperties)] can be one:
    not a number, an infinity, or a finite number, here the fraction
    [num / den] (every finite double is one). *)
Inductive jsnumber : Type :=
| NaN
| PosInf
| NegInf
| Finite (num : Z) (den : positive).

(** The number of a length or of a count. *)
Definition of_nat (n : nat) : jsnumber := Finite (Z.of_nat n) 1.


(** The end of [arr.slice(0, n)] for an array of [len] elements:
    ToIntegerOrInfinity truncates [n] towards zero and sends [NaN] to 0; a
    negative end counts from the end of the array; the end is clamped to
    the array. *)
Definition slice_end (len : nat) (n : jsnumber) : nat :=
  match n with
  | NaN => 0%nat
  | PosInf => len
  | NegInf => 0%nat
  | Finite a d =>
      let k := Z.quot a (Zpos d) in
      if (k <? 0)%Z then Z.to_nat (Z.max (Z.of_nat len + k) 0)
      else Nat.min (Z.to_nat k) len
  end.

(** [arr.slice(0, n)] *)
Definition slice_to {A} (l : list A) (n : jsnumber) : list A :=
  firstn (slice_end (List.length l) n) l.


(** [total >= n], for a count [total]: false when [n] is not a number. *)
Definition count_ge (total : nat) (n : jsnumber) : bool :=
  match n with
  | NaN => false
  | PosInf => false
  | NegInf => true
  | Finite a d => (a <=? Z.of_nat total * Zpos d)%Z
  end.

(** [Math.min(count, n)], for a count [count]: not a number when [n] is
    not one. *)
Definition min_count (count : nat) (n : jsnumber) : jsnumber :=
  match n with
  | NaN => NaN
  | PosInf => of_nat count
  | NegInf => NegInf
  | Finite a d => if (a <? Z.of_nat count * Zpos d)%Z then Finite a d
               else of_nat count
  end.


Section Loop.
Context {W : Type}.

(** [context.newPage()], which may throw, and what the [finally] of an
    iteration does, [safeClosePage(p)] and [closeExtraPages(context, [])],
    which catch everything. *)
Variable new_page : W -> outcome unit * W.
Variable close_pages : W -> W.

(** What the [try] of an iteration does before it builds its row: it
    ends with the outcome picked and the health of the cookies. *)
Variable visit : jsstring -> M W (selection * health).

(** One iteration of the main loop: the page is created before the
    [try], so an error of its creation leaves the loop; an error of the
    visit becomes a row; the [finally] closes the pages. *)
Definition scrape_one (u : jsstring) : M W row :=
  call new_page ;;;
  r <- catch (x <- visit u ;; ret (success_row u (fst x) (snd x)))
         (fun e => ret (error_row u e)) ;;
  update close_pages ;;;
  ret r.

(** The loop over the addresses: [out], in the order of the pushes. *)
Fixpoint scrape_all (urls : list jsstring) : M W (list row) :=
  match urls with
  | [] => ret []
  | u :: urls' =>
      r <- scrape_one u ;;
      rs <- scrape_all urls' ;;
      ret (r :: rs)
  end.

(** [for (const url of detailUrls.slice(0, cfg.maxProperties))] *)
Definition main_loop (detailUrls : list jsstring) (maxProperties : jsnumber)
  : M W (list row) :=
  scrape_all (slice_to detailUrls maxProperties).

End Loop.

Record summary : Type := Summary {
  total : nat;
  ok : nat;
  withAddendum : nat;
  cwcot : nat;
  maxRequested : jsnumber;
  available : nat;
  attempted : jsnumber;
  scrapedAllAvailable : bool
}.

Definition count {A} (p : A -> bool) (l : list A) : nat :=
  List.length (List.filter p l).

(** The summary of a run: [attempted] is
    [Math.min(availableCount, cfg.maxProperties)] and
    [scrapedAllAvailable] is [total >= attempted]. *)
Definition summarize (out : list row) (availableCount : nat)
  (maxProperties : jsnumber) : summary :=
  let total := List.length out in
  let attempted := min_count availableCount maxProperties in
  Summary total
    (count (fun r => negb (nonempty (row_error r))) out)
    (count (fun r => nonempty (addendum_url r)) out)
    (count row_isCWCOT out)
    maxProperties availableCount attempted
    (count_ge total attempted).

(** The visit of the main loop: [arrive] stands for what leads to the
    page (its timeouts, the navigation, the wait, the dismissal of
    dialogs), [h] for [cookieHealth], [basics] for [getBasics]; then the
    detection runs under the budget, and [clock] tells when the detection
    of an address settles. *)
Definition detect_visit {W} (pg : page W) (cfgMs : Z)
  (clock : jsstring -> option Z) (arrive : jsstring -> M W unit)
  (h : M W health) (basics : M W unit) (u : jsstring)
  : M W (selection * health) :=
  arrive u ;;;
  hv <- h ;;
  basics ;;;
  (fun s =>
     let (o, s') := getBestAddendumAndDetect pg u s in
     match pick cfgMs (Task (clock u) o) with
     | Ok picked => (Ok (picked, hv), s')
     | Throw e => (Throw e, s')
     end).

(** A verdict with an address: what the counts of the summary rest on. *)
Definition backed (p : selection) : Prop :=
  sel_isCWCOT p = true -> url p <> [].

(** A row as an iteration makes it, from an outcome that satisfies
    [Q] or from an error. *)
Definition made_by (Q : selection -> Prop) (r : row) : Prop :=
  (exists p h, Q p /\ r = success_row (row_url r) p h) \/
  (exists e, r = error_row (row_url r) e).

End Report.
Export Report.

(** ** The links of a results page *)

Module Results.

Local Open Scope m_scope.

(** [m[1]] of the matches of a pattern with the [g] flag, from left to
    right ([s.matchAll(re)]); an unset group gives the empty string. *)
Fixpoint capture_all_from (fuel : nat) (r : re) (pre_rev s : jsstring)
  : list jsstring :=
  match fuel with
  | O => []
  | S fuel' =>
      match search r pre_rev s with
      | None => []
      | Some (_, st) =>
          match cap1 st with Some g => g | None => [] end
          :: capture_all_from fuel' r (consumed st) (rest st)
      end
  end.

Definition capture_all (r : re) (s : jsstring) : list jsstring :=
  capture_all_from (List.length s) r [] s.

(** [[A-Za-z0-9\-._/%?=&#]] *)
Definition url_char (c : N) : bool :=
  is_upper c || is_lower c || is_digit c || any_of "-._/%?=&#" c.

(** Q stands for the double quote: [[Q']] *)
Definition quote (c : N) : bool := (c =? 34) || (c =? 39).

(** [/https?:\/\/www\.auction\.com\/details\/[A-Za-z0-9\-._/%?=&#]+/g] *)
Definition FULL_LINK_RE : re :=
  seqs [lit "http"; opt (N.eqb 115); lit "://www.auction.com/details/";
        plus url_char].

(** [/[Q'](\/details\/[A-Za-z0-9\-._/%?=&#]+)[Q']/g] *)
Definition RELATIVE_LINK_RE : re :=
  seqs [Cls quote; Grp (Seq (lit "/details/") (plus url_char)); Cls quote].

(** [/data-url=[Q'](\/details\/[^Q']+)[Q']/g] *)
Definition DATA_LINK_RE : re :=
  seqs [lit "data-url="; Cls quote;
        Grp (Seq (lit "/details/") (plus no_quote)); Cls quote].

Definition SITE : jsstring := u16 "https://www.auction.com".

(** The group of a pattern whose other parts are plain. *)
Fixpoint group_of (r : re) : option re :=
  match r with
  | Seq (Grp b) c => if plain b && plain c then Some b else None
  | Seq a r' => if plain a then group_of r' else None
  | _ => None
  end.

Section Collect.
Context {W : Type}.

(** The [href] of the links in the property cards, and the markup of the
    page. *)
Variable card_hrefs : W -> outcome (list jsstring) * W.
Variable content : W -> outcome jsstring * W.

(** [collectDetailLinksFromHTML] *)
Definition collectDetailLinksFromHTML : M W (list jsstring) :=
  sleep 2000 ;;;
  cardLinks <- or_else
                 (safe' (hrefs <- call card_hrefs ;;
                         ret (List.filter (includes (u16 "/details/"))
                                hrefs)))
                 [] ;;
  match cardLinks with
  | _ :: _ => ret (set_values cardLinks)
  | [] =>
      html <- or_else (safe' (call content)) [] ;;
      if nonempty html then
        ret (set_values
               (match_all FULL_LINK_RE html
                ++ List.map (fun m => toAbs m SITE)
                     (capture_all RELATIVE_LINK_RE html)
                ++ List.map (fun m => toAbs m SITE)
                     (capture_all DATA_LINK_RE html)))
      else ret []
  end.

End Collect.

(** A results page without cards whose markup names one property three
    times and another once. *)
Definition RESULTS_HTML : jsstring :=
  u16 "<a href='/details/12-elm-st'>x</a>"
  ++ u16 "<i data-url='/details/9 oak'></i>"
  ++ u16 "<b>https://www.auction.com/details/12-elm-st</b>".

(** An address of a property under the site. *)
Definition site_link (u : jsstring) : Prop :=
  exists x, x <> [] /\
    (u = u16 "https://www.auction.com/details/" ++ x \/
     u = u16 "http://www.auction.com/details/" ++ x).

End Results.
Export Results.

(** * Properties *)

(** ** The matcher *)

Module RegexFacts.

Lemma at_snoc pre c s : step (at_ pre (c :: s)) c s = at_ (pre ++ [c]) s.
Proof. unfold step, at_. simpl. now rewrite rev_app_distr. Qed.

Lemma reps_at g p hi : forall lo pre s st',
  In st' (reps g p lo hi (at_ pre s)) <->
  exists w post, s = w ++ post /\ forallb p w = true /\
    (lo <= List.length w <= hi)%nat /\ st' = at_ (pre ++ w) post.
Proof.
  induction hi as [|hi IH]; intros lo pre s st'.
  - simpl. destruct (Nat.eqb_spec lo 0) as [->|Hlo]; simpl.
    + split.
      * intros [<-|[]]. exists [], s. rewrite app_nil_r. repeat split; auto.
      * intros (w & post & -> & _ & [_ Hw] & ->).
        destruct w; [|simpl in Hw; lia]. rewrite app_nil_r. now left.
    + split; [intros []|].
      intros (w & post & _ & _ & [H1 H2] & _). lia.
  - cbn [reps].
    set (more := match rest (at_ pre s) with
                 | c :: r => if p c then reps g p (Nat.pred lo) hi
                                           (step (at_ pre s) c r) else []
                 | [] => []
                 end).
    assert (Hmore : In st' more <->
      exists c w post, s = c :: w ++ post /\ p c = true /\
        forallb p w = true /\ (Nat.pred lo <= List.length w <= hi)%nat /\
        st' = at_ (pre ++ c :: w) post).
    { subst more. cbn [rest at_]. destruct s as [|c s].
      - split; [intros []|]. intros (c & w & post & H & _). discriminate.
      - destruct (p c) eqn:Hc.
        + rewrite at_snoc, IH. split.
          * intros (w & post & -> & Hw & Hlen & ->).
            exists c, w, post. rewrite <- app_assoc. repeat split; auto; lia.
          * intros (c' & w & post & [= <- ->] & _ & Hw & Hlen & ->).
            exists w, post. rewrite <- app_assoc. repeat split; auto; lia.
        + split; [intros []|].
          intros (c' & w & post & [= <- ->] & Hc' & _). congruence. }
    assert (Hzero : st' = at_ pre s <->
      exists w post, s = w ++ post /\ forallb p w = true /\
        (List.length w = 0)%nat /\ st' = at_ (pre ++ w) post).
    { split.
      - intros ->. exists [], s. rewrite app_nil_r. auto.
      - intros (w & post & -> & _ & Hw & ->).
        destruct w; [|discriminate]. now rewrite app_nil_r. }
    assert (Hsplit : (exists w post, s = w ++ post /\ forallb p w = true /\
        (lo <= List.length w <= S hi)%nat /\ st' = at_ (pre ++ w) post) <->
      (lo = 0%nat /\ st' = at_ pre s) \/ In st' more).
    { rewrite Hmore, Hzero. split.
      - intros (w & post & -> & Hw & Hlen & ->). destruct w as [|c w].
        + left. split; [simpl in Hlen; lia|]. exists [], post. auto.
        + right. simpl in Hw. apply andb_true_iff in Hw as [Hc Hw].
          exists c, w, post. simpl in Hlen. repeat split; auto; lia.
      - intros [[-> (w & post & -> & Hw & Hlen & ->)]
               |(c & w & post & -> & Hc & Hw & Hlen & ->)].
        + exists w, post. repeat split; auto; lia.
        + exists (c :: w), post. simpl. rewrite Hc, Hw.
          repeat split; auto; lia. }
    rewrite Hsplit.
    destruct (Nat.eqb_spec lo 0) as [->|Hlo].
    + destruct g.
      * rewrite in_app_iff. simpl. intuition (subst; auto).
      * simpl. intuition (subst; auto).
    + intuition (subst; auto; lia).
Qed.

(** From a position, a pattern without group leads to positions. *)
Lemma run_at r : plain r = true -> forall pre s st',
  In st' (run r (at_ pre s)) ->
  exists w post, s = w ++ post /\ st' = at_ (pre ++ w) post.
Proof.
  induction r; intros Hp pre s st' Hin; simpl in Hp; try discriminate.
  - destruct Hin as [<-|[]]. exists [], s. now rewrite app_nil_r.
  - simpl in Hin. destruct s as [|c s]; [destruct Hin|].
    destruct (p c); [|destruct Hin]. destruct Hin as [<-|[]].
    exists [c], s. split; auto. apply at_snoc.
  - apply andb_true_iff in Hp as [Ha Hb].
    simpl in Hin. apply in_flat_map in Hin as (m & Hm & Hin).
    apply (IHr1 Ha) in Hm as (w1 & p1 & -> & ->).
    apply (IHr2 Hb) in Hin as (w2 & p2 & -> & ->).
    exists (w1 ++ w2), p2. now rewrite !app_assoc.
  - apply andb_true_iff in Hp as [Ha Hb].
    simpl in Hin. apply in_app_iff in Hin as [Hin|Hin]; eauto.
  - simpl in Hin. apply reps_at in Hin as (w & post & -> & _ & _ & ->).
    eauto.
  - simpl in Hin.
    destruct (xorb _ _); [|destruct Hin]. destruct Hin as [<-|[]].
    exists [], s. now rewrite app_nil_r.
  - unfold at_ in *. simpl in Hin. destruct (rev pre) eqn:E; [|destruct Hin].
    destruct Hin as [<-|[]]. exists [], s. now rewrite app_nil_r, E.
  - simpl in Hin. destruct s; [|destruct Hin].
    destruct Hin as [<-|[]]. exists [], [].
    split; [reflexivity | now rewrite app_nil_r].
Qed.

Lemma run_span r pre s st' : plain r = true ->
  In st' (run r (at_ pre s)) ->
  exists w post, s = w ++ post /\ st' = at_ (pre ++ w) post /\
    span r pre w post.
Proof.
  intros Hp Hin. destruct (run_at r Hp _ _ _ Hin) as (w & post & -> & ->).
  exists w, post. repeat split; auto.
Qed.

(** *** The search *)

Lemma search_some r : forall s pre st0 st,
  search r (rev pre) s = Some (st0, st) ->
  exists a b, s = a ++ b /\ st0 = at_ (pre ++ a) b /\
    In st (run r (at_ (pre ++ a) b)).
Proof.
  induction s as [|c s IH]; intros pre st0 st H; simpl in H.
  - destruct (run r (MState (rev pre) [] None)) as [|x l] eqn:E;
      [discriminate|]. injection H as <- <-.
    exists [], []. rewrite !app_nil_r. repeat split; auto.
    unfold at_. rewrite E. now left.
  - destruct (run r (MState (rev pre) (c :: s) None)) as [|x l] eqn:E.
    + change (c :: rev pre) with (rev [c] ++ rev pre) in H.
      rewrite <- rev_app_distr in H.
      apply IH in H as (a & b & -> & -> & Hin).
      exists (c :: a), b. rewrite <- !app_assoc in *. auto.
    + injection H as <- <-. exists [], (c :: s). rewrite !app_nil_r.
      repeat split; auto. unfold at_. rewrite E. now left.
Qed.

Lemma search_found r : forall a pre b st,
  In st (run r (at_ (pre ++ a) b)) ->
  exists m, search r (rev pre) (a ++ b) = Some m.
Proof.
  induction a as [|c a IH]; intros pre b st Hin.
  - rewrite app_nil_r in Hin. simpl.
    destruct b; simpl; unfold at_ in Hin;
      destruct (run r _) as [|x l]; try destruct Hin; eauto.
  - simpl. destruct (run r (MState (rev pre) (c :: a ++ b) None)); eauto.
    change (c :: rev pre) with (rev [c] ++ rev pre).
    rewrite <- rev_app_distr. apply (IH _ _ st).
    now rewrite <- app_assoc.
Qed.

Lemma test_intro r pre b st :
  In st (run r (at_ pre b)) -> test r (pre ++ b) = true.
Proof.
  intros Hin. unfold test, exec.
  destruct (search_found r pre [] b st) as [m Hm]; [now rewrite app_nil_l|].
  simpl in Hm. now rewrite Hm.
Qed.

(** A match is a span somewhere in the string. *)
Lemma test_span r pre w post :
  span r pre w post -> test r (pre ++ w ++ post) = true.
Proof. apply test_intro. Qed.

Lemma test_inv r s : plain r = true -> test r s = true ->
  exists pre w post, s = pre ++ w ++ post /\ span r pre w post.
Proof.
  unfold test, exec. intros Hp H.
  destruct (search r [] s) as [[st0 st]|] eqn:E; [|discriminate].
  change (@nil N) with (rev (@nil N)) in E.
  apply search_some in E as (a & b & -> & _ & Hin). simpl in Hin.
  apply run_span in Hin as (w & post & -> & _ & Hs); eauto.
Qed.

Lemma test_iff r s : plain r = true ->
  test r s = true <->
  exists pre w post, s = pre ++ w ++ post /\ span r pre w post.
Proof.
  intros Hp. split; [now apply test_inv|].
  intros (pre & w & post & -> & H). now apply test_span.
Qed.

End RegexFacts.

(** ** Spans of the pattern constructors *)

Module SpanFacts.
Import RegexFacts.

Lemma at_inj pre w w' post post' :
  at_ (pre ++ w) post = at_ (pre ++ w') post' -> w = w' /\ post = post'.
Proof.
  unfold at_. intros [= H1 H2]. split; auto.
  apply (f_equal (@rev N)) in H1. rewrite !rev_involutive in H1.
  now apply app_inv_head in H1.
Qed.

Lemma span_eps pre post : span Eps pre [] post.
Proof. unfold span. simpl. rewrite app_nil_r. now left. Qed.

Lemma span_cls p pre c post : p c = true -> span (Cls p) pre [c] post.
Proof. unfold span. simpl. intros ->. left. apply at_snoc. Qed.

Lemma span_cls_inv p pre w post :
  span (Cls p) pre w post -> exists c, w = [c] /\ p c = true.
Proof.
  unfold span. intros H. apply run_at in H as Hw; auto.
  simpl in H. destruct (w ++ post) as [|c s] eqn:E; [destruct H|].
  destruct (p c) eqn:Hc; [|destruct H]. destruct H as [H|[]].
  rewrite at_snoc in H. apply at_inj in H as [<- _]. eauto.
Qed.

Lemma span_seq a b pre w1 w2 post :
  span a pre w1 (w2 ++ post) -> span b (pre ++ w1) w2 post ->
  span (Seq a b) pre (w1 ++ w2) post.
Proof.
  unfold span. intros Ha Hb. simpl. apply in_flat_map.
  exists (at_ (pre ++ w1) (w2 ++ post)). rewrite <- app_assoc. split; auto.
  now rewrite app_assoc.
Qed.

Lemma span_seq_inv a b pre w post :
  plain a = true -> plain b = true -> span (Seq a b) pre w post ->
  exists w1 w2, w = w1 ++ w2 /\ span a pre w1 (w2 ++ post) /\
    span b (pre ++ w1) w2 post.
Proof.
  unfold span. intros Pa Pb H. simpl in H.
  apply in_flat_map in H as (m & Hm & H).
  destruct (run_at a Pa _ _ _ Hm) as (w1 & p1 & E1 & ->).
  destruct (run_at b Pb _ _ _ H) as (w2 & p2 & -> & E2).
  rewrite <- app_assoc in E2. apply at_inj in E2 as [-> ->].
  exists w1, w2. repeat split; auto.
  - now rewrite <- E1.
  - now rewrite <- app_assoc.
Qed.

Lemma span_alt a b pre w post :
  span (Alt a b) pre w post <-> span a pre w post \/ span b pre w post.
Proof. unfold span. simpl. apply in_app_iff. Qed.

Lemma span_rep g lo hi p pre w post :
  span (Rep g lo hi p) pre w post <->
  forallb p w = true /\ (lo <= List.length w)%nat /\
  match hi with Some h => (List.length w <= h)%nat | None => True end.
Proof.
  unfold span. simpl. rewrite reps_at. split.
  - intros (w' & post' & E & Hw & Hlen & H).
    apply at_inj in H as [<- <-]. repeat split; auto; try lia.
    destruct hi; auto; lia.
  - intros (Hw & Hlo & Hhi). exists w, post. repeat split; auto.
    destruct hi; auto. rewrite length_app. lia.
Qed.

Lemma span_wordb pre w post :
  span WordB pre w post <->
  w = [] /\ xorb (word_at (before_cu pre)) (word_at (after_cu post)) = true.
Proof.
  unfold span, before_cu, after_cu. split.
  - intros H. apply run_at in H as Hw; auto.
    destruct Hw as (w' & p' & E & Hw). apply at_inj in Hw as [<- <-].
    simpl in H. destruct (xorb _ _) eqn:X; [|destruct H].
    destruct H as [H|[]]. rewrite <- (app_nil_r pre) in H at 1.
    apply at_inj in H as [<- _]. auto.
  - intros [-> X]. simpl. rewrite X, app_nil_r. now left.
Qed.

Lemma span_eol pre w post : span Eol pre w post <-> w = [] /\ post = [].
Proof.
  unfold span. split.
  - intros H. simpl in H. destruct (w ++ post) eqn:E; [|destruct H].
    apply app_eq_nil in E as [-> ->]. auto.
  - intros [-> ->]. simpl. rewrite app_nil_r. now left.
Qed.

Lemma span_bol pre w post : span Bol pre w post <-> w = [] /\ pre = [].
Proof.
  unfold span. split.
  - intros H. simpl in H. destruct (rev pre) eqn:E; [|destruct H].
    destruct H as [H|[]]. unfold at_ in H. injection H as H1 H2.
    apply (f_equal (@rev N)) in E. rewrite rev_involutive in E. simpl in E.
    subst pre. simpl in H1. apply (f_equal (@rev N)) in H1.
    rewrite rev_involutive in H1. simpl in H1. auto.
  - intros [-> ->]. simpl. now left.
Qed.

(** *** Literals *)

Lemma plain_seq_of f u : (forall c, plain (f c) = true) ->
  plain (seq_of f u) = true.
Proof.
  intros Hf. induction u as [|c u IH]; auto.
  destruct u as [|c' u]; [apply Hf|].
  change (plain (f c) && plain (seq_of f (c' :: u)) = true).
  now rewrite Hf, IH.
Qed.

Section Literal.
Variable P : N -> N -> bool.

Lemma span_seq_of u : forall pre w post,
  span (seq_of (fun c => Cls (P c)) u) pre w post <-> reads P u w.
Proof.
  induction u as [|c u IH]; intros pre w post.
  - simpl. split.
    + intros H. apply run_at in H as Hw; auto.
      destruct Hw as (w' & p' & E & Hw). apply at_inj in Hw as [<- <-].
      unfold span in H. simpl in H. destruct H as [H|[]].
      rewrite <- (app_nil_r pre) in H at 1. apply at_inj in H as [<- _].
      constructor.
    + intros H. inversion H. apply span_eps.
  - assert (Hc : forall pre w post,
      span (Seq (Cls (P c)) (seq_of (fun c => Cls (P c)) u)) pre w post <->
      reads P (c :: u) w).
    { clear pre w post. intros pre w post. split.
      - intros H. apply span_seq_inv in H as (w1 & w2 & -> & H1 & H2); auto.
        + apply span_cls_inv in H1 as (x & -> & Hx).
          constructor; auto. now apply IH in H2.
        + now apply plain_seq_of.
      - intros H. inversion H as [|? x ? w' Hx Hw]; subst.
        change (x :: w') with ([x] ++ w'). apply span_seq.
        + now apply span_cls.
        + now apply IH. }
    destruct u as [|c' u]; [|apply Hc].
    simpl. split.
    + intros H. apply span_cls_inv in H as (x & -> & Hx).
      repeat constructor; auto.
    + intros H. inversion H as [|? x ? w' Hx Hw]; subst. inversion Hw; subst.
      now apply span_cls.
Qed.

End Literal.

Lemma reads_eqb u w : reads N.eqb u w <-> w = u.
Proof.
  split.
  - induction 1 as [|c x u w H _ IH]; auto.
    apply N.eqb_eq in H. congruence.
  - intros ->. induction u; constructor; auto. apply N.eqb_refl.
Qed.

Lemma reads_ci u w :
  reads (fun c x => canon x =? canon c) u w <-> same_ci u w.
Proof.
  unfold same_ci. split.
  - induction 1 as [|c x u w H _ IH]; auto.
    apply N.eqb_eq in H. simpl. congruence.
  - revert w. induction u as [|c u IH]; intros [|x w] H; try discriminate;
      constructor; simpl in H.
    + apply N.eqb_eq. congruence.
    + apply IH. congruence.
Qed.

Lemma span_lit s pre w post : span (lit s) pre w post <-> w = u16 s.
Proof. unfold lit, chr. now rewrite (span_seq_of N.eqb), reads_eqb. Qed.

Lemma span_liti s pre w post :
  span (liti s) pre w post <-> same_ci (u16 s) w.
Proof.
  unfold liti, chri.
  now rewrite (span_seq_of (fun c x => canon x =? canon c)), reads_ci.
Qed.

Lemma plain_lit s : plain (lit s) = true.
Proof. now apply plain_seq_of. Qed.

Lemma plain_liti s : plain (liti s) = true.
Proof. now apply plain_seq_of. Qed.

(** A pattern that is one literal: [test] is a search for it. *)
Lemma test_lit s t :
  test (lit s) t = true <-> exists pre post, t = pre ++ u16 s ++ post.
Proof.
  rewrite test_iff by apply plain_lit. split.
  - intros (pre & w & post & -> & H). apply span_lit in H as ->. eauto.
  - intros (pre & post & ->). exists pre, (u16 s), post.
    split; auto. now apply span_lit.
Qed.

Lemma test_liti s t :
  test (liti s) t = true <->
  exists pre w post, t = pre ++ w ++ post /\ same_ci (u16 s) w.
Proof.
  rewrite test_iff by apply plain_liti. split.
  - intros (pre & w & post & -> & H). apply span_liti in H. eauto 6.
  - intros (pre & w & post & -> & H). exists pre, w, post.
    split; auto. now apply span_liti.
Qed.

Lemma test_alt a b t : plain a = true -> plain b = true ->
  test (Alt a b) t = true <-> test a t = true \/ test b t = true.
Proof.
  intros Pa Pb. rewrite !test_iff; auto; [|simpl; now rewrite Pa, Pb].
  split.
  - intros (pre & w & post & -> & H). apply span_alt in H as [H|H];
      [left|right]; eauto 6.
  - intros [(pre & w & post & -> & H)|(pre & w & post & -> & H)];
      exists pre, w, post; split; auto; apply span_alt; auto.
Qed.

End SpanFacts.

(** ** Strings *)

Module StringFacts.

Lemma starts_with_iff w : forall s,
  starts_with w s = true <-> exists post, s = w ++ post.
Proof.
  induction w as [|a w IH]; intros s; simpl.
  - split; eauto.
  - destruct s as [|b s].
    + split; [discriminate|]. intros (post & H). discriminate.
    + rewrite andb_true_iff, N.eqb_eq, IH. split.
      * intros [-> (post & ->)]. eauto.
      * intros (post & [= -> ->]). eauto.
Qed.

(** [includes] is the search for a substring. *)
Lemma includes_iff w : forall s,
  includes w s = true <-> exists pre post, s = pre ++ w ++ post.
Proof.
  induction s as [|c s IH].
  - simpl. rewrite orb_false_r, starts_with_iff. split.
    + intros (post & ->). exists [], post. reflexivity.
    + intros (pre & post & H). destruct pre; [eauto|discriminate].
  - cbn [includes]. rewrite orb_true_iff, starts_with_iff, IH. split.
    + intros [(post & ->)|(pre & post & ->)].
      * exists [], post. reflexivity.
      * exists (c :: pre), post. reflexivity.
    + intros (pre & post & H). destruct pre as [|c' pre].
      * left. eauto.
      * right. injection H as -> ->. eauto.
Qed.

Lemma trim_start_suffix s : exists l, s = l ++ trim_start s.
Proof.
  induction s as [|c s [l IH]]; simpl.
  - exists []. reflexivity.
  - destruct (is_space c).
    + exists (c :: l). simpl. congruence.
    + exists []. reflexivity.
Qed.

(** What [trim] returns lies inside its argument. *)
Lemma trim_inside s : exists l t, s = l ++ trim s ++ t.
Proof.
  unfold trim, trim_end.
  destruct (trim_start_suffix s) as [l Hl].
  destruct (trim_start_suffix (rev (trim_start s))) as [t Ht].
  exists l, (rev t). rewrite <- rev_app_distr, <- Ht, rev_involutive.
  exact Hl.
Qed.

Section Collapse.
Variable cls : N -> bool.
Hypothesis cls_space : cls 32 = true.

(** Whatever follows some output of the replacement comes from a suffix
    of the input. *)
Lemma collapse_suffix u : forall s f v,
  collapse_runs cls f s = u ++ v ->
  exists s1 s2 f', s = s1 ++ s2 /\ collapse_runs cls f' s2 = v.
Proof.
  induction u as [|x u IH]; intros s f v H.
  - exists [], s, f. auto.
  - revert f H. induction s as [|c s IHs]; intros f H; [discriminate|].
    simpl in H. destruct (cls c) eqn:Hc; [destruct f|].
    + apply IHs in H as (s1 & s2 & f' & -> & H). exists (c :: s1), s2, f'. auto.
    + injection H as _ H. apply IH in H as (s1 & s2 & f' & -> & H).
      exists (c :: s1), s2, f'. auto.
    + injection H as _ H. apply IH in H as (s1 & s2 & f' & -> & H).
      exists (c :: s1), s2, f'. auto.
Qed.

(** A code unit outside the class comes out as it is, after what is left
    of a run. *)
Lemma collapse_head a v : cls a = false -> forall s f,
  collapse_runs cls f s = a :: v ->
  exists sk s', s = sk ++ a :: s' /\ forallb cls sk = true /\
    collapse_runs cls false s' = v.
Proof.
  intros Ha. induction s as [|c s IH]; intros f H; [discriminate|].
  simpl in H. destruct (cls c) eqn:Hc; [destruct f|].
  - apply IH in H as (sk & s' & -> & Hsk & H).
    exists (c :: sk), s'. simpl. rewrite Hc, Hsk. auto.
  - injection H as <- _. congruence.
  - injection H as -> H. exists [], s. auto.
Qed.

(** A word outside the class comes out as it is. *)
Lemma collapse_word A : forallb (fun c => negb (cls c)) A = true ->
  forall s v, collapse_runs cls false s = A ++ v ->
  exists s', s = A ++ s' /\ collapse_runs cls false s' = v.
Proof.
  induction A as [|a A IH]; intros HA s v H.
  - exists s. auto.
  - simpl in HA. apply andb_true_iff in HA as [Ha HA].
    apply negb_true_iff in Ha.
    destruct s as [|c s]; [discriminate|]. simpl in H.
    destruct (cls c) eqn:Hc.
    + injection H as <- _. congruence.
    + injection H as -> H. apply IH in H as (s' & -> & H); auto.
      exists s'. auto.
Qed.

(** A space before a code unit outside the class comes from a run. *)
Lemma collapse_gap b v s : cls b = false ->
  collapse_runs cls false s = 32 :: b :: v ->
  exists ws s', s = ws ++ b :: s' /\ ws <> [] /\ forallb cls ws = true /\
    collapse_runs cls false s' = v.
Proof.
  intros Hb H. destruct s as [|c s]; [discriminate|]. simpl in H.
  destruct (cls c) eqn:Hc.
  - injection H as H. apply collapse_head in H as (sk & s' & -> & Hsk & H);
      auto.
    exists (c :: sk), s'. simpl. rewrite Hc, Hsk.
    repeat split; auto; discriminate.
  - injection H as -> _. congruence.
Qed.

End Collapse.

End StringFacts.

(** ** Label classification *)

Module LabelFacts.
Import RegexFacts SpanFacts StringFacts.

Lemma span_ws_plus pre ws post : ws <> [] -> forallb is_space ws = true ->
  span (plus is_space) pre ws post.
Proof.
  intros Hne Hws. apply span_rep. repeat split; auto.
  destruct ws; [contradiction|simpl; lia].
Qed.

(** The words of the phrase, with white space between them, in a lower-cased
    label. *)
Lemma prohibited_phrase L :
  includes (u16 "prohibited sales addendum") (trim (collapse_ws L)) = true ->
  exists pre ws1 ws2 post,
    L = pre ++ u16 "prohibited" ++ ws1 ++ u16 "sales" ++ ws2 ++
          u16 "addendum" ++ post /\
    ws1 <> [] /\ forallb is_space ws1 = true /\
    ws2 <> [] /\ forallb is_space ws2 = true.
Proof.
  intros H. apply includes_iff in H as (p0 & q0 & H).
  destruct (trim_inside (collapse_ws L)) as (l & t & E).
  rewrite H in E. unfold collapse_ws in E.
  replace (l ++ (p0 ++ u16 "prohibited sales addendum" ++ q0) ++ t)
    with ((l ++ p0) ++ u16 "prohibited sales addendum" ++ (q0 ++ t)) in E
    by now rewrite <- !app_assoc.
  apply (collapse_suffix is_space) in E as (s1 & s2 & f & -> & E).
  change (u16 "prohibited sales addendum" ++ q0 ++ t)
    with (112 :: (u16 "rohibited" ++ 32 :: 115 :: u16 "ales" ++
                  32 :: 97 :: u16 "ddendum" ++ q0 ++ t)) in E.
  apply (collapse_head is_space) in E as (sk & s3 & -> & Hsk & E);
    [|reflexivity|reflexivity].
  apply (collapse_word is_space) in E as (s4 & -> & E);
    [|reflexivity|reflexivity].
  apply (collapse_gap is_space) in E as (ws1 & s5 & -> & N1 & W1 & E);
    [|reflexivity|reflexivity].
  apply (collapse_word is_space) in E as (s6 & -> & E);
    [|reflexivity|reflexivity].
  apply (collapse_gap is_space) in E as (ws2 & s7 & -> & N2 & W2 & E);
    [|reflexivity|reflexivity].
  apply (collapse_word is_space) in E as (s8 & -> & E);
    [|reflexivity|reflexivity].
  exists (s1 ++ sk), ws1, ws2, s8. repeat split; auto.
  rewrite <- !app_assoc. reflexivity.
Qed.

Lemma prohibited_matches L :
  includes (u16 "prohibited sales addendum") (trim (collapse_ws L)) = true ->
  test RE_PROHIBITED L = true.
Proof.
  intros H.
  apply prohibited_phrase in H
    as (pre & ws1 & ws2 & post & -> & N1 & W1 & N2 & W2).
  replace (pre ++ u16 "prohibited" ++ ws1 ++ u16 "sales" ++ ws2 ++
             u16 "addendum" ++ post)
    with (pre ++ (u16 "prohibited" ++ ws1 ++ u16 "sales" ++ ws2 ++
                    u16 "addendum") ++ post)
    by now rewrite <- !app_assoc.
  apply test_span. unfold RE_PROHIBITED. cbn [seqs].
  repeat apply span_seq; try (now apply span_lit); now apply span_ws_plus.
Qed.

(** C1.  A label whose lower-cased text, with its runs of white space
    collapsed and trimmed, contains "prohibited sales addendum" is
    classified [prohibited], hence neither [paa] nor [generic], although it
    contains "addendum"; it is not a purchase agreement addendum label
    either.  "Purchase Agreement Addendum" and "Addendum to Purchase
    Agreement" are classified [paa]. *)
Theorem labelType_first_match_wins :
  (forall label,
     includes (u16 "prohibited sales addendum") (norm_label label) = true ->
     labelType label = prohibited /\
     labelType label <> paa /\ labelType label <> generic /\
     isPurchaseAgreementAddendumLabel label = false) /\
  labelType (u16 "Purchase Agreement Addendum") = paa /\
  labelType (u16 "Addendum to Purchase Agreement") = paa.
Proof.
  split; [|split; vm_compute; reflexivity].
  intros label H.
  assert (Hp : labelType label = prohibited).
  { unfold labelType. now rewrite (prohibited_matches _ H). }
  rewrite Hp. repeat split; try discriminate.
  assert (Hn : test RE_PROHIBITED (norm_label label) = true).
  { apply includes_iff in H as (pre & post & ->).
    rewrite (test_iff RE_PROHIBITED) by reflexivity.
    exists pre, (u16 "prohibited sales addendum"), post. split; auto.
    change (u16 "prohibited sales addendum")
      with (u16 "prohibited" ++ [32] ++ u16 "sales" ++ [32] ++ u16 "addendum").
    unfold RE_PROHIBITED. cbn [seqs].
    repeat apply span_seq; try (now apply span_lit);
      now apply span_ws_plus. }
  unfold isPurchaseAgreementAddendumLabel. cbv zeta.
  destruct (norm_label label); auto. now rewrite Hn.
Qed.

Lemma labelType_first_match_wins_witness :
  includes (u16 "prohibited sales addendum")
    (norm_label (u16 "  PROHIBITED   Sales Addendum (rev. 2)")) = true /\
  labelType (u16 "  PROHIBITED   Sales Addendum (rev. 2)") = prohibited.
Proof.
  split; [vm_compute; reflexivity|].
  apply (proj1 labelType_first_match_wins). vm_compute. reflexivity.
Defined.

End LabelFacts.

(** ** The artifact-type predicate *)

Module UrlFacts.
Import RegexFacts SpanFacts StringFacts.

Lemma pdf_ext_iff s : test PDF_EXT_RE s = true <-> pdf_extension s.
Proof.
  unfold PDF_EXT_RE, pdf_extension.
  rewrite test_iff by reflexivity. split.
  - intros (pre & w & post & -> & H).
    apply span_seq_inv in H as (w1 & w2 & -> & H1 & H2); try reflexivity.
    apply span_liti in H1. apply span_alt in H2 as [H2|H2].
    + apply span_cls_inv in H2 as (c & -> & Hc). apply N.eqb_eq in Hc as <-.
      exists pre, w1, (63 :: post). rewrite <- app_assoc. eauto.
    + apply span_eol in H2 as [-> ->]. exists pre, w1, [].
      rewrite !app_nil_r. auto.
  - intros (pre & w & post & -> & Hw & [->|(post' & ->)]).
    + exists pre, (w ++ []), []. rewrite !app_nil_r. split; auto.
      rewrite <- (app_nil_r w) at 1. apply span_seq.
      * now apply span_liti.
      * apply span_alt. right. now apply span_eol.
    + exists pre, (w ++ [63]), post'. rewrite <- !app_assoc. split; auto.
      apply span_seq.
      * now apply span_liti.
      * apply span_alt. left. now apply span_cls.
Qed.

Lemma imgix_iff s : test IMGIX_RE s = true <-> document_host s.
Proof. apply test_liti. Qed.

(** The two tests of [isPdfUrl] on a string. *)
Lemma typed_iff s :
  (if test PDF_EXT_RE s then true else if test IMGIX_RE s then true else false)
  = true <-> artifact_typed s.
Proof.
  unfold artifact_typed. rewrite <- pdf_ext_iff, <- imgix_iff.
  destruct (test PDF_EXT_RE s); [tauto|].
  destruct (test IMGIX_RE s); [tauto|].
  split; [discriminate|]. intros [H|H]; discriminate.
Qed.

Lemma isPdfUrlS_iff s : isPdfUrlS s = true <-> artifact_typed s.
Proof.
  rewrite <- typed_iff. unfold isPdfUrlS, isPdfUrl. destruct s as [|c s].
  - simpl. split; discriminate.
  - reflexivity.
Qed.

End UrlFacts.

(** ** Text classification *)

Module DetectFacts.
Import RegexFacts SpanFacts StringFacts.

Lemma span_seq_nil_l a b pre w post :
  span a pre [] (w ++ post) -> span b pre w post -> span (Seq a b) pre w post.
Proof.
  intros Ha Hb. change w with ([] ++ w). apply span_seq; auto.
  now rewrite app_nil_r.
Qed.

Lemma span_seq_nil_r a b pre w post :
  span a pre w post -> span b (pre ++ w) [] post -> span (Seq a b) pre w post.
Proof.
  intros Ha Hb. rewrite <- (app_nil_r w). apply span_seq; auto.
Qed.

Lemma before_cu_snoc pre c : before_cu (pre ++ [c]) = Some c.
Proof. unfold before_cu. now rewrite rev_app_distr. Qed.

Lemma before_cu_app pre w c : before_cu (pre ++ w ++ [c]) = Some c.
Proof. now rewrite app_assoc, before_cu_snoc. Qed.

(** A whole word is matched between two word boundaries. *)
Lemma whole_word_first s t c w c' :
  u16 s = c :: w ++ [c'] -> is_word c = true -> is_word c' = true ->
  whole_word (u16 s) t -> test (seqs [WordB; lit s; WordB]) t = true.
Proof.
  intros Es Hc Hc' (pre & post & -> & Hb & Ha).
  apply test_span. cbn [seqs]. apply span_seq_nil_l.
  - apply span_wordb. split; auto. rewrite Hb, Es. simpl. now rewrite Hc.
  - apply span_seq_nil_r; [now apply span_lit|].
    apply span_wordb. split; auto. rewrite Es, Ha.
    change (c :: w ++ [c']) with ((c :: w) ++ [c']).
    rewrite before_cu_app. simpl. now rewrite Hc'.
Qed.

Lemma cwcot_whole_word t :
  whole_word (u16 "cwcot") t -> test RE_CWCOT t = true.
Proof. now apply (whole_word_first "cwcot" t 99 (u16 "wco") 116). Qed.

Lemma second_chance_whole_word t :
  whole_word (u16 "second chance") t -> test RE_SECOND_CHANCE t = true.
Proof.
  intros (pre & post & -> & Hb & Ha).
  apply test_span. unfold RE_SECOND_CHANCE. cbn [seqs].
  apply span_seq_nil_l.
  { apply span_wordb. split; auto. now rewrite Hb. }
  change (u16 "second chance")
    with (u16 "second" ++ [32] ++ [] ++ [] ++ u16 "chance").
  apply span_seq; [now apply span_lit|].
  apply span_seq; [apply span_rep; repeat split; simpl; auto|].
  apply span_seq; [apply span_rep; repeat split; simpl; auto|].
  apply span_seq; [apply span_rep; repeat split; simpl; auto|].
  apply span_seq_nil_r; [now apply span_lit|].
  apply span_wordb. split; auto. rewrite Ha.
  change (u16 "chance") with (u16 "chanc" ++ [101]).
  rewrite !app_assoc, before_cu_snoc. reflexivity.
Qed.

Lemma rule_hits_complete t r :
  In r RULES -> test (rule_re r) t = true -> In (rule_k r) (rule_hits t).
Proof.
  intros Hr Ht. unfold rule_hits. apply in_map, filter_In. auto.
Qed.

Lemma rule_hits_sound t k :
  In k (rule_hits t) ->
  exists r, In r RULES /\ rule_k r = k /\ test (rule_re r) t = true.
Proof.
  unfold rule_hits. intros H. apply in_map_iff in H as (r & <- & H).
  apply filter_In in H as [H1 H2]. eauto.
Qed.

Lemma hits_cases raw fn :
  hits (detectCWCOTInText raw fn) = rule_hits (toLowerCase (normText raw)) \/
  hits (detectCWCOTInText raw fn) =
    rule_hits (toLowerCase (normText raw)) ++ ["filename:CWCOT"%string].
Proof.
  unfold detectCWCOTInText. cbn [hits].
  destruct fn; auto. destruct (test RE_FILENAME _); auto.
Qed.

(** The text of the counterexample of C6. *)
Lemma embedded_keyword_one_hit :
  hits (detectCWCOTInText (u16 "xCWCOTx second chance") []) =
    ["Second Chance"%string].
Proof. vm_compute. reflexivity. Qed.

(** C6, as stated, fails: "xCWCOTx second chance" contains both "CWCOT"
    and "second chance", and one rule only matches it, because the keyword
    rule asks for word boundaries around "cwcot". *)
Lemma contains_both_but_one_hit :
  includes (u16 "CWCOT") (u16 "xCWCOTx second chance") = true /\
  includes (u16 "second chance") (u16 "xCWCOTx second chance") = true /\
  ~ (2 <= List.length
            (hits (detectCWCOTInText (u16 "xCWCOTx second chance") [])))%nat.
Proof.
  split; [reflexivity|]. split; [reflexivity|].
  rewrite embedded_keyword_one_hit. simpl. lia.
Qed.

(** C6, amended.  Every rule whose pattern matches the normalized,
    lower-cased text is recorded, whatever else matches, and nothing is
    recorded that did not match, the file-name entry apart; [isCWCOT] holds
    exactly when some entry is recorded; and a text whose normalized,
    lower-cased form holds "cwcot" and "second chance", each as a whole
    word, gets at least two entries and [isCWCOT]. *)
Theorem detect_is_union_of_rules : forall rawText filename,
  let d := detectCWCOTInText rawText filename in
  let t := toLowerCase (normText rawText) in
  (forall r, In r RULES -> test (rule_re r) t = true ->
             In (rule_k r) (hits d)) /\
  (forall k, In k (hits d) ->
     k = "filename:CWCOT"%string \/
     exists r, In r RULES /\ rule_k r = k /\ test (rule_re r) t = true) /\
  (isCWCOT d = true <-> hits d <> []) /\
  (whole_word (u16 "cwcot") t -> whole_word (u16 "second chance") t ->
   (2 <= List.length (hits d))%nat /\ isCWCOT d = true).
Proof.
  intros raw fn d t.
  assert (Hm : isCWCOT d = true <-> hits d <> []).
  { unfold d, detectCWCOTInText. cbn [isCWCOT hits].
    match goal with |- context [Nat.eqb (List.length ?l) 0] =>
      destruct l; simpl; split; auto; try discriminate; congruence end. }
  split; [|split; [|split; [exact Hm|]]].
  - intros r Hr Ht. pose proof (rule_hits_complete t r Hr Ht) as H.
    destruct (hits_cases raw fn) as [E|E]; fold d t in E; rewrite E; auto.
    apply in_app_iff. auto.
  - intros k Hk.
    destruct (hits_cases raw fn) as [E|E]; fold d t in E; rewrite E in Hk.
    + right. now apply rule_hits_sound.
    + apply in_app_iff in Hk as [Hk|[<-|[]]]; auto.
      right. now apply rule_hits_sound.
  - intros H1 H2.
    apply cwcot_whole_word in H1. apply second_chance_whole_word in H2.
    assert (Hlen : (2 <= List.length (rule_hits t))%nat).
    { unfold rule_hits, RULES. cbn [List.filter rule_re]. rewrite H1, H2.
      destruct (test RE_SPELLED t), (test RE_TITLE t),
        (test RE_POST_FORECLOSURE t); simpl; lia. }
    assert (Hd : (2 <= List.length (hits d))%nat).
    { destruct (hits_cases raw fn) as [E|E]; fold d t in E; rewrite E; auto.
      rewrite length_app. lia. }
    split; auto. apply Hm. destruct (hits d); simpl in Hd; [lia|discriminate].
Qed.

Lemma detect_is_union_of_rules_witness :
  whole_word (u16 "cwcot") (toLowerCase (normText (u16 "CWCOT second chance")))
  /\ whole_word (u16 "second chance")
       (toLowerCase (normText (u16 "CWCOT second chance")))
  /\ (2 <= List.length
            (hits (detectCWCOTInText (u16 "CWCOT second chance") [])))%nat.
Proof.
  assert (H1 : whole_word (u16 "cwcot")
                 (toLowerCase (normText (u16 "CWCOT second chance")))).
  { exists [], (u16 " second chance"). repeat split. }
  assert (H2 : whole_word (u16 "second chance")
                 (toLowerCase (normText (u16 "CWCOT second chance")))).
  { exists (u16 "cwcot "), []. repeat split. }
  split; [exact H1|]. split; [exact H2|].
  exact (proj1 (proj2 (proj2 (proj2
           (detect_is_union_of_rules (u16 "CWCOT second chance") [])))
           H1 H2)).
Defined.

End DetectFacts.

(** ** The revision tag *)

Module RevisionFacts.
Import RegexFacts SpanFacts StringFacts DetectFacts.

(** What a pattern that ends in its group leads to. *)
Lemma run_tailgrp r : tailgrp r = true -> forall pre s st',
  In st' (run r (at_ pre s)) ->
  exists w g post, s = w ++ post /\
    st' = MState (rev (pre ++ w)) post (Some g).
Proof.
  induction r; intros Hr pre s st' Hin; simpl in Hr; try discriminate.
  - apply andb_true_iff in Hr as [Ha Hb]. simpl in Hin.
    apply in_flat_map in Hin as (m & Hm & Hin).
    apply (run_at _ Ha) in Hm as (w1 & p1 & -> & ->).
    apply (IHr2 Hb) in Hin as (w2 & g & p2 & -> & ->).
    exists (w1 ++ w2), g, p2. now rewrite !app_assoc.
  - simpl in Hin. apply in_map_iff in Hin as (m & <- & Hm).
    apply (run_at _ Hr) in Hm as (w & post & -> & ->).
    exists w. eexists. exists post. split; reflexivity.
Qed.

Lemma cspan_grp b pre w g post : plain b = true ->
  cspan (Grp b) pre w g post <-> g = w /\ span b pre w post.
Proof.
  intros Hb. unfold cspan, span. simpl. rewrite in_map_iff.
  assert (Hcap : forall w', rev (firstn
      (List.length (rev (pre ++ w')) - List.length (rev pre))
      (rev (pre ++ w'))) = w').
  { intros w'. rewrite rev_app_distr, length_app.
    replace (List.length (rev w') + List.length (rev pre)
             - List.length (rev pre))%nat with (List.length (rev w')) by lia.
    rewrite firstn_app, Nat.sub_diag, firstn_all. simpl.
    rewrite app_nil_r. apply rev_involutive. }
  split.
  - intros (m & E & Hm).
    destruct (run_at _ Hb _ _ _ Hm) as (w' & p' & E' & ->).
    simpl in E. rewrite Hcap in E. injection E as E1 -> ->.
    apply (f_equal (@rev N)) in E1. rewrite !rev_involutive in E1.
    apply app_inv_head in E1 as ->. auto.
  - intros [-> H]. exists (at_ (pre ++ w) post). split; auto.
    simpl. now rewrite Hcap.
Qed.

Lemma cspan_seq a r pre w1 w2 g post :
  span a pre w1 (w2 ++ post) -> cspan r (pre ++ w1) w2 g post ->
  cspan (Seq a r) pre (w1 ++ w2) g post.
Proof.
  unfold span, cspan. intros Ha Hr. simpl. apply in_flat_map.
  exists (at_ (pre ++ w1) (w2 ++ post)). rewrite <- app_assoc. split; auto.
  now rewrite app_assoc.
Qed.

Lemma cspan_seq_inv a r pre w g post :
  plain a = true -> tailgrp r = true -> cspan (Seq a r) pre w g post ->
  exists w1 w2, w = w1 ++ w2 /\ span a pre w1 (w2 ++ post) /\
    cspan r (pre ++ w1) w2 g post.
Proof.
  unfold span, cspan. intros Pa Pr H. simpl in H.
  apply in_flat_map in H as (m & Hm & H).
  destruct (run_at a Pa _ _ _ Hm) as (w1 & p1 & E1 & ->).
  destruct (run_tailgrp r Pr _ _ _ H) as (w2 & g' & p2 & -> & E2).
  injection E2 as E2 -> ->.
  apply (f_equal (@rev N)) in E2. rewrite !rev_involutive in E2.
  rewrite <- app_assoc in E2. apply app_inv_head in E2 as ->.
  exists w1, w2. repeat split; auto.
  - now rewrite <- E1.
  - now rewrite <- app_assoc.
Qed.

(** *** The pattern of the tag *)

Lemma span_digits lo hi pre d post :
  span (Rep true lo (Some hi) is_digit) pre d post <-> digits lo hi d.
Proof. rewrite span_rep. unfold digits. tauto. Qed.

Lemma span_dot pre w post : span (chr 46) pre w post <-> w = [46].
Proof.
  split.
  - intros H. apply span_cls_inv in H as (c & -> & Hc).
    apply N.eqb_eq in Hc as <-. reflexivity.
  - intros ->. now apply span_cls.
Qed.

Lemma span_rev_tag pre g post : span RE_REV_TAG pre g post <-> rev_tag g.
Proof.
  unfold RE_REV_TAG, rev_tag. cbn [seqs]. split.
  - intros H.
    apply span_seq_inv in H as (d1 & x & -> & H1 & H); try reflexivity.
    apply span_seq_inv in H as (p1 & x' & -> & H2 & H); try reflexivity.
    apply span_seq_inv in H as (d2 & x & -> & H3 & H); try reflexivity.
    apply span_seq_inv in H as (p2 & d3 & -> & H4 & H5); try reflexivity.
    apply span_dot in H2 as ->. apply span_dot in H4 as ->.
    apply span_digits in H1, H3, H5. exists d1, d2, d3. auto.
  - intros (d1 & d2 & d3 & -> & H1 & H2 & H3).
    repeat apply span_seq; try (now apply span_dot); now apply span_digits.
Qed.

(** The matches of [RE_REV] at a position. *)
Lemma cspan_rev pre w g post :
  cspan RE_REV pre w g post <->
  exists dot ws, w = u16 "rev" ++ dot ++ ws ++ g /\
    (dot = [] \/ dot = [46]) /\ forallb is_space ws = true /\ rev_tag g.
Proof.
  unfold RE_REV. cbn [seqs]. split.
  - intros H.
    apply cspan_seq_inv in H as (r & x & -> & H1 & H); try reflexivity.
    apply cspan_seq_inv in H as (dot & x' & -> & H2 & H); try reflexivity.
    apply cspan_seq_inv in H as (ws & x & -> & H3 & H); try reflexivity.
    apply cspan_grp in H as [-> H4]; try reflexivity.
    apply span_lit in H1 as ->. apply span_rev_tag in H4.
    apply span_rep in H2 as (D1 & _ & D2), H3 as (W & _).
    exists dot, ws. repeat split; auto.
    destruct dot as [|c [|c' dot]]; auto; [|simpl in D2; lia].
    cbn [forallb] in D1. rewrite andb_true_r in D1.
    apply N.eqb_eq in D1 as <-. auto.
  - intros (dot & ws & -> & Hdot & Hws & Hg).
    apply cspan_seq; [now apply span_lit|].
    apply cspan_seq.
    { apply span_rep. destruct Hdot as [->| ->]; repeat split; simpl; auto. }
    apply cspan_seq; [apply span_rep; repeat split; auto; lia|].
    apply cspan_grp; [reflexivity|]. split; auto. now apply span_rev_tag.
Qed.

Lemma rev_tag_nonempty g : rev_tag g -> g <> [].
Proof.
  intros (d1 & d2 & d3 & -> & [_ H] & _). destruct d1; [simpl in H; lia|].
  discriminate.
Qed.

(** What [match] returns for [RE_REV]. *)
Lemma match1_rev t :
  match match1 RE_REV t with
  | Some g => rev_at t g
  | None => forall g, ~ rev_at t g
  end.
Proof.
  unfold match1, exec.
  destruct (search RE_REV [] t) as [[st0 st]|] eqn:E.
  - change (@nil N) with (rev (@nil N)) in E.
    apply search_some in E as (a & b & -> & _ & Hin). simpl in Hin.
    destruct (run_tailgrp RE_REV eq_refl _ _ _ Hin)
      as (w & g & post & -> & ->).
    cbn [cap1]. apply cspan_rev in Hin as (dot & ws & -> & Hd & Hw & Hg).
    exists a, dot, ws, post. rewrite <- !app_assoc. auto.
  - intros g (pre & dot & ws & post & -> & Hd & Hw & Hg).
    assert (H : cspan RE_REV pre (u16 "rev" ++ dot ++ ws ++ g) g post).
    { apply cspan_rev. exists dot, ws. auto. }
    unfold cspan in H.
    destruct (search_found RE_REV pre [] _ _ H) as (m & Hm).
    simpl in Hm. rewrite <- !app_assoc in Hm. simpl in E, Hm. congruence.
Qed.

(** *** The first match *)

(** The search stops at the first position where the pattern matches,
    with the first way the backtracking finds. *)
Lemma search_head r : forall s pre st0 st,
  search r (rev pre) s = Some (st0, st) ->
  exists a b l, s = a ++ b /\ st0 = at_ (pre ++ a) b /\
    run r (at_ (pre ++ a) b) = st :: l /\
    forall a' b', s = a' ++ b' -> (List.length a' < List.length a)%nat ->
      run r (at_ (pre ++ a') b') = [].
Proof.
  induction s as [|c s IH]; intros pre st0 st H; simpl in H.
  - destruct (run r (MState (rev pre) [] None)) as [|x l] eqn:E;
      [discriminate|]. injection H as <- <-.
    exists [], [], l. rewrite !app_nil_r. repeat split; auto.
    intros a' b' _ Hl. simpl in Hl. lia.
  - destruct (run r (MState (rev pre) (c :: s) None)) as [|x l] eqn:E.
    + change (c :: rev pre) with (rev [c] ++ rev pre) in H.
      rewrite <- rev_app_distr in H.
      apply IH in H as (a & b & l & -> & -> & Hr & Hf).
      exists (c :: a), b, l. rewrite <- !app_assoc in *.
      repeat split; auto.
      intros a' b' Ea Hl. destruct a' as [|c' a'].
      * simpl in Ea. subst b'. rewrite app_nil_r. exact E.
      * injection Ea as <- Ea. simpl in Hl.
        specialize (Hf a' b' Ea ltac:(lia)).
        now rewrite <- app_assoc in Hf.
    + injection H as <- <-. exists [], (c :: s), l. rewrite !app_nil_r.
      repeat split; auto. intros a' b' _ Hl. simpl in Hl. lia.
Qed.

Lemma run_seq a b st : run (Seq a b) st = flat_map (run b) (run a st).
Proof. reflexivity. Qed.

Lemma flat_map_head {A B} (f : A -> list B) l x l' :
  flat_map f l = x :: l' -> exists y l'', In y l /\ f y = x :: l''.
Proof.
  induction l as [|a l IH]; simpl; [discriminate|].
  destruct (f a) as [|z k] eqn:E.
  - intros H. destruct (IH H) as (y & l'' & Hy & Hf). eauto.
  - intros [= <- <-]. exists a, k. auto.
Qed.

(** The first way of a sequence is a first way of its second part. *)
Lemma run_seq_head a b st x l :
  run (Seq a b) st = x :: l ->
  exists y l', In y (run a st) /\ run b y = x :: l'.
Proof. rewrite run_seq. apply flat_map_head. Qed.

Lemma run_grp_head a st x l :
  run (Grp a) st = x :: l ->
  exists x' l', run a st = x' :: l' /\
    consumed x = consumed x' /\ rest x = rest x'.
Proof.
  simpl. destruct (run a st) as [|x' l']; [discriminate|].
  intros [= <- _]. exists x', l'. auto.
Qed.

Lemma run_cls_step p st y :
  In y (run (Cls p) st) ->
  exists c r, rest st = c :: r /\ p c = true /\ y = step st c r.
Proof.
  simpl. destruct (rest st) as [|c r]; [intros []|].
  destruct (p c) eqn:E; [|intros []]. intros [<-|[]]. eauto.
Qed.

Lemma reps_any_nonempty p hi st : reps true p 0 hi st <> [].
Proof.
  destruct hi; simpl; [discriminate|].
  intros H. apply app_eq_nil in H as [_ H]. discriminate.
Qed.

(** The first way of a greedy quantifier takes as many code units of the
    class as it can, [hi] at most. *)
Lemma reps_head p : forall hi lo st x l,
  reps true p lo hi st = x :: l ->
  exists m, consumed x = rev m ++ consumed st /\ rest st = m ++ rest x /\
    forallb p m = true /\
    (List.length m = hi \/ stops p (rest x)).
Proof.
  induction hi as [|hi IH]; intros lo st x l H.
  - simpl in H. destruct (Nat.eqb lo 0); [|discriminate].
    injection H as <- _. exists []. auto.
  - cbn [reps] in H. cbv zeta in H.
    assert (Hstay : [st] = x :: l -> stops p (rest st) ->
      exists m, consumed x = rev m ++ consumed st /\
        rest st = m ++ rest x /\ forallb p m = true /\
        (List.length m = S hi \/ stops p (rest x))).
    { intros [= <- _] Hs. exists []. auto. }
    destruct (rest st) as [|c r] eqn:Er.
    { destruct (Nat.eqb lo 0); [|discriminate]. simpl in H.
      apply Hstay; [exact H|exact I]. }
    destruct (p c) eqn:Hc.
    + assert (Hmore : exists x0 l0,
                reps true p (Nat.pred lo) hi (step st c r) = x0 :: l0 /\
                x0 = x).
      { destruct (Nat.eqb lo 0) eqn:El.
        - apply Nat.eqb_eq in El. subst lo. simpl in H |- *.
          destruct (reps true p 0 hi (step st c r)) as [|x0 l0] eqn:E0;
            [now apply reps_any_nonempty in E0|].
          injection H as <- _. eauto.
        - eauto. }
      destruct Hmore as (x0 & l0 & E0 & ->).
      apply IH in E0 as (m & E1 & E2 & E3 & E4).
      exists (c :: m). cbn [step consumed rest] in E1, E2.
      split; [simpl; now rewrite <- app_assoc|].
      split; [simpl; now rewrite E2|].
      split; [simpl; now rewrite Hc|].
      destruct E4 as [E4|E4]; [left; simpl; lia|now right].
    + destruct (Nat.eqb lo 0); [|discriminate]. simpl in H.
      apply Hstay; [exact H|exact Hc].
Qed.

(** *** Runs of a class *)

Lemma stops_app (q p : N -> bool) a x :
  (forall c, q c = true -> p c = false) ->
  forallb q a = true -> stops p x -> stops p (a ++ x).
Proof.
  intros Hqp Ha Hx. destruct a as [|c a]; [exact Hx|].
  simpl in Ha |- *. apply andb_true_iff in Ha as [Hc _]. now apply Hqp.
Qed.

Lemma stops_run (q p : N -> bool) a x :
  (forall c, q c = true -> p c = false) ->
  forallb q a = true -> a <> [] -> stops p (a ++ x).
Proof.
  intros Hqp Ha Hne. destruct a as [|c a]; [contradiction|].
  simpl in Ha |- *. apply andb_true_iff in Ha as [Hc _]. now apply Hqp.
Qed.

(** A run of a class that stops is determined by the text. *)
Lemma run_split p : forall a x b y,
  forallb p a = true -> forallb p b = true -> a ++ x = b ++ y ->
  stops p x -> stops p y -> a = b /\ x = y.
Proof.
  induction a as [|c a IH]; intros x b y Ha Hb E Hx Hy.
  - destruct b as [|c' b]; [auto|]. simpl in E. subst x. simpl in Hx, Hb.
    apply andb_true_iff in Hb as [Hb _]. congruence.
  - destruct b as [|c' b].
    + simpl in E. subst y. simpl in Hy, Ha.
      apply andb_true_iff in Ha as [Ha _]. congruence.
    + injection E as <- E. simpl in Ha, Hb.
      apply andb_true_iff in Ha as [_ Ha].
      apply andb_true_iff in Hb as [_ Hb].
      destruct (IH x b y Ha Hb E Hx Hy) as [-> ->]. auto.
Qed.

(** So is a run that takes what it can up to a bound. *)
Lemma run_bounded p : forall a x b y n,
  forallb p a = true -> forallb p b = true -> a ++ x = b ++ y ->
  (List.length a <= n)%nat -> (List.length b <= n)%nat ->
  List.length a = n \/ stops p x -> List.length b = n \/ stops p y ->
  a = b.
Proof.
  induction a as [|c a IH]; intros x b y n Ha Hb E La Lb Ga Gb.
  - destruct b as [|c' b]; [auto|]. simpl in E. subst x. simpl in Hb, Lb.
    apply andb_true_iff in Hb as [Hb _].
    destruct Ga as [Ga|Ga]; simpl in Ga; [lia|congruence].
  - destruct b as [|c' b].
    + simpl in E. subst y. simpl in Ha, La.
      apply andb_true_iff in Ha as [Ha _].
      destruct Gb as [Gb|Gb]; simpl in Gb; [lia|congruence].
    + injection E as <- E. simpl in Ha, Hb, La, Lb.
      apply andb_true_iff in Ha as [_ Ha].
      apply andb_true_iff in Hb as [_ Hb].
      destruct n as [|n]; [lia|].
      f_equal. apply (IH x b y n); auto; try lia.
      * destruct Ga as [Ga|Ga]; [left; simpl in Ga; lia|now right].
      * destruct Gb as [Gb|Gb]; [left; simpl in Gb; lia|now right].
Qed.

Lemma forallb_rev (p : N -> bool) l :
  forallb p l = true -> forallb p (rev l) = true.
Proof.
  rewrite !forallb_forall. intros H x Hx. apply H. now apply in_rev.
Qed.

Lemma digit_no_dot c : is_digit c = true -> (46 =? c) = false.
Proof.
  destruct (N.eqb_spec 46 c) as [<-|]; [discriminate|reflexivity].
Qed.

Lemma space_no_dot c : is_space c = true -> (46 =? c) = false.
Proof.
  destruct (N.eqb_spec 46 c) as [<-|]; [discriminate|reflexivity].
Qed.

Lemma digit_no_space c : is_digit c = true -> is_space c = false.
Proof.
  unfold is_digit. intros H. apply andb_true_iff in H as [H1 H2].
  apply N.leb_le in H1, H2.
  assert (E : c = 48 \/ c = 49 \/ c = 50 \/ c = 51 \/ c = 52 \/
              c = 53 \/ c = 54 \/ c = 55 \/ c = 56 \/ c = 57) by lia.
  repeat destruct E as [->|E]; try reflexivity. now subst c.
Qed.

Lemma dot_one_or_none dot :
  dot = [] \/ dot = [46] -> forallb (N.eqb 46) dot = true.
Proof. now intros [->| ->]. Qed.

Lemma digits_nonempty lo hi d : digits (S lo) hi d -> d <> [].
Proof. intros [_ [H _]] ->. simpl in H. lia. Qed.

Lemma rev_from_at t g : rev_at t g <-> exists pre, rev_from t pre g.
Proof.
  unfold rev_at, rev_from. split.
  - intros (pre & dot & ws & post & H). exists pre, dot, ws, post. exact H.
  - intros (pre & dot & ws & post & H). exists pre, dot, ws, post. exact H.
Qed.

(** The tag of the first match is in the text. *)
Lemma first_rev_in t g : first_rev_at t g -> rev_at t g.
Proof.
  intros (pre & dot & ws & d1 & d2 & d3 & post & Et & Hd & Hw & Eg & D1 & D2
          & D3 & _).
  exists pre, dot, ws, post. repeat split; auto. exists d1, d2, d3. auto.
Qed.

(** The text has one tag of the first match at most. *)
Lemma first_rev_unique t g g' :
  first_rev_at t g -> first_rev_at t g' -> g = g'.
Proof.
  intros (pre & dot & ws & d1 & d2 & d3 & post & Et & Hd & Hw & Eg & D1 & D2
          & D3 & Gr & Lm)
         (pre' & dot' & ws' & d1' & d2' & d3' & post' & Et' & Hd' & Hw' & Eg'
          & D1' & D2' & D3' & Gr' & Lm').
  assert (F : rev_from t pre g).
  { exists dot, ws, post. repeat split; auto. exists d1, d2, d3. auto. }
  assert (F' : rev_from t pre' g').
  { exists dot', ws', post'. repeat split; auto. exists d1', d2', d3'. auto. }
  assert (Hl : List.length pre = List.length pre').
  { apply Nat.le_antisymm; [exact (Lm _ _ F')|exact (Lm' _ _ F)]. }
  rewrite Et in Et'.
  apply (app_inj_1 _ _ _ _ Hl) in Et' as [_ E].
  apply app_inv_head in E.
  rewrite Eg, Eg' in E. rewrite <- !app_assoc in E.
  pose proof (digits_nonempty _ _ _ D1) as N1.
  pose proof (digits_nonempty _ _ _ D1') as N1'.
  destruct D1 as [P1 _], D2 as [P2 _], D3 as [P3 L3].
  destruct D1' as [P1' _], D2' as [P2' _], D3' as [P3' L3'].
  apply (run_split (N.eqb 46)) in E as [_ E];
    [|now apply dot_one_or_none|now apply dot_one_or_none
     |apply (stops_app is_space); [exact space_no_dot|exact Hw|];
      now apply (stops_run is_digit); [exact digit_no_dot|..]
     |apply (stops_app is_space); [exact space_no_dot|exact Hw'|];
      now apply (stops_run is_digit); [exact digit_no_dot|..]].
  apply (run_split is_space) in E as [_ E];
    [|exact Hw|exact Hw'
     |now apply (stops_run is_digit); [exact digit_no_space|..]
     |now apply (stops_run is_digit); [exact digit_no_space|..]].
  apply (run_split is_digit) in E as [<- E];
    [|exact P1|exact P1'|reflexivity|reflexivity].
  injection E as E.
  apply (run_split is_digit) in E as [<- E];
    [|exact P2|exact P2'|reflexivity|reflexivity].
  injection E as E.
  apply (run_bounded is_digit _ _ _ _ 4) in E; auto; try lia.
  subst. reflexivity.
Qed.

(** What the first way of the pattern takes at a position. *)
Lemma run_rev_head pre s x l :
  run RE_REV (at_ pre s) = x :: l ->
  exists dot ws d1 d2 d3 post,
    s = u16 "rev" ++ dot ++ ws ++ (d1 ++ [46] ++ d2 ++ [46] ++ d3) ++ post /\
    cap1 x = Some (d1 ++ [46] ++ d2 ++ [46] ++ d3) /\
    (dot = [] \/ dot = [46]) /\ forallb is_space ws = true /\
    digits 1 2 d1 /\ digits 1 2 d2 /\ digits 2 4 d3 /\
    (List.length d3 = 4%nat \/ stops is_digit post).
Proof.
  intros E.
  assert (Hin : In x (run RE_REV (at_ pre s))) by (rewrite E; now left).
  destruct (run_tailgrp RE_REV eq_refl _ _ _ Hin)
    as (w & g & post & -> & Ex).
  rewrite Ex in Hin.
  apply cspan_rev in Hin as (dot & ws & -> & Hd & Hw & Hg).
  destruct Hg as (d1 & d2 & d3 & -> & D1 & D2 & D3).
  exists dot, ws, d1, d2, d3, post. rewrite <- !app_assoc.
  split; [reflexivity|]. split; [now rewrite Ex|].
  repeat (split; [assumption|]).
  (* the third component is the first way of its quantifier *)
  unfold RE_REV in E. cbn [seqs] in E.
  apply run_seq_head in E as (y1 & l1 & _ & E).
  apply run_seq_head in E as (y2 & l2 & _ & E).
  apply run_seq_head in E as (y3 & l3 & _ & E).
  apply run_grp_head in E as (x' & l' & E & Ec & Er).
  unfold RE_REV_TAG in E. cbn [seqs] in E.
  apply run_seq_head in E as (y4 & l4 & _ & E).
  apply run_seq_head in E as (y5 & l5 & _ & E).
  apply run_seq_head in E as (y6 & l6 & _ & E).
  apply run_seq_head in E as (y7 & l7 & H7 & E).
  apply run_cls_step in H7 as (c & r & _ & Hc & ->).
  apply N.eqb_eq in Hc as <-.
  cbn [run] in E. apply reps_head in E as (m & E1 & _ & Pm & Gm).
  rewrite <- Er, Ex in Gm. cbn [rest] in Gm.
  destruct Gm as [Gm|Gm]; [left|now right].
  rewrite <- Ec, Ex in E1. cbn [consumed step] in E1.
  replace (pre ++ u16 "rev" ++ dot ++ ws ++ d1 ++ [46] ++ d2 ++ [46] ++ d3)
    with ((pre ++ u16 "rev" ++ dot ++ ws ++ d1 ++ [46] ++ d2) ++ [46] ++ d3)
    in E1 by now rewrite <- !app_assoc.
  set (A := pre ++ u16 "rev" ++ dot ++ ws ++ d1 ++ [46] ++ d2) in E1.
  rewrite (rev_app_distr A), (rev_app_distr [46]), <- app_assoc in E1.
  change (rev [46]) with [46] in E1.
  destruct D3 as [P3 _].
  apply (run_split is_digit) in E1 as [E1 _];
    [|now apply forallb_rev|now apply forallb_rev|reflexivity|reflexivity].
  apply (f_equal (@List.length N)) in E1. rewrite !length_rev in E1. lia.
Qed.

(** What [match] returns for [RE_REV] is the tag of the first match. *)
Lemma match1_first_rev t g :
  match1 RE_REV t = Some g -> first_rev_at t g.
Proof.
  unfold match1, exec. intros H.
  destruct (search RE_REV [] t) as [[st0 st]|] eqn:E; [|discriminate].
  injection H as H.
  change (@nil N) with (rev (@nil N)) in E.
  apply search_head in E as (a & b & l & -> & _ & Hr & Hf).
  change ([] ++ a) with a in Hr.
  destruct (run_rev_head _ _ _ _ Hr)
    as (dot & ws & d1 & d2 & d3 & post & -> & Hc & Hd & Hw & D1 & D2 & D3
        & Gr).
  rewrite Hc in H. subst g.
  exists a, dot, ws, d1, d2, d3, post. repeat (split; [auto|]).
  intros pre' g' (dot' & ws' & post' & Et & Hd' & Hw' & Hg').
  destruct (Nat.le_gt_cases (List.length a) (List.length pre'))
    as [Hle|Hlt]; [exact Hle|exfalso].
  assert (Hs : cspan RE_REV pre' (u16 "rev" ++ dot' ++ ws' ++ g') g' post').
  { apply cspan_rev. exists dot', ws'. auto. }
  unfold cspan in Hs. rewrite <- !app_assoc in Hs.
  specialize (Hf pre' _ Et Hlt). change ([] ++ pre') with pre' in Hf.
  rewrite Hf in Hs. destruct Hs.
Qed.

Lemma cwcot_rev_eq raw fn :
  cwcot_rev (detectCWCOTInText raw fn) =
  match match1 RE_REV (toLowerCase (normText raw)) with
  | Some g => g
  | None => []
  end.
Proof. reflexivity. Qed.

(** C7, as stated, fails: the two-component form "rev 1.2" yields no
    tag. *)
Lemma two_components_yield_no_tag :
  ~ (cwcot_rev (detectCWCOTInText (u16 "rev 1.2") []) <> []).
Proof. intros H. apply H. vm_compute. reflexivity. Qed.

(** C7, amended.  The classifier extracts the tag of the first match of
    "rev", optional ".", optional white space, then one or two digits, a
    dot, one or two digits, a dot and two to four digits, in the normalized,
    lower-cased text: the tag stands after the first "rev" that a tag
    follows, its third component takes as many digits as it can, four at
    most, and the text has no other tag of that kind.  So "Rev. 3.14.24"
    yields "3.14.24", "rev 1.2.34 rev 5.6.78" yields "1.2.34" and
    "rev 12.34.5678" yields "12.34.5678".  When the text holds no such
    pattern (the two-component "rev 1.2" does not) the tag is empty; the
    function is total, so nothing is thrown. *)
Theorem revision_tag_three_components : forall rawText filename,
  let tag := cwcot_rev (detectCWCOTInText rawText filename) in
  let t := toLowerCase (normText rawText) in
  cwcot_rev (detectCWCOTInText (u16 "Rev. 3.14.24") filename) = u16 "3.14.24"
  /\ cwcot_rev (detectCWCOTInText (u16 "rev 1.2") filename) = []
  /\ cwcot_rev (detectCWCOTInText (u16 "rev 1.2.34 rev 5.6.78") filename)
     = u16 "1.2.34"
  /\ cwcot_rev (detectCWCOTInText (u16 "rev 12.34.5678") filename)
     = u16 "12.34.5678"
  /\ ((tag <> [] /\ rev_at t tag /\ first_rev_at t tag) \/
      (tag = [] /\ forall g, ~ rev_at t g))
  /\ (forall g, first_rev_at t g -> g = tag).
Proof.
  intros raw fn tag t. split; [reflexivity|]. split; [reflexivity|].
  split; [reflexivity|]. split; [reflexivity|].
  unfold tag. rewrite cwcot_rev_eq. fold t.
  pose proof (match1_rev t) as H.
  pose proof (match1_first_rev t) as F.
  destruct (match1 RE_REV t) as [g|].
  - specialize (F g eq_refl). split.
    + left. split; [|split; [exact H|exact F]].
      destruct H as (_ & _ & _ & _ & _ & _ & _ & Hg).
      now apply rev_tag_nonempty.
    + intros g' F'. exact (first_rev_unique t g' g F' F).
  - split; [right; split; [reflexivity|exact H]|].
    intros g' F'. apply first_rev_in in F'. now apply H in F'.
Qed.

End RevisionFacts.

(** ** The resilient invoker *)

Module InvokerFacts.
Import RegexFacts SpanFacts StringFacts.

(** [ERR_RE] looks for one of its signatures, in either case. *)
Lemma test_signatures sigs e : sigs <> [] ->
  test (alts (List.map liti sigs)) e = true <->
  exists sig, In sig sigs /\
    exists pre w post, e = pre ++ w ++ post /\ same_ci (u16 sig) w.
Proof.
  induction sigs as [|a sigs IH]; [contradiction|]. intros _.
  destruct sigs as [|b sigs].
  - simpl. rewrite test_liti. split.
    + intros H. exists a. auto.
    + intros (sig & [<-|[]] & H). exact H.
  - change (alts (List.map liti (a :: b :: sigs)))
      with (Alt (liti a) (alts (List.map liti (b :: sigs)))).
    rewrite test_alt, test_liti, IH; try discriminate.
    + split.
      * intros [H|(sig & Hs & H)]; [exists a|exists sig]; simpl; auto.
      * intros (sig & [<-|Hs] & H); [left|right]; eauto.
    + apply plain_liti.
    + clear. revert b. induction sigs as [|c sigs IH]; intros b.
      * apply plain_liti.
      * change (plain (liti b) && plain (alts (List.map liti (c :: sigs)))
                = true).
        now rewrite plain_liti, IH.
Qed.

Section Safe.
Context {W A : Type}.
Variable fn : M W A.
Variable tries : nat.
Variable wait : N.

Lemma safe_from_S i left last :
  safe_from fn tries wait i (S left) last =
  catch fn (fun e =>
    if includes PAGE_CLOSED e then throw e
    else if negb (test ERR_RE e) || Nat.eqb i (tries - 1) then throw e
    else bind (sleep (wait * N.of_nat (i + 1)))
           (fun _ => safe_from fn tries wait (S i) left e)).
Proof. reflexivity. Qed.

Lemma safe_from_ok i left last si a s' :
  fn si = (Ok a, s') ->
  safe_from fn tries wait i (S left) last si = (Ok a, s').
Proof. intros E. rewrite safe_from_S. unfold catch. now rewrite E. Qed.

Lemma safe_from_stop i left last si e s' :
  fn si = (Throw e, s') ->
  retriable e = false \/ i = (tries - 1)%nat ->
  safe_from fn tries wait i (S left) last si = (Throw e, s').
Proof.
  intros E H. rewrite safe_from_S. unfold catch. rewrite E.
  destruct (includes PAGE_CLOSED e) eqn:C; auto.
  destruct H as [H| ->].
  - unfold retriable in H. rewrite C, andb_true_r in H. now rewrite H.
  - now rewrite Nat.eqb_refl, orb_true_r.
Qed.

Lemma safe_from_retry i left last si e s' :
  fn si = (Throw e, s') -> retriable e = true -> i <> (tries - 1)%nat ->
  safe_from fn tries wait i (S left) last si =
  safe_from fn tries wait (S i) left e
    (Sys (world s') (trace s' ++ [Sleep (wait * N.of_nat (S i))])).
Proof.
  intros E R Hi. rewrite safe_from_S. unfold catch. rewrite E.
  unfold retriable in R. apply andb_true_iff in R as [R1 R2].
  apply negb_true_iff in R2. rewrite R2, R1.
  apply Nat.eqb_neq in Hi. rewrite Hi. cbn [negb orb].
  unfold bind, sleep, emit. now rewrite Nat.add_1_r.
Qed.

Lemma safe_from_spec : forall left i s si last,
  (i + S left = tries)%nat -> Retried fn wait i s si ->
  exists k sk, (k < tries)%nat /\ Retried fn wait k s sk /\
    ((exists a s', fn sk = (Ok a, s') /\
        safe_from fn tries wait i (S left) last si = (Ok a, s')) \/
     (exists e s', fn sk = (Throw e, s') /\
        (retriable e = false \/ k = (tries - 1)%nat) /\
        safe_from fn tries wait i (S left) last si = (Throw e, s'))).
Proof.
  induction left as [|left IH]; intros i s si last Hi Hr.
  - exists i, si. split; [lia|]. split; [exact Hr|].
    destruct (fn si) as [[a|e] s'] eqn:E.
    + left. exists a, s'. split; auto. now apply safe_from_ok.
    + right. exists e, s'. split; auto. split; [right; lia|].
      apply safe_from_stop; auto. right. lia.
  - destruct (fn si) as [[a|e] s'] eqn:E.
    + exists i, si. split; [lia|]. split; [exact Hr|]. left.
      exists a, s'. split; auto. now apply safe_from_ok.
    + destruct (retriable e) eqn:R.
      * rewrite (safe_from_retry _ _ _ _ _ _ E R) by lia.
        apply IH; [lia|]. eapply Retried_S; eauto.
      * exists i, si. split; [lia|]. split; [exact Hr|]. right.
        exists e, s'. split; auto. split; auto.
        apply safe_from_stop; auto.
Qed.

End Safe.

(** Two failures, two sleeps of 450 and 900 ms, and the third call
    answers. *)
Example flaky_twice :
  safe' (flaky 2) (Sys 0%nat []) =
    (Ok 2%nat, Sys 3%nat [Sleep 450; Sleep 900]).
Proof. vm_compute. reflexivity. Qed.

(** With five failures the last error comes out, after four sleeps. *)
Example flaky_five_times :
  safe' (flaky 7) (Sys 0%nat []) =
    (Throw (u16 "Error: Execution context was destroyed"),
     Sys 5%nat [Sleep 450; Sleep 900; Sleep 1350; Sleep 1800]).
Proof. vm_compute. reflexivity. Qed.

(** C8.  A run of [safe] is a number of attempts that failed with an
    error matching a signature of [ERR_RE] and not saying "Page is closed",
    each followed by a sleep of [wait] times the number of the attempt,
    and then one attempt that either answers, and [safe] answers the same,
    or throws an error that does not match, or says "Page is closed", or is
    that of the last attempt, and [safe] throws that error.  The defaults
    are 5 attempts and 450 ms. *)
Theorem safe_retries_transient_only :
  forall (W A : Type) (fn : M W A) (tries : nat) (wait : N) (s : sys W),
  (safe' fn = safe fn 5 450) /\
  (forall e, retriable e = true <->
     (exists sig, In sig SIGNATURES /\
        exists pre w post, e = pre ++ w ++ post /\ same_ci (u16 sig) w) /\
     includes PAGE_CLOSED e = false) /\
  ((tries = 0%nat /\ safe fn tries wait s = (Throw (u16 "undefined"), s)) \/
   exists k sk, (k < tries)%nat /\ Retried fn wait k s sk /\
     ((exists a s', fn sk = (Ok a, s') /\
         safe fn tries wait s = (Ok a, s')) \/
      (exists e s', fn sk = (Throw e, s') /\
         (retriable e = false \/ k = (tries - 1)%nat) /\
         safe fn tries wait s = (Throw e, s')))).
Proof.
  intros W A fn tries wait s. split; [reflexivity|]. split.
  - intros e. unfold retriable, ERR_RE.
    rewrite andb_true_iff, negb_true_iff.
    rewrite test_signatures; [reflexivity|discriminate].
  - destruct tries as [|n]; [left; auto|right].
    unfold safe. apply safe_from_spec; [lia|constructor].
Qed.

End InvokerFacts.

(** ** Tile discovery *)

Module TileFacts.

Section Pass.
Variable lower : jsstring -> jsstring.

Lemma collect_snoc nodes n :
  collect lower (nodes ++ [n]) = pushTile lower (collect lower nodes) n.
Proof. unfold collect. now rewrite fold_left_app. Qed.

Lemma count_key_app k l1 l2 :
  count_key lower k (l1 ++ l2) =
  (count_key lower k l1 + count_key lower k l2)%nat.
Proof. unfold count_key. now rewrite List.filter_app, length_app. Qed.

Lemma count_key_one k p :
  count_key lower k [p] =
  if bool_decide (label_key lower p = k) then 1%nat else 0%nat.
Proof. unfold count_key. simpl. now destruct (bool_decide _). Qed.

Lemma Inv_nil : Inv lower [] (Acc ∅ ∅ []).
Proof.
  split; simpl.
  - intros id. split; [set_solver|]. intros (n & [] & _).
  - intros id t [].
  - constructor.
  - intros k. now rewrite lookup_empty.
  - intros i id t H. now rewrite lookup_nil in H.
  - intros _ n [].
Qed.

Lemma same_text_prefix l n :
  same_node_same_text (l ++ [n]) -> same_node_same_text l.
Proof.
  intros H m m' Hm Hm'. apply H; apply in_app_iff; auto.
Qed.

Lemma Inv_step done a n :
  Inv lower done a -> Inv lower (done ++ [n]) (pushTile lower a n).
Proof.
  intros I. unfold pushTile.
  destruct (bool_decide (nid n ∈ seenNodes a)) eqn:Hseen.
  { (* the node was met before *)
    apply bool_decide_eq_true in Hseen.
    apply (inv_seen _ _ _ I) in Hseen as (m & Hm & Hmn).
    split.
    - intros id. rewrite (inv_seen _ _ _ I). split.
      + intros (x & Hx & <-). exists x. split; auto. apply in_app_iff. auto.
      + intros (x & Hx & <-). apply in_app_iff in Hx as [Hx|[<-|[]]]; eauto.
    - intros id t Ht. apply (inv_from _ _ _ I) in Ht as (x & Hx & Hid & Hl).
      exists x. repeat split; auto. apply in_app_iff. auto.
    - apply (inv_nodup _ _ _ I).
    - apply (inv_count _ _ _ I).
    - apply (inv_ordinal _ _ _ I).
    - intros Hwf x Hx Hne. apply in_app_iff in Hx as [Hx|[<-|[]]].
      + apply (inv_tile _ _ _ I); auto. now apply same_text_prefix in Hwf.
      + assert (E : node_text m = node_text n).
        { apply Hwf; auto; apply in_app_iff; simpl; auto. }
        destruct (inv_tile _ _ _ I (same_text_prefix _ _ Hwf) m Hm)
          as (t & Ht & Hl); [now rewrite E|].
        exists t. rewrite <- Hmn, <- E. auto. }
  apply bool_decide_eq_false in Hseen.
  assert (Hnew : forall t, ~ In (nid n, t) (tiles a)).
  { intros t Ht. apply (inv_from _ _ _ I) in Ht as (x & Hx & Hid & _).
    apply Hseen, (inv_seen _ _ _ I). eauto. }
  assert (Hs : forall id,
    id ∈ ({[nid n]} ∪ seenNodes a : gset nat) <->
    exists x, In x (done ++ [n]) /\ nid x = id).
  { intros id. rewrite elem_of_union, elem_of_singleton, (inv_seen _ _ _ I).
    split.
    - intros [->|(x & Hx & <-)]; [exists n|exists x]; split; auto;
        apply in_app_iff; simpl; auto.
    - intros (x & Hx & <-). apply in_app_iff in Hx as [Hx|[<-|[]]]; eauto. }
  destruct (norm (node_text n)) as [|c lbl] eqn:Hl.
  { (* no text: no tile *)
    split; cbn [seenNodes labelCounts tiles]; auto.
    - intros id t Ht. apply (inv_from _ _ _ I) in Ht as (x & Hx & Hid & Hne).
      exists x. repeat split; auto. apply in_app_iff. auto.
    - apply (inv_nodup _ _ _ I).
    - apply (inv_count _ _ _ I).
    - apply (inv_ordinal _ _ _ I).
    - intros Hwf x Hx Hne. apply in_app_iff in Hx as [Hx|[<-|[]]].
      + apply (inv_tile _ _ _ I); auto. now apply same_text_prefix in Hwf.
      + congruence. }
  (* a new tile *)
  set (key := lower (c :: lbl)).
  set (ord := default 0%nat (labelCounts a !! key)).
  set (new := (nid n, Tile (c :: lbl) (target_href n) ord (node_data_id n))).
  split; cbn [seenNodes labelCounts tiles]; auto.
  - intros id t Ht. apply in_app_iff in Ht as [Ht|[Ht|[]]].
    + apply (inv_from _ _ _ I) in Ht as (x & Hx & Hid & Hne).
      exists x. repeat split; auto. apply in_app_iff. auto.
    + injection Ht as <- <-. exists n. repeat split; auto.
      apply in_app_iff. simpl. auto.
  - rewrite map_app. simpl. apply NoDup_app.
    split; [apply (inv_nodup _ _ _ I)|].
    split; [|repeat constructor; set_solver].
    intros id Hid Hid'. apply list_elem_of_In in Hid, Hid'.
    destruct Hid' as [<-|[]].
    apply in_map_iff in Hid as ([id t] & E & Ht). simpl in E. subst id.
    now apply Hnew in Ht.
  - intros k. rewrite count_key_app, count_key_one. unfold label_key.
    cbn [snd label]. fold key.
    destruct (decide (key = k)) as [<-|Hk].
    + rewrite lookup_insert_eq, bool_decide_eq_true_2 by reflexivity.
      cbn [default]. unfold ord, id. rewrite (inv_count _ _ _ I). lia.
    + rewrite lookup_insert_ne, bool_decide_eq_false_2 by assumption.
      rewrite (inv_count _ _ _ I). lia.
  - intros i id t Hi.
    destruct (decide (i < List.length (tiles a))%nat) as [Hlt|Hge].
    + rewrite lookup_app_l in Hi by assumption.
      rewrite take_app_le by lia. now apply (inv_ordinal _ _ _ I).
    + rewrite lookup_app_r in Hi by lia.
      destruct (i - List.length (tiles a))%nat as [|j] eqn:Hj;
        [|simpl in Hi; now rewrite lookup_nil in Hi].
      injection Hi as <- <-.
      rewrite take_app_ge by lia.
      rewrite Hj. cbn [take]. rewrite app_nil_r.
      cbn [ordinal]. unfold ord. apply (inv_count _ _ _ I).
  - intros Hwf x Hx Hne. apply in_app_iff in Hx as [Hx|[<-|[]]].
    + destruct (inv_tile _ _ _ I (same_text_prefix _ _ Hwf) x Hx Hne)
        as (t & Ht & Ht').
      exists t. split; auto. apply in_app_iff. auto.
    + exists (snd new). split; [apply in_app_iff; simpl; auto|].
      now rewrite Hl.
Qed.

Lemma Inv_collect nodes : Inv lower nodes (collect lower nodes).
Proof.
  induction nodes as [|n nodes IH] using rev_ind.
  - apply Inv_nil.
  - rewrite collect_snoc. now apply Inv_step.
Qed.

Lemma count_key_take_le k l i j : (i <= j)%nat ->
  (count_key lower k (take i l) <= count_key lower k (take j l))%nat.
Proof.
  intros Hij. rewrite <- (take_drop i (take j l)), take_take.
  rewrite Nat.min_l by assumption. rewrite count_key_app. lia.
Qed.

Lemma or_else_ok {W A} (m : M W A) d s :
  exists a s', or_else m d s = (Ok a, s').
Proof.
  unfold or_else, catch, ret. destruct (m s) as [[a|e] s']; eauto.
Qed.

Lemma or_else_throw {W A} (m : M W A) d s e s' :
  m s = (Throw e, s') -> or_else m d s = (Ok d, s').
Proof. unfold or_else, catch, ret. now intros ->. Qed.

Lemma or_else_value {W A} (m : M W A) d s a s' :
  m s = (Ok a, s') -> or_else m d s = (Ok a, s').
Proof. unfold or_else, catch, ret. now intros ->. Qed.

End Pass.




End TileFacts.

(** ** Runs and what they leave in the trace *)

Module MonadFacts.

Section Inversion.
Context {W : Type}.

Lemma bind_ok {A B} (m : M W A) (k : A -> M W B) s b s' :
  bind m k s = (Ok b, s') ->
  exists a s1, m s = (Ok a, s1) /\ k a s1 = (Ok b, s').
Proof.
  unfold bind. destruct (m s) as [[a|e] s1]; [eauto|discriminate].
Qed.

Lemma bind_inv {A B} (m : M W A) (k : A -> M W B) s o s' :
  bind m k s = (o, s') ->
  (exists a s1, m s = (Ok a, s1) /\ k a s1 = (o, s')) \/
  (exists e, m s = (Throw e, s') /\ o = Throw e).
Proof.
  unfold bind. destruct (m s) as [[a|e] s1]; [eauto|].
  intros [= <- <-]. eauto.
Qed.

Lemma or_else_inv {A} (m : M W A) d s o s' :
  or_else m d s = (o, s') ->
  exists a, o = Ok a /\
    (m s = (Ok a, s') \/ exists e, m s = (Throw e, s') /\ a = d).
Proof.
  unfold or_else, catch, ret. destruct (m s) as [[a|e] s1];
    intros [= <- <-]; eauto 6.
Qed.

Variable f : event -> bool.

Lemma silent_ret {A} (a : A) : silent f (ret a : M W A).
Proof. now intros s o s' [= _ <-]. Qed.

Lemma silent_throw {A} e : silent f (throw e : M W A).
Proof. now intros s o s' [= _ <-]. Qed.

Lemma silent_bind {A B} (m : M W A) (k : A -> M W B) :
  silent f m -> (forall a, silent f (k a)) -> silent f (bind m k).
Proof.
  intros Hm Hk s o s' H.
  apply bind_inv in H as [(a & s1 & H1 & H2)|(e & H1 & _)].
  - rewrite (Hk _ _ _ _ H2). eapply Hm; eauto.
  - eapply Hm; eauto.
Qed.

Lemma silent_catch {A} (m : M W A) h :
  silent f m -> (forall e, silent f (h e)) -> silent f (catch m h).
Proof.
  intros Hm Hh s o s' H. unfold catch in H.
  destruct (m s) as [[a|e] s1] eqn:E.
  - injection H as <- <-. eapply Hm; eauto.
  - rewrite (Hh _ _ _ _ H). eapply Hm; eauto.
Qed.

Lemma silent_or_else {A} (m : M W A) d : silent f m -> silent f (or_else m d).
Proof. intros Hm. apply silent_catch; auto. intros _. apply silent_ret. Qed.

Lemma silent_call {A} (p : W -> outcome A * W) : silent f (call p).
Proof.
  intros s o s' H. unfold call in H. destruct (p (world s)).
  now injection H as _ <-.
Qed.

Lemma silent_call_ {A} (p : W -> A * W) : silent f (call_ p).
Proof.
  intros s o s' H. unfold call_ in H. destruct (p (world s)).
  now injection H as _ <-.
Qed.

Lemma silent_update (p : W -> W) : silent f (update p).
Proof. now intros s o s' [= _ <-]. Qed.

Lemma silent_read {A} (p : W -> A) : silent f (read p).
Proof. now intros s o s' [= _ <-]. Qed.

Lemma leaves_emit ev : leaves f (emit ev : M W unit) (List.filter f [ev]).
Proof. intros s o s' [= _ <-]. cbn [trace]. apply List.filter_app. Qed.

Lemma silent_emit ev : f ev = false -> silent f (emit ev : M W unit).
Proof.
  intros Hev s o s' H. rewrite (leaves_emit ev _ _ _ H). simpl.
  rewrite Hev. apply app_nil_r.
Qed.

Lemma silent_sleep ms : f (Sleep ms) = false -> silent f (sleep ms : M W unit).
Proof. apply silent_emit. Qed.

Hypothesis f_sleep : forall ms, f (Sleep ms) = false.

Lemma silent_safe_from {A} (fn : M W A) tries wait :
  silent f fn -> forall left i last,
  silent f (safe_from fn tries wait i left last).
Proof.
  intros Hfn. induction left as [|left IH]; intros i last.
  - apply silent_throw.
  - cbn [safe_from]. apply silent_catch; auto. intros e.
    destruct (includes PAGE_CLOSED e); [apply silent_throw|].
    destruct (negb (test ERR_RE e) || Nat.eqb i (tries - 1));
      [apply silent_throw|].
    apply silent_bind; [now apply silent_sleep|auto].
Qed.

Lemma silent_safe' {A} (fn : M W A) : silent f fn -> silent f (safe' fn).
Proof. intros H. now apply silent_safe_from. Qed.

Variable pg : page W.

Lemma silent_ensureDocumentsOpen : silent f (ensureDocumentsOpen pg).
Proof.
  unfold ensureDocumentsOpen.
  repeat first
    [ apply silent_bind; [|intros ?]
    | apply silent_or_else | apply silent_safe' | apply silent_call
    | now apply silent_sleep ].
Qed.

Lemma silent_listDocumentTiles : silent f (listDocumentTiles pg).
Proof.
  unfold listDocumentTiles.
  repeat first
    [ apply silent_bind; [|intros ?]
    | apply silent_or_else | apply silent_safe' | apply silent_call
    | apply silent_ret ].
Qed.

Lemma silent_readCapture : silent f (readCapture pg).
Proof.
  unfold readCapture. apply silent_or_else, silent_safe', silent_call.
Qed.

Lemma silent_perf_poll pause hit k : silent f k ->
  forall rounds, silent f (perf_poll pg rounds pause hit k).
Proof.
  intros Hk. induction rounds as [|rounds IH]; [exact Hk|].
  cbn [perf_poll]. apply silent_bind.
  - apply silent_or_else, silent_safe', silent_bind;
      [apply silent_call|intros ?; apply silent_ret].
  - intros perf. destruct (hit perf); [apply silent_ret|].
    apply silent_bind; [now apply silent_sleep|auto].
Qed.

End Inversion.

End MonadFacts.

(** ** Orchestration *)

Module OrchFacts.
Import MonadFacts.

(** Goals [silent f m] for a program [m] written with the operations of
    the monad, [safe'] and the helpers of the page. *)
Ltac silence Hsleep :=
  repeat first
    [ apply silent_ret | apply silent_throw | apply silent_call
    | apply silent_call_ | apply silent_update | apply silent_read
    | apply silent_sleep; apply Hsleep
    | apply silent_ensureDocumentsOpen; exact Hsleep
    | apply silent_readCapture; exact Hsleep
    | apply silent_perf_poll; [exact Hsleep|]
    | apply silent_safe'; [exact Hsleep|]
    | apply silent_or_else
    | apply silent_catch; [|intros ?]
    | apply silent_bind; [|intros ?]
    | match goal with
      | |- silent _ (if ?c then _ else _) => destruct c
      | |- silent _ (match ?x with _ => _ end) => destruct x
      end ].

Section Views.
Context {W : Type}.
Variable pg : page W.
Variable f : event -> bool.
Hypothesis f_sleep : forall ms, f (Sleep ms) = false.

Lemma leaves_emit_then {A} ev (k : M W A) :
  silent f k -> leaves f (bind (emit ev) (fun _ => k)) (List.filter f [ev]).
Proof.
  intros Hk s o s' H. unfold bind, emit in H.
  rewrite (Hk _ _ _ H). cbn [trace]. apply List.filter_app.
Qed.

(** The locator leaves its [Locate] and nothing else. *)
Lemma leaves_clickTileAndSniffPdf t :
  leaves f (clickTileAndSniffPdf pg t) (List.filter f [Locate t]).
Proof.
  unfold clickTileAndSniffPdf. apply leaves_emit_then. silence f_sleep.
Qed.

(** The analysis leaves its [Classify] and nothing else. *)
Lemma leaves_analyzeAddendumPdf base u :
  leaves f (analyzeAddendumPdf pg base u) (List.filter f [Classify u]).
Proof.
  unfold analyzeAddendumPdf. apply leaves_emit_then. silence f_sleep.
Qed.

Lemma leaves_parseHydrationLinksFromHTML :
  leaves f (parseHydrationLinksFromHTML pg) (List.filter f [ScanHidden]).
Proof.
  unfold parseHydrationLinksFromHTML. apply leaves_emit_then.
  silence f_sleep.
Qed.

End Views.

Section Runs.
Context {W : Type}.
Variable pg : page W.

Lemma grows_nil (s : sys W) : grows s s [].
Proof. intros f _. simpl. now rewrite app_nil_r. Qed.

Lemma grows_app (s s1 s2 : sys W) e1 e2 :
  grows s s1 e1 -> grows s1 s2 e2 -> grows s s2 (e1 ++ e2).
Proof.
  intros H1 H2 f Hf. rewrite (H2 f Hf), (H1 f Hf), List.filter_app.
  now rewrite app_assoc.
Qed.

Lemma grows_silent {A} (m : M W A) s o s' :
  (forall f, (forall ms, f (Sleep ms) = false) -> silent f m) ->
  m s = (o, s') -> grows s s' [].
Proof.
  intros Hm H f Hf. rewrite (Hm f Hf _ _ _ H). simpl. now rewrite app_nil_r.
Qed.

Lemma grows_leaves {A} (m : M W A) evs s o s' :
  (forall f, (forall ms, f (Sleep ms) = false) ->
     leaves f m (List.filter f evs)) ->
  m s = (o, s') -> grows s s' evs.
Proof. intros Hm H f Hf. apply (Hm f Hf _ _ _ H). Qed.

Lemma grows_emit ev (s : sys W) :
  grows s (Sys (world s) (trace s ++ [ev])) [ev].
Proof. intros f _. apply List.filter_app. Qed.

Lemma grows_ensureDocumentsOpen s o s' :
  ensureDocumentsOpen pg s = (o, s') -> grows s s' [].
Proof.
  apply grows_silent. intros f Hf. now apply silent_ensureDocumentsOpen.
Qed.

Lemma grows_listDocumentTiles s o s' :
  listDocumentTiles pg s = (o, s') -> grows s s' [].
Proof.
  apply grows_silent. intros f Hf. now apply silent_listDocumentTiles.
Qed.

Lemma grows_clickTileAndSniffPdf t s o s' :
  clickTileAndSniffPdf pg t s = (o, s') -> grows s s' [Locate t].
Proof.
  apply grows_leaves. intros f Hf. now apply leaves_clickTileAndSniffPdf.
Qed.

Lemma grows_analyzeAddendumPdf base u s o s' :
  analyzeAddendumPdf pg base u s = (o, s') -> grows s s' [Classify u].
Proof.
  apply grows_leaves. intros f Hf. now apply leaves_analyzeAddendumPdf.
Qed.

Lemma grows_parseHydrationLinksFromHTML s o s' :
  parseHydrationLinksFromHTML pg s = (o, s') -> grows s s' [ScanHidden].
Proof.
  apply grows_leaves. intros f Hf.
  now apply leaves_parseHydrationLinksFromHTML.
Qed.

(** The legacy resolution: its direct scan and, when that finds nothing,
    its click. *)
Lemma getAddendumUrl_grows base s r s' :
  getAddendumUrl pg base s = (Ok r, s') ->
  (grows s s' [ScanDirect] /\
   exists direct, direct <> [] /\ r = toAbs direct base) \/
  grows s s' [ScanDirect; LegacyClick].
Proof.
  unfold getAddendumUrl. intros H.
  apply bind_ok in H as ([] & s1 & H1 & H).
  apply bind_ok in H as ([] & s2 & H2 & H).
  apply bind_ok in H as ([] & s3 & H3 & H).
  assert (E3 : grows s s3 []).
  { apply (grows_app _ s1 _ [] []).
    { eapply grows_silent; [|exact H1]. intros f Hf. silence Hf. }
    apply (grows_app _ s2 _ [] []);
      [|now apply grows_ensureDocumentsOpen in H3].
    eapply grows_silent; [|exact H2]. intros f Hf. silence Hf. }
  apply bind_ok in H as ([] & s4 & H4 & H).
  injection H4 as <-.
  apply bind_ok in H as (direct & s5 & H5 & H).
  assert (E5 : grows s s5 [ScanDirect]).
  { apply (grows_app _ s3 _ [] [ScanDirect]); auto.
    apply (grows_app s3 (Sys (world s3) (trace s3 ++ [ScanDirect])) s5
             [ScanDirect] []); [apply grows_emit|].
    eapply grows_silent; [|exact H5]. intros f Hf. silence Hf. }
  destruct direct as [|c direct]; cbn [nonempty] in H.
  - right.
    apply bind_ok in H as (preHits & s6 & H6 & H). injection H6 as _ <-.
    apply (grows_app _ s5 _ [ScanDirect] [LegacyClick]); auto.
    eapply grows_leaves; [|exact H]. intros f Hf.
    apply leaves_emit_then. silence Hf.
  - left. injection H as <- <-. split; auto.
    exists (c :: direct). split; [discriminate|reflexivity].
Qed.

Variable base : jsstring.

(** The loop over the candidates: every tile is located, in order, and
    every address it keeps is classified. *)
Lemma candidates_grows ts : forall seen results s out s',
  candidates pg base ts seen results s = (Ok out, s') ->
  exists new evs, out = results ++ new /\ grows s s' evs /\
    List.filter is_locate evs = List.map Locate ts /\
    List.filter is_classify evs =
      List.map (fun x => Classify (f_url x)) new /\
    List.filter is_stage evs = [].
Proof.
  induction ts as [|t ts IH]; intros seen results s out s' H.
  - injection H as <- <-. exists [], []. rewrite app_nil_r.
    repeat split; auto. apply grows_nil.
  - cbn [candidates] in H.
    apply bind_ok in H as (pdfUrl & s1 & H1 & H).
    apply bind_ok in H as ([] & s2 & H2 & H).
    apply grows_clickTileAndSniffPdf in H1.
    apply grows_ensureDocumentsOpen in H2.
    pose proof (grows_app _ _ _ _ _ H1 H2) as G2.
    destruct (negb (nonempty pdfUrl) || bool_decide (pdfUrl ∈ seen)).
    + apply IH in H as (new & evs & -> & G & E1 & E2 & E3).
      exists new, (([Locate t] ++ []) ++ evs). split; auto.
      split; [exact (grows_app s s2 s' _ _ G2 G)|].
      simpl. rewrite E1, E2, E3. auto.
    + apply bind_ok in H as (det & s3 & H3 & H).
      apply grows_analyzeAddendumPdf in H3.
      apply IH in H as (new & evs & -> & G & E1 & E2 & E3).
      exists (Found (label t) pdfUrl det :: new),
             (([Locate t] ++ []) ++ [Classify pdfUrl] ++ evs).
      split; [now rewrite <- app_assoc|].
      split; [exact (grows_app s s2 s' _ _ G2 (grows_app s2 s3 s' _ _ H3 G))|].
      simpl. rewrite E1, E2, E3. auto.
Qed.

(** The loop over the candidates, tile by tile. *)
Lemma candidates_examined ts : forall seen results s out s',
  candidates pg base ts seen results s = (Ok out, s') ->
  exists new, out = results ++ new /\ Examined pg base ts seen s new s'.
Proof.
  induction ts as [|t ts IH]; intros seen results s out s' H.
  - injection H as <- <-. exists []. rewrite app_nil_r.
    split; [reflexivity|constructor].
  - cbn [candidates] in H.
    apply bind_ok in H as (u & s1 & H1 & H).
    apply bind_ok in H as ([] & s2 & H2 & H).
    destruct (negb (nonempty u) || bool_decide (u ∈ seen)) eqn:C.
    + apply IH in H as (new & -> & Hx). exists new. split; [reflexivity|].
      apply (Examined_skip pg base t ts seen s u s1 s2 new s' H1 H2);
        [|exact Hx].
      apply orb_true_iff in C as [C|C].
      * left. now destruct u.
      * right. now apply bool_decide_eq_true in C.
    + apply orb_false_iff in C as [C1 C2].
      apply bool_decide_eq_false in C2.
      apply bind_ok in H as (det & s3 & H3 & H).
      apply IH in H as (new & -> & Hx).
      exists (Found (label t) u det :: new).
      split; [now rewrite <- app_assoc|].
      apply (Examined_keep pg base t ts seen s u s1 s2 det s3 new s' H1 H2);
        auto.
      intros ->. discriminate.
Qed.



(** The first match among the results is the one selected. *)
Lemma select_first_hit pre hit post tiles :
  (forall x, In x pre -> a_isCWCOT (f_det x) = false) ->
  a_isCWCOT (f_det hit) = true ->
  select_result (pre ++ hit :: post) tiles =
    Some (selected "paa_cwcot_hit" (f_label hit) (f_url hit) (f_det hit)
            tiles).
Proof.
  intros Hpre Hhit.
  assert (F : List.find (fun r => a_isCWCOT (f_det r)) (pre ++ hit :: post)
              = Some hit).
  { induction pre as [|x pre IH]; simpl.
    - now rewrite Hhit.
    - rewrite (Hpre x) by (simpl; auto). apply IH.
      intros y Hy. apply Hpre. simpl. auto. }
  unfold select_result. rewrite F. now destruct pre.
Qed.

Lemma select_result_reason results tiles r :
  select_result results tiles = Some r ->
  results <> [] /\
  (selection_reason r = "paa_cwcot_hit"%string \/
   selection_reason r = "paa_no_cwcot"%string).
Proof.
  unfold select_result. destruct results as [|x results]; [discriminate|].
  destruct (List.find _ _); intros [= <-]; split; auto; discriminate.
Qed.

(** The chain that follows when no candidate resolved. *)
Lemma fallback_grows tiles s r s' :
  fallback pg base tiles s = (Ok r, s') ->
  (selection_reason r = "hydration_paa"%string /\
   grows s s' [ScanHidden; Classify (url r)]) \/
  (selection_reason r = "legacy_paa"%string /\ url r <> [] /\
   ((grows s s' [ScanHidden; ScanDirect; Classify (url r)] /\
     exists direct, direct <> [] /\ url r = toAbs direct base) \/
    grows s s' [ScanHidden; ScanDirect; LegacyClick; Classify (url r)])) \/
  (r = NOT_FOUND tiles /\
   grows s s' [ScanHidden; ScanDirect; LegacyClick]).
Proof.
  unfold fallback. intros H.
  apply bind_ok in H as (links & s1 & H1 & H).
  apply grows_parseHydrationLinksFromHTML in H1.
  destruct (List.find _ links) as [hidden|].
  - left. apply bind_ok in H as (det & s2 & H2 & H). injection H as <- <-.
    split; [reflexivity|]. apply grows_analyzeAddendumPdf in H2.
    apply (grows_app _ _ _ [ScanHidden] [Classify hidden] H1 H2).
  - right. apply bind_ok in H as (legacy & s2 & H2 & H).
    apply getAddendumUrl_grows in H2.
    destruct legacy as [|c legacy]; cbn [nonempty] in H.
    + right. injection H as <- <-. split; auto.
      destruct H2 as [(_ & direct & Hd & E)|H2].
      * exfalso. destruct direct as [|d direct]; [congruence|].
        revert E. unfold toAbs.
        destruct (test HTTP_RE (d :: direct)); [discriminate|].
        destruct (starts_with (u16 "//") (d :: direct)); [discriminate|].
        destruct (starts_with (u16 "/") (d :: direct)).
        -- intros E. symmetry in E. apply app_eq_nil in E as [_ E].
           discriminate.
        -- intros E. symmetry in E. apply app_eq_nil in E as [_ E].
           discriminate.
      * apply (grows_app _ _ _ [ScanHidden] [ScanDirect; LegacyClick] H1 H2).
    + left. apply bind_ok in H as (det & s3 & H3 & H). injection H as <- <-.
      apply grows_analyzeAddendumPdf in H3.
      split; [reflexivity|]. split; [discriminate|].
      cbn [url selected].
      destruct H2 as [(H2 & direct & Hd & E)|H2].
      * left. split; [|eauto].
        apply (grows_app _ _ _ [ScanHidden; ScanDirect] _
                 (grows_app _ _ _ [ScanHidden] [ScanDirect] H1 H2) H3).
      * right.
        apply (grows_app _ _ _ [ScanHidden; ScanDirect; LegacyClick] _
                 (grows_app _ _ _ [ScanHidden] _ H1 H2) H3).
Qed.

(** One attempt, step by step. *)
Lemma attempt_inv s r s' :
  attempt pg base s = (Ok r, s') ->
  exists s0 tiles s1 results s2,
    ensureDocumentsOpen pg s = (Ok tt, s0) /\
    listDocumentTiles pg s0 = (Ok tiles, s1) /\
    candidates pg base (List.filter isPAA tiles) ∅ [] s1 = (Ok results, s2) /\
    ((select_result results tiles = Some r /\ s' = s2) \/
     (results = [] /\ fallback pg base tiles s2 = (Ok r, s'))).
Proof.
  unfold attempt. intros H.
  apply bind_ok in H as ([] & s0 & H0 & H).
  apply bind_ok in H as (tiles & s1 & H1 & H).
  apply bind_ok in H as (results & s2 & H2 & H).
  exists s0, tiles, s1, results, s2. repeat split; auto.
  destruct (select_result results tiles) as [x|] eqn:E.
  - left. now injection H as <- <-.
  - right. split; auto. unfold select_result in E.
    destruct results; auto. now destruct (List.find _ _).
Qed.

Lemma attempt_reason s r s' :
  attempt pg base s = (Ok r, s') -> In (selection_reason r) REASONS.
Proof.
  intros H. apply attempt_inv in H
    as (s0 & tiles & s1 & results & s2 & _ & _ & _ & [[H _]|[_ H]]).
  - apply select_result_reason in H as [_ [-> | ->]]; simpl; auto.
  - apply fallback_grows in H as [[-> _]|[[-> _]|[-> _]]]; simpl; auto 6.
Qed.

Lemma attempts_reason retries : forall s r s',
  attempts pg retries base s = (Ok r, s') -> In (selection_reason r) REASONS.
Proof.
  induction retries as [|n IH]; intros s r s' H.
  - now apply attempt_reason in H.
  - cbn [attempts] in H. unfold catch in H.
    destruct (attempt pg base s) as [[x|e] s1] eqn:E.
    + injection H as <- <-. now apply attempt_reason in E.
    + destruct (negb (test CONTEXT_LOST_RE e)); [discriminate|].
      apply bind_ok in H as ([] & s2 & _ & H).
      apply bind_ok in H as ([] & s3 & _ & H). eauto.
Qed.

End Runs.

(** C2, as stated, fails: the first tile of [two_tile_page] resolves to
    a CWCOT addendum and is the outcome, and the second tile is located
    and classified all the same. *)
Lemma second_candidate_examined_after_hit :
  exists r s',
    getBestAddendumAndDetect two_tile_page BASE START = (Ok r, s') /\
    selection_reason r = "paa_cwcot_hit"%string /\ url r = PAA_A /\
    In (Locate (Tile (u16 "Purchase Agreement Addendum") PAA_B 1 []))
       (trace s') /\
    In (Classify PAA_B) (trace s').
Proof.
  eexists. eexists. split; [vm_compute; reflexivity|].
  split; [reflexivity|]. split; [reflexivity|]. simpl. auto 10.
Qed.

(** C2, amended.  An attempt that ends with an outcome has examined
    every candidate tile, in discovery order, whether or not an earlier one
    matched: the locator resolved each tile to an address, and each
    address that was not empty and had not come up before was classified;
    the results are these addresses with their classifications, in this
    order.  The trace holds one location per candidate tile and one
    classification per result.  When some result is a match, the outcome
    is the first such result, with the reason [paa_cwcot_hit]. *)
Theorem candidates_all_examined_first_hit_wins :
  forall W (pg : page W) base s r s',
  attempt pg base s = (Ok r, s') ->
  exists s0 tiles s1 results s2,
    listDocumentTiles pg s0 = (Ok tiles, s1) /\
    candidates pg base (List.filter isPAA tiles) ∅ [] s1 = (Ok results, s2) /\
    Examined pg base (List.filter isPAA tiles) ∅ s1 results s2 /\
    List.filter is_locate (trace s') =
      List.filter is_locate (trace s) ++
      List.map Locate (List.filter isPAA tiles) /\
    (results <> [] ->
     List.filter is_classify (trace s') =
       List.filter is_classify (trace s) ++
       List.map (fun x => Classify (f_url x)) results) /\
    (forall pre hit post, results = pre ++ hit :: post ->
       (forall x, In x pre -> a_isCWCOT (f_det x) = false) ->
       a_isCWCOT (f_det hit) = true ->
       r = selected "paa_cwcot_hit" (f_label hit) (f_url hit) (f_det hit)
             tiles).
Proof.
  intros W pg base s r s' H.
  apply attempt_inv in H as (s0 & tiles & s1 & results & s2 & H0 & H1 & H2 & H).
  exists s0, tiles, s1, results, s2. split; auto. split; auto.
  split.
  { destruct (candidates_examined _ _ _ _ _ _ _ _ H2) as (new & E & Hx).
    simpl in E. now subst new. }
  apply grows_ensureDocumentsOpen in H0.
  pose proof (grows_listDocumentTiles _ _ _ _ H1) as G1.
  destruct (candidates_grows _ _ _ _ _ _ _ _ H2)
    as (new & evs & E & G2 & L & C & S).
  simpl in E. subst new.
  pose proof (grows_app _ _ _ _ _ (grows_app _ _ _ _ _ H0 G1) G2) as G.
  simpl in G.
  destruct H as [[Hsel ->]|[-> Hf]].
  - split; [|split].
    + rewrite (G is_locate), L by reflexivity. reflexivity.
    + intros _. rewrite (G is_classify), C by reflexivity. reflexivity.
    + intros pre hit post -> Hpre Hhit.
      rewrite (select_first_hit pre hit post tiles Hpre Hhit) in Hsel.
      now injection Hsel.
  - split; [|split].
    + assert (Gf : grows s2 s' (List.filter (fun ev => negb (is_locate ev))
                                  [ScanHidden; ScanDirect; LegacyClick;
                                   Classify (url r)]) \/
                   exists evs', grows s2 s' evs' /\
                     List.filter is_locate evs' = []).
      { right. apply fallback_grows in Hf
          as [[_ Gf]|[[_ [_ [[Gf _]|Gf]]]|[_ Gf]]]; eauto. }
      destruct Gf as [Gf|(evs' & Gf & Ef)].
      * rewrite (Gf is_locate), (G is_locate), L by reflexivity.
        simpl. now rewrite app_nil_r.
      * rewrite (Gf is_locate), (G is_locate), L, Ef by reflexivity.
        now rewrite app_nil_r.
    + intros Hne. congruence.
    + intros pre hit post E. destruct pre; discriminate.
Qed.

Lemma candidates_all_examined_first_hit_wins_witness :
  exists r s',
    attempt two_tile_page BASE START = (Ok r, s') /\
    exists tiles s1 results s2,
      Examined two_tile_page BASE (List.filter isPAA tiles) ∅ s1 results
        s2 /\
      List.filter is_locate (trace s') =
        List.filter is_locate (trace START) ++
        List.map Locate (List.filter isPAA tiles).
Proof.
  destruct (attempt two_tile_page BASE START) as [[r|e] s'] eqn:E.
  - exists r, s'. split; [reflexivity|].
    destruct (candidates_all_examined_first_hit_wins unit two_tile_page BASE
                START r s' E)
      as (s0 & tiles & s1 & results & s2 & _ & _ & Hx & H & _).
    exists tiles, s1, results, s2. split; [exact Hx|exact H].
  - exfalso. vm_compute in E. discriminate.
Defined.




End OrchFacts.

(** ** The budget of a page *)

Module BudgetFacts.
Import OrchFacts.
Local Open Scope Z_scope.

Lemma tag_slow_tagged r :
  selection_reason r <> EmptyString -> tag_slow r = r.
Proof. unfold tag_slow. now destruct (selection_reason r). Qed.

Lemma tag_slow_untagged r :
  selection_reason r = EmptyString ->
  selection_reason (tag_slow r) = "paa_slow"%string.
Proof. unfold tag_slow. now intros ->. Qed.

(** What the orchestrator returns carries a reason. *)
Lemma getBest_reason {W} (pg : page W) base s r s' :
  getBestAddendumAndDetect pg base s = (Ok r, s') ->
  In (selection_reason r) REASONS /\ selection_reason r <> EmptyString.
Proof.
  intros H. apply attempts_reason in H. split; auto.
  simpl in H. intuition congruence.
Qed.

(** C4, as stated, fails: a detection that settles after 6 s, with a
    budget of 5 s and an extension of 5 s, is returned with the reason it
    was given, [paa_cwcot_hit], not with a slow marker. *)
Lemma slow_result_keeps_reason :
  exists r s' out,
    getBestAddendumAndDetect two_tile_page BASE START = (Ok r, s') /\
    detectTimeout 5000 < 6000 < detectTimeout 5000
                                + Z.max 5000 (detectTimeout 5000) /\
    pick 5000 (Task (Some 6000) (Ok r)) = Ok out /\
    selection_reason out = "paa_cwcot_hit"%string /\
    selection_reason out <> "paa_slow"%string.
Proof.
  eexists. eexists. eexists. split; [vm_compute; reflexivity|].
  split; [vm_compute; split; reflexivity|].
  split; [vm_compute; reflexivity|]. split; [reflexivity|discriminate].
Qed.

(** C4, amended.  A detection that settles after the budget and before
    the end of the extension is the outcome, and its reason is changed to
    [paa_slow] only if it has none: an outcome of
    [getBestAddendumAndDetect] always has one and is returned as it is.
    A detection that fails in the extension, one that settles after it
    and one that never settles leave the default outcome, whose reason is
    [timeout_no_paa]. *)
Theorem late_result_supersedes_default : forall (cfgMs : Z) (tk : task),
  let budget := detectTimeout cfgMs in
  let extension := Z.max 5000 budget in
  (forall t r, finish tk = Some t -> settled tk = Ok r ->
     budget < t < budget + extension ->
     pick cfgMs tk = Ok (tag_slow r) /\
     (selection_reason r = EmptyString ->
      selection_reason (tag_slow r) = "paa_slow"%string) /\
     (selection_reason r <> EmptyString -> pick cfgMs tk = Ok r) /\
     (forall W (pg : page W) base s s',
        getBestAddendumAndDetect pg base s = (Ok r, s') ->
        pick cfgMs tk = Ok r /\ In (selection_reason r) REASONS)) /\
  (forall t e, finish tk = Some t -> settled tk = Throw e -> budget < t ->
     pick cfgMs tk = Ok defaultDetectResult) /\
  (finish tk = None \/ (exists t, finish tk = Some t /\ budget + extension < t)
   -> pick cfgMs tk = Ok defaultDetectResult) /\
  selection_reason defaultDetectResult = "timeout_no_paa"%string.
Proof.
  intros cfgMs tk budget extension. unfold pick. fold budget extension.
  split; [|split; [|split; [|reflexivity]]].
  - intros t r Ht Hr [H1 H2]. rewrite Ht, Hr. cbn [before].
    replace (t <? budget) with false by (symmetry; apply Z.ltb_ge; lia).
    replace (t <? budget + extension) with true
      by (symmetry; apply Z.ltb_lt; lia).
    split; [reflexivity|]. split; [apply tag_slow_untagged|].
    split.
    + intros Hne. now rewrite tag_slow_tagged.
    + intros W pg base s s' H. apply getBest_reason in H as [Hin Hne].
      now rewrite tag_slow_tagged.
  - intros t e Ht He H. rewrite Ht, He. cbn [before].
    replace (t <? budget) with false by (symmetry; apply Z.ltb_ge; lia).
    now destruct (t <? budget + extension).
  - intros [Hn|(t & Ht & H)].
    + now rewrite Hn.
    + rewrite Ht. cbn [before].
      assert (0 <= extension) by (unfold extension; lia).
      replace (t <? budget) with false by (symmetry; apply Z.ltb_ge; lia).
      now replace (t <? budget + extension) with false
        by (symmetry; apply Z.ltb_ge; lia).
Qed.

Lemma late_result_supersedes_default_witness :
  detectTimeout 5000 < 6000 < detectTimeout 5000
                              + Z.max 5000 (detectTimeout 5000) /\
  pick 5000 (Task (Some 6000) (Ok (NOT_FOUND []))) =
    Ok (tag_slow (NOT_FOUND [])).
Proof.
  assert (H : detectTimeout 5000 < 6000 < detectTimeout 5000
                + Z.max 5000 (detectTimeout 5000))
    by (vm_compute; split; reflexivity).
  split; [exact H|].
  exact (proj1 (proj1 (late_result_supersedes_default 5000
                         (Task (Some 6000) (Ok (NOT_FOUND []))))
                  6000 (NOT_FOUND []) eq_refl eq_refl H)).
Defined.

End BudgetFacts.

(** ** Resolved addresses *)

Module LocatorFacts.
Import RegexFacts SpanFacts StringFacts UrlFacts MonadFacts.

Lemma artifact_typed_app_l x s : artifact_typed s -> artifact_typed (x ++ s).
Proof.
  intros [(pre & w & post & -> & H)|(pre & w & post & -> & H)];
    [left|right]; exists (x ++ pre), w, post; now rewrite <- app_assoc.
Qed.

(** An occurrence that cannot start at the first code unit lies in the
    tail. *)
Lemma occurrence_tail (c : N) (s pre w post : jsstring) :
  c :: s = pre ++ w ++ post -> (forall w', w <> c :: w') -> w <> [] ->
  exists pre', s = pre' ++ w ++ post.
Proof.
  intros E Hw Hne. destruct pre as [|x pre].
  - destruct w as [|a w]; [contradiction|].
    injection E as -> _. now destruct (Hw w).
  - injection E as _ ->. eauto.
Qed.

Lemma canon_46 a : canon a = 46 -> a = 46.
Proof.
  unfold canon, is_lower. destruct ((97 <=? a) && (a <=? 122)) eqn:E; auto.
  apply andb_true_iff in E as [E1 E2]. apply N.leb_le in E1, E2. lia.
Qed.

Lemma pdf_word w : same_ci (u16 ".pdf") w ->
  exists b w', w = 46 :: b :: w' /\ canon b = 80.
Proof.
  unfold same_ci. destruct w as [|a [|b w']]; try discriminate.
  intros [= Ha Hb _]. apply canon_46 in Ha as ->. eauto.
Qed.

Lemma host_word w : same_ci (u16 "imgix.net/resi/globalDocuments/") w ->
  exists a w', w = a :: w' /\ canon a = 73.
Proof.
  unfold same_ci. destruct w as [|a w']; try discriminate.
  intros [= Ha _]. eauto.
Qed.

(** Dropping a leading [./] or [/] keeps the type of an address. *)
Lemma artifact_typed_strip h :
  artifact_typed h -> artifact_typed (strip_dot_slash h).
Proof.
  intros H.
  assert (Hs : forall s, artifact_typed (47 :: s) -> artifact_typed s).
  { intros s [(pre & w & post & E & Hw & Hp)|(pre & w & post & E & Hw)].
    - destruct (pdf_word w Hw) as (b & w' & -> & Hb).
      apply occurrence_tail in E as [pre' ->]; try discriminate.
      left. exists pre', (46 :: b :: w'), post. auto.
    - destruct (host_word w Hw) as (a & w' & -> & Ha).
      apply occurrence_tail in E as [pre' ->]; try discriminate.
      + right. exists pre', (a :: w'), post. auto.
      + intros w'' [= -> _]. discriminate. }
  destruct h as [|c h]; auto.
  destruct (N.eq_dec c 47) as [->|H47].
  { now apply Hs. }
  destruct (N.eq_dec c 46) as [->|H46].
  2: { unfold strip_dot_slash.
       destruct c as [|p]; auto.
       do 6 (destruct p as [p|p|]; auto); congruence. }
  destruct h as [|d h]; auto.
  destruct (N.eq_dec d 47) as [->|Hd].
  2: { unfold strip_dot_slash.
       destruct d as [|p]; auto.
       do 6 (destruct p as [p|p|]; auto); congruence. }
  cbn [strip_dot_slash]. apply Hs.
  destruct H as [(pre & w & post & E & Hw & Hp)|(pre & w & post & E & Hw)].
  - destruct (pdf_word w Hw) as (b & w' & -> & Hb).
    destruct pre as [|x pre].
    + injection E as <- _. discriminate.
    + injection E as _ E. left. exists pre, (46 :: b :: w'), post. auto.
  - destruct (host_word w Hw) as (a & w' & -> & Ha).
    apply occurrence_tail in E as [pre' ->]; try discriminate.
    + right. exists pre', (a :: w'), post. auto.
    + intros w'' [= -> _]. discriminate.
Qed.

(** [toAbs] keeps the type of an address. *)
Lemma artifact_typed_toAbs h base :
  artifact_typed h -> artifact_typed (toAbs h base).
Proof.
  intros H. unfold toAbs. destruct h as [|c h]; auto.
  destruct (test HTTP_RE (c :: h)); auto.
  destruct (starts_with (u16 "//") (c :: h)); [now apply artifact_typed_app_l|].
  destruct (starts_with (u16 "/") (c :: h)); [now apply artifact_typed_app_l|].
  apply artifact_typed_app_l, artifact_typed_app_l.
  now apply artifact_typed_strip.
Qed.

Section Locator.
Context {W : Type}.
Variable pg : page W.

Lemma perf_poll_post (Q : jsstring -> Prop) pause hit k :
  (forall p r, hit p = Some r -> Q r) ->
  (forall s r s', k s = (Ok r, s') -> Q r) ->
  forall rounds s r s',
    perf_poll pg rounds pause hit k s = (Ok r, s') -> Q r.
Proof.
  intros Hhit Hk. induction rounds as [|n IH]; intros s r s' H.
  - eauto.
  - cbn [perf_poll] in H. apply bind_ok in H as (perf & s1 & _ & H).
    destruct (hit perf) as [x|] eqn:E.
    + injection H as <- _. eauto.
    + apply bind_ok in H as ([] & s2 & _ & H). eauto.
Qed.

(** Every address the locator resolves passed [isPdfUrl], or is what
    [toAbs] made of one that did. *)
Lemma clickTileAndSniffPdf_resolved t s r s' :
  clickTileAndSniffPdf pg t s = (Ok r, s') -> resolved r.
Proof.
  unfold clickTileAndSniffPdf, resolved. intros H Hr.
  apply bind_ok in H as ([] & s0 & _ & H).
  destruct (nonempty (href t) && isPdfUrlS (href t)) eqn:E0.
  { injection H as <- _. apply andb_true_iff in E0 as [_ E0].
    now apply artifact_typed_toAbs, isPdfUrlS_iff. }
  apply bind_ok in H as ([] & s1 & _ & H).
  apply bind_ok in H as ([] & s2 & _ & H).
  apply bind_ok in H as ([] & s3 & _ & H).
  apply bind_ok in H as (now & s4 & _ & H).
  destruct (isPdfUrlS now) eqn:E1.
  { injection H as <- _. now apply isPdfUrlS_iff. }
  apply bind_ok in H as (pu & s5 & _ & H).
  destruct (isPdfUrlS pu) eqn:E2.
  { injection H as <- _. now apply isPdfUrlS_iff. }
  apply bind_ok in H as (hit & s6 & _ & H).
  destruct (nonempty hit && isPdfUrlS hit) eqn:E3.
  { injection H as <- _. apply andb_true_iff in E3 as [_ E3].
    now apply isPdfUrlS_iff. }
  apply bind_ok in H as (cdp & s7 & _ & H).
  destruct (nonempty cdp && isPdfUrlS cdp) eqn:E4.
  { injection H as <- _. apply andb_true_iff in E4 as [_ E4].
    now apply isPdfUrlS_iff. }
  revert Hr. revert H.
  apply (perf_poll_post (fun r => r <> [] -> artifact_typed r)).
  - intros p x Hp _. destruct (isPdfUrlS p) eqn:E5; [|discriminate].
    injection Hp as <-. now apply isPdfUrlS_iff.
  - clear. intros s r s' H Hr.
    apply bind_ok in H as (cap & s1 & _ & H).
    destruct (isPdfUrlS (openUrl cap)) eqn:E1.
    { injection H as <- _. now apply artifact_typed_toAbs, isPdfUrlS_iff. }
    destruct (isPdfUrlS (anchorHref cap)) eqn:E2.
    { injection H as <- _. now apply artifact_typed_toAbs, isPdfUrlS_iff. }
    destruct (nonempty (List.hd [] (blobUrls cap))
              && isPdfUrlS (List.hd [] (blobUrls cap))) eqn:E3.
    + injection H as <- _. apply andb_true_iff in E3 as [_ E3].
      now apply isPdfUrlS_iff.
    + injection H as <- _. contradiction.
Qed.

End Locator.

(** C10.  [isPdfUrl] is a total function to the booleans, and it answers
    [true] exactly when its argument converts to a string that either
    holds ".pdf" (in any case) right before its end or before a "?", or holds
    the document host "imgix.net/resi/globalDocuments/" (in any case).
    A falsy argument and one whose conversion throws get [false].  Every
    source of the locator goes through it: an address the locator
    resolves is of that type. *)
Theorem isPdfUrl_total_and_exact : forall u : jsval,
  (isPdfUrl u = true \/ isPdfUrl u = false) /\
  (isPdfUrl u = true <->
   exists s, ToString u = Some s /\ artifact_typed s) /\
  (truthy u = false -> isPdfUrl u = false) /\
  (ToString u = None -> isPdfUrl u = false) /\
  (forall W (pg : page W) t s r s',
     clickTileAndSniffPdf pg t s = (Ok r, s') -> r <> [] ->
     isPdfUrl (VStr r) = true).
Proof.
  intros u. split; [destruct (isPdfUrl u); auto|].
  split; [|split; [|split]].
  - destruct (truthy u) eqn:T.
    + unfold isPdfUrl. rewrite T. cbn [negb].
      destruct (ToString u) as [s|].
      * rewrite typed_iff. split; [eauto|]. now intros (s' & [= <-] & H).
      * split; [discriminate|]. intros (s & H & _). discriminate.
    + assert (F : isPdfUrl u = false) by (unfold isPdfUrl; now rewrite T).
      rewrite F. split; [discriminate|]. intros (s & Hs & H).
      apply typed_iff in H.
      destruct u as [| |[|]|z| |[|c t]|o]; try discriminate;
        try (injection Hs as <-; discriminate).
      simpl in T. apply negb_false_iff, Z.eqb_eq in T as ->.
      injection Hs as <-. discriminate.
  - unfold isPdfUrl. now intros ->.
  - unfold isPdfUrl. intros ->. now destruct (negb (truthy u)).
  - intros W pg t s r s' H Hr. apply (isPdfUrlS_iff r).
    exact (clickTileAndSniffPdf_resolved pg t s r s' H Hr).
Qed.

Lemma isPdfUrl_total_and_exact_witness :
  truthy (VNum 0) = false /\ isPdfUrl (VNum 0) = false.
Proof.
  split; [reflexivity|].
  exact (proj1 (proj2 (proj2 (isPdfUrl_total_and_exact (VNum 0)))) eq_refl).
Defined.

(** C3 on the legacy chain: on [login_popup_page], where the click opens
    the login page in a new window, [getAddendumUrl] returns the address of
    that window as the resolved address, and the orchestrator selects it;
    it is not of the artifact type. *)
Theorem legacy_returns_unchecked_popup :
  (exists s', getAddendumUrl login_popup_page BASE START = (Ok LOGIN, s')) /\
  (exists r s',
     getBestAddendumAndDetect login_popup_page BASE START = (Ok r, s') /\
     selection_reason r = "legacy_paa"%string /\ url r = LOGIN) /\
  LOGIN <> [] /\ isPdfUrlS LOGIN = false /\ ~ artifact_typed LOGIN.
Proof.
  split; [eexists; vm_compute; reflexivity|].
  split.
  { eexists. eexists. split; [vm_compute; reflexivity|split; reflexivity]. }
  split; [discriminate|]. split; [vm_compute; reflexivity|].
  intros H. apply isPdfUrlS_iff in H. revert H. vm_compute. discriminate.
Qed.

End LocatorFacts.

(** ** Addresses made absolute *)

Module AbsFacts.
Import RegexFacts SpanFacts StringFacts UrlFacts LocatorFacts.

Lemma blind_plain r : blind r = true -> plain r = true.
Proof.
  induction r; simpl; auto; try discriminate.
  - intros H. apply andb_true_iff in H as [Ha Hb]. now rewrite IHr1, IHr2.
  - intros H. apply andb_true_iff in H as [Ha Hb]. now rewrite IHr1, IHr2.
Qed.

Lemma span_eps_inv pre w post : span Eps pre w post -> w = [].
Proof.
  unfold span. simpl. intros [H|[]].
  rewrite <- (app_nil_r pre) in H at 1. now apply at_inj in H as [<- _].
Qed.

(** What follows the match of a blind pattern does not matter. *)
Lemma span_blind r : blind r = true -> forall pre w post post',
  span r pre w post -> span r pre w post'.
Proof.
  induction r; intros Hb pre w post post' H; simpl in Hb; try discriminate.
  - apply span_eps_inv in H as ->. apply span_eps.
  - apply span_cls_inv in H as (c & -> & Hc). now apply span_cls.
  - apply andb_true_iff in Hb as [Ha Hb'].
    apply span_seq_inv in H as (w1 & w2 & -> & H1 & H2);
      auto using blind_plain.
    apply span_seq; eauto.
  - apply andb_true_iff in Hb as [Ha Hb'].
    apply span_alt in H as [H|H]; apply span_alt; eauto.
  - apply span_rep in H. now apply span_rep.
  - apply span_bol in H. now apply span_bol.
Qed.

Lemma absolute_app b x : absolute b -> absolute (b ++ x).
Proof.
  unfold absolute. intros H.
  apply test_inv in H as (pre & w & post & -> & H); [|reflexivity].
  rewrite <- !app_assoc. apply test_span.
  now apply (span_blind HTTP_RE eq_refl) with (post := post).
Qed.

(** X1.  [toAbs] leaves an absolute address as it is, and makes a non-empty
    address absolute when the base, its final slashes apart, is absolute;
    so a second [toAbs] changes nothing.  The empty address stays empty. *)
Theorem toAbs_absolute : forall href base : jsstring,
  toAbs [] base = [] /\
  (absolute href -> toAbs href base = href) /\
  (href <> [] -> absolute (strip_trailing_slashes base) ->
   absolute (toAbs href base) /\
   forall base', toAbs (toAbs href base) base' = toAbs href base).
Proof.
  intros href base. split; [reflexivity|].
  assert (Hfix : forall h b, absolute h -> toAbs h b = h).
  { intros h b H. unfold toAbs. destruct h; auto. unfold absolute in H.
    now rewrite H. }
  split; [apply Hfix|].
  intros Hne Hb.
  assert (Ha : absolute (toAbs href base)).
  { unfold toAbs. destruct href as [|c h]; [contradiction|].
    destruct (test HTTP_RE (c :: h)) eqn:E; [exact E|].
    destruct (starts_with (u16 "//") (c :: h)) eqn:E2.
    - apply starts_with_iff in E2 as (post & ->).
      change (u16 "https:" ++ u16 "//" ++ post)
        with (u16 "https://" ++ post).
      now apply absolute_app.
    - destruct (starts_with (u16 "/") (c :: h)); now apply absolute_app. }
  split; [exact Ha|]. intros base'. now apply Hfix.
Qed.

Lemma toAbs_absolute_witness :
  u16 "docs/a.pdf" <> [] /\
  absolute (strip_trailing_slashes (u16 "https://www.auction.com/")) /\
  absolute (toAbs (u16 "docs/a.pdf") (u16 "https://www.auction.com/")).
Proof.
  assert (H1 : u16 "docs/a.pdf" <> []) by discriminate.
  assert (H2 : absolute
                 (strip_trailing_slashes (u16 "https://www.auction.com/")))
    by (vm_compute; reflexivity).
  split; [exact H1|]. split; [exact H2|].
  exact (proj1 (proj2 (proj2 (toAbs_absolute (u16 "docs/a.pdf")
                                (u16 "https://www.auction.com/"))) H1 H2)).
Defined.

(** X2.  [toAbs] keeps the type of an address: what [isPdfUrl] accepts it
    still accepts once made absolute, whatever the base. *)
Theorem toAbs_keeps_artifact_type : forall href base : jsstring,
  isPdfUrlS href = true -> isPdfUrlS (toAbs href base) = true.
Proof.
  intros href base H. apply isPdfUrlS_iff. apply artifact_typed_toAbs.
  now apply isPdfUrlS_iff.
Qed.

Lemma toAbs_keeps_artifact_type_witness :
  isPdfUrlS (u16 "./docs/A.PDF?v=2") = true /\
  isPdfUrlS (toAbs (u16 "./docs/A.PDF?v=2") BASE) = true.
Proof.
  assert (H : isPdfUrlS (u16 "./docs/A.PDF?v=2") = true)
    by (vm_compute; reflexivity).
  split; [exact H|].
  exact (toAbs_keeps_artifact_type (u16 "./docs/A.PDF?v=2") BASE H).
Defined.

End AbsFacts.

(** ** Normal forms of text *)

Module NormFacts.
Import StringFacts.

Section Tidy.
Variable cls : N -> bool.
Hypothesis cls_space : cls 32 = true.

Lemma tidy_collapse s : forall f,
  tidy cls f (collapse_runs cls f s) = true.
Proof.
  induction s as [|c s IH]; intros f; simpl; auto.
  destruct (cls c) eqn:Hc.
  - destruct f; auto. simpl. now rewrite cls_space, IH.
  - simpl. now rewrite Hc.
Qed.

Lemma tidy_fixed s : forall f,
  tidy cls f s = true -> collapse_runs cls f s = s.
Proof.
  induction s as [|c s IH]; intros f H; simpl in *; auto.
  destruct (cls c).
  - apply andb_true_iff in H as [H H2]. apply andb_true_iff in H as [H0 H1].
    apply N.eqb_eq in H0 as ->. apply negb_true_iff in H1 as ->.
    now rewrite IH.
  - now rewrite IH.
Qed.

Lemma tidy_weaken s : tidy cls true s = true -> tidy cls false s = true.
Proof.
  destruct s as [|c s]; simpl; auto. destruct (cls c); auto.
  now rewrite andb_false_r.
Qed.

Lemma tidy_prefix a b : forall f,
  tidy cls f (a ++ b) = true -> tidy cls f a = true.
Proof.
  induction a as [|c a IH]; intros f H; simpl in *; auto.
  destruct (cls c); eauto.
  apply andb_true_iff in H as [H H2]. rewrite H. eauto.
Qed.

Lemma tidy_suffix a b : forall f,
  tidy cls f (a ++ b) = true -> tidy cls false b = true.
Proof.
  induction a as [|c a IH]; intros f H; simpl in *.
  - destruct f; auto. now apply tidy_weaken.
  - destruct (cls c); eauto.
    apply andb_true_iff in H as [_ H]. eauto.
Qed.

Lemma tidy_trim s : tidy cls false s = true -> tidy cls false (trim s) = true.
Proof.
  intros H. destruct (trim_inside s) as (l & t & E). rewrite E in H.
  apply tidy_suffix in H. now apply tidy_prefix in H.
Qed.

Lemma collapse_elements s : forall f c,
  In c (collapse_runs cls f s) -> c = 32 \/ In c s.
Proof.
  induction s as [|x s IH]; intros f c H; simpl in *; auto.
  destruct (cls x); [destruct f|]; simpl in H.
  - apply IH in H. tauto.
  - destruct H as [<-|H]; auto. apply IH in H. tauto.
  - destruct H as [<-|H]; auto. apply IH in H. tauto.
Qed.

End Tidy.

Lemma trim_elements s c : In c (trim s) -> In c s.
Proof.
  intros H. destruct (trim_inside s) as (l & t & E). rewrite E.
  apply in_app_iff. right. apply in_app_iff. auto.
Qed.

Lemma trim_start_edge s : edge_ok (List.head (trim_start s)).
Proof.
  induction s as [|c s IH]; simpl; auto.
  destruct (is_space c) eqn:E; auto.
Qed.

Lemma trim_start_fixed s : edge_ok (List.head s) -> trim_start s = s.
Proof. destruct s as [|c s]; simpl; auto. now intros ->. Qed.

Lemma trim_end_prefix s : exists t, s = trim_end s ++ t.
Proof.
  unfold trim_end. destruct (trim_start_suffix (rev s)) as [l E].
  exists (rev l). rewrite <- rev_app_distr, <- E. now rewrite rev_involutive.
Qed.

(** [trim] leaves no white space at the ends. *)
Lemma trim_trimmed s : trimmed (trim s).
Proof.
  unfold trimmed, trim. split.
  - destruct (trim_end_prefix (trim_start s)) as [t E].
    destruct (trim_end (trim_start s)) as [|c x] eqn:Ex; simpl; auto.
    pose proof (trim_start_edge s) as H. rewrite E in H. exact H.
  - unfold trim_end. rewrite rev_involutive. apply trim_start_edge.
Qed.

Lemma trimmed_fixed s : trimmed s -> trim s = s.
Proof.
  intros [H1 H2]. unfold trim, trim_end.
  rewrite (trim_start_fixed s H1), (trim_start_fixed (rev s) H2).
  apply rev_involutive.
Qed.

Lemma filter_fixed {A} (p : A -> bool) l :
  (forall x, In x l -> p x = true) -> List.filter p l = l.
Proof.
  induction l as [|x l IH]; intros H; simpl; auto.
  rewrite (H x) by (simpl; auto). f_equal. apply IH.
  intros y Hy. apply H. simpl. auto.
Qed.

Lemma map_fixed {A} (g : A -> A) l :
  (forall x, In x l -> g x = x) -> List.map g l = l.
Proof.
  induction l as [|x l IH]; intros H; simpl; auto.
  rewrite (H x) by (simpl; auto). f_equal. apply IH.
  intros y Hy. apply H. simpl. auto.
Qed.

Lemma normText_elements s c : In c (normText s) ->
  c <> 0xAD /\ ((0x2010 <=? c) && (c <=? 0x2015)) = false.
Proof.
  intros H. unfold normText in H. apply trim_elements in H.
  apply collapse_elements in H as [->|H]; [split; [discriminate|reflexivity]|].
  apply in_map_iff in H as (x & <- & H). apply filter_In in H as [_ H].
  apply negb_true_iff, N.eqb_neq in H.
  destruct ((0x2010 <=? x) && (x <=? 0x2015)) eqn:E.
  - split; [discriminate|reflexivity].
  - auto.
Qed.

Lemma normText_tidy s : tidy is_blank false (normText s) = true.
Proof. unfold normText. apply tidy_trim. now apply tidy_collapse. Qed.

Lemma normText_trimmed s : trimmed (normText s).
Proof. unfold normText. apply trim_trimmed. Qed.

Lemma normText_idem s : normText (normText s) = normText s.
Proof.
  unfold normText at 1. rewrite filter_fixed, map_fixed.
  - rewrite (tidy_fixed is_blank _ _ (normText_tidy s)).
    apply trimmed_fixed, normText_trimmed.
  - intros x Hx. apply normText_elements in Hx as [_ ->]. reflexivity.
  - intros x Hx. apply normText_elements in Hx as [Hx _].
    apply negb_true_iff, N.eqb_neq. exact Hx.
Qed.

Lemma norm_tidy s : tidy is_space false (norm s) = true.
Proof. unfold norm, collapse_ws. apply tidy_trim. now apply tidy_collapse. Qed.

Lemma norm_trimmed s : trimmed (norm s).
Proof. unfold norm. apply trim_trimmed. Qed.

Lemma norm_idem s : norm (norm s) = norm s.
Proof.
  unfold norm at 1. unfold collapse_ws.
  rewrite (tidy_fixed is_space _ _ (norm_tidy s)).
  apply trimmed_fixed, norm_trimmed.
Qed.

(** X3.  [normText] gives a normal form: no soft hyphen and no dash of
    U+2010 to U+2015 is left, the blanks left are single spaces, no white
    space stands at either end, and [normText] leaves its own results as
    they are. *)
Theorem normText_normal_form : forall s : jsstring,
  (forall c, In c (normText s) ->
     c <> 0xAD /\ ((0x2010 <=? c) && (c <=? 0x2015)) = false) /\
  tidy is_blank false (normText s) = true /\
  trimmed (normText s) /\
  normText (normText s) = normText s.
Proof.
  intros s. split; [apply normText_elements|].
  split; [apply normText_tidy|]. split; [apply normText_trimmed|].
  apply normText_idem.
Qed.

End NormFacts.

(** ** The shape of a detection *)

Module DetectShape.
Import RegexFacts SpanFacts DetectFacts NormFacts.

Lemma sublist_map_filter {A B} (g : A -> B) (p : A -> bool) l :
  sublist (List.map g (List.filter p l)) (List.map g l).
Proof.
  induction l as [|x l IH]; simpl; [constructor|].
  destruct (p x); simpl; now constructor.
Qed.

Lemma rule_hits_sublist t : sublist (rule_hits t) (List.map rule_k RULES).
Proof. apply sublist_map_filter. Qed.

Lemma filename_key_fresh t : ~ In "filename:CWCOT"%string (rule_hits t).
Proof.
  intros H. apply rule_hits_sound in H as (r & Hr & Hk & _).
  simpl in Hr. repeat destruct Hr as [<-|Hr]; try discriminate. exact Hr.
Qed.

Lemma hits_eq raw fn :
  hits (detectCWCOTInText raw fn) =
  rule_hits (toLowerCase (normText raw)) ++
  (if nonempty fn && test RE_FILENAME fn then ["filename:CWCOT"%string]
   else []).
Proof.
  unfold detectCWCOTInText. cbn [hits].
  destruct fn; cbn [nonempty andb]; [now rewrite app_nil_r|].
  destruct (test RE_FILENAME _); auto. now rewrite app_nil_r.
Qed.

Lemma isCWCOT_eq raw fn :
  isCWCOT (detectCWCOTInText raw fn) =
  negb (Nat.eqb (List.length (hits (detectCWCOTInText raw fn))) 0).
Proof. reflexivity. Qed.

Lemma isCWCOT_iff raw fn :
  isCWCOT (detectCWCOTInText raw fn) = true <->
  hits (detectCWCOTInText raw fn) <> [].
Proof.
  rewrite isCWCOT_eq. destruct (hits _); simpl; split; auto; congruence.
Qed.

Lemma hits_sublist raw fn :
  sublist (hits (detectCWCOTInText raw fn)) HIT_KEYS.
Proof.
  rewrite hits_eq. unfold HIT_KEYS.
  apply sublist_app; [apply rule_hits_sublist|].
  destruct (_ && _); [reflexivity|apply sublist_nil_l].
Qed.

(** X4.  The tags of a detection come in the fixed order of the rules, the
    file-name tag last, each at most once: there are never more than six,
    and the verdict is positive exactly when there is one. *)
Theorem detect_hits_ordered : forall rawText filename : jsstring,
  let d := detectCWCOTInText rawText filename in
  sublist (hits d) HIT_KEYS /\
  NoDup (hits d) /\
  (List.length (hits d) <= 6)%nat /\
  (isCWCOT d = true <-> hits d <> []).
Proof.
  intros raw fn d.
  assert (Hs : sublist (hits d) HIT_KEYS) by apply hits_sublist.
  split; [exact Hs|]. split; [|split].
  - refine (sublist_NoDup _ _ _ Hs). unfold HIT_KEYS. simpl.
    repeat (constructor;
            [rewrite list_elem_of_In; simpl; intuition congruence|]).
    constructor.
  - apply sublist_length in Hs. exact Hs.
  - apply isCWCOT_iff.
Qed.

(** X5.  The file name weighs on a detection in one way only: it adds the tag
    [filename:CWCOT], after the tags of the text, exactly when it holds
    the letters [cwcot] in any case.  The tags of the text and the
    revision are those of the detection without a file name. *)
Theorem detect_filename_adds_one_tag : forall rawText filename : jsstring,
  let d := detectCWCOTInText rawText filename in
  let d0 := detectCWCOTInText rawText [] in
  (In "filename:CWCOT"%string (hits d) <->
     includes_ci (u16 "cwcot") filename) /\
  (hits d = hits d0 \/ hits d = hits d0 ++ ["filename:CWCOT"%string]) /\
  (forall k, k <> "filename:CWCOT"%string ->
     (In k (hits d) <-> In k (hits d0))) /\
  cwcot_rev d = cwcot_rev d0.
Proof.
  intros raw fn d d0.
  assert (E0 : hits d0 = rule_hits (toLowerCase (normText raw))).
  { unfold d0. rewrite hits_eq. apply app_nil_r. }
  assert (Ed : hits d = hits d0 ++
            (if nonempty fn && test RE_FILENAME fn
             then ["filename:CWCOT"%string] else [])).
  { unfold d. now rewrite hits_eq, E0. }
  split; [|split; [|split]].
  - rewrite Ed, E0, in_app_iff. unfold includes_ci. split.
    + intros [H|H]; [now apply filename_key_fresh in H|].
      destruct (nonempty fn && test RE_FILENAME fn) eqn:E; [|destruct H].
      apply andb_true_iff in E as [_ E]. now apply test_liti in E.
    + intros H. right. apply (test_liti "cwcot") in H.
      unfold RE_FILENAME. rewrite H.
      destruct fn; [discriminate|]. simpl. auto.
  - rewrite Ed. destruct (_ && _); auto. left. now rewrite app_nil_r.
  - intros k Hk. rewrite Ed, in_app_iff. split; auto.
    intros [H|H]; auto. destruct (_ && _); simpl in H; intuition congruence.
  - reflexivity.
Qed.

Lemma detect_of_normalized raw fn :
  detectCWCOTInText (normText raw) fn = detectCWCOTInText raw fn.
Proof. unfold detectCWCOTInText. now rewrite normText_idem. Qed.

(** X6.  A text that went through [normText] already is detected as the text
    it came from: the normalization before the call changes nothing. *)
Theorem detect_of_normalized_text : forall rawText filename : jsstring,
  detectCWCOTInText (normText rawText) filename =
  detectCWCOTInText rawText filename.
Proof.
  intros raw fn. unfold detectCWCOTInText.
  now rewrite normText_idem.
Qed.

End DetectShape.

(** ** What the patterns require of a text *)

Module YieldFacts.
Import RegexFacts SpanFacts StringFacts.

Lemma yields_lit s : yields (eq (u16 s)) (lit s).
Proof.
  intros pre w post H. apply span_lit in H as ->.
  exists [], (u16 s), []. now rewrite app_nil_r.
Qed.

Lemma yields_liti s : yields (same_ci (u16 s)) (liti s).
Proof.
  intros pre w post H. apply span_liti in H.
  exists [], w, []. now rewrite app_nil_r.
Qed.

Lemma yields_seq_l P a b : plain a = true -> plain b = true ->
  yields P a -> yields P (Seq a b).
Proof.
  intros Pa Pb Ha pre w post H.
  apply span_seq_inv in H as (w1 & w2 & -> & H1 & H2); auto.
  apply Ha in H1 as (x & m & y & -> & Hm).
  exists x, m, (y ++ w2). now rewrite <- !app_assoc.
Qed.

Lemma yields_seq_r P a b : plain a = true -> plain b = true ->
  yields P b -> yields P (Seq a b).
Proof.
  intros Pa Pb Hb pre w post H.
  apply span_seq_inv in H as (w1 & w2 & -> & H1 & H2); auto.
  apply Hb in H2 as (x & m & y & -> & Hm).
  exists (w1 ++ x), m, y. now rewrite <- !app_assoc.
Qed.

Lemma yields_alt P a b : yields P a -> yields P b -> yields P (Alt a b).
Proof.
  intros Ha Hb pre w post H. apply span_alt in H as [H|H]; eauto.
Qed.

Lemma test_yields P r t : plain r = true -> yields P r ->
  test r t = true -> exists pre m post, t = pre ++ m ++ post /\ P m.
Proof.
  intros Pr Hr H. apply test_inv in H as (pre & w & post & -> & H); auto.
  apply Hr in H as (x & m & y & -> & Hm).
  exists (pre ++ x), m, (y ++ post). now rewrite <- !app_assoc.
Qed.

Lemma test_needs u r t : plain r = true -> yields (eq u) r ->
  test r t = true -> includes u t = true.
Proof.
  intros Pr Hr H.
  destruct (test_yields _ _ _ Pr Hr H) as (pre & m & post & -> & <-).
  apply includes_iff. eauto.
Qed.

End YieldFacts.

Ltac find_piece :=
  first [ solve [apply YieldFacts.yields_lit]
        | solve [apply YieldFacts.yields_liti]
        | solve [apply YieldFacts.yields_alt; find_piece]
        | solve [apply YieldFacts.yields_seq_l;
                 [reflexivity|reflexivity|find_piece]]
        | solve [apply YieldFacts.yields_seq_r;
                 [reflexivity|reflexivity|find_piece]] ].

(** ** The categories of labels *)

Module LabelShape.
Import RegexFacts SpanFacts StringFacts LabelFacts NormFacts YieldFacts.

Section Collapse.
Variable cls : N -> bool.
Hypothesis cls_space : cls 32 = true.

Lemma collapse_includes_word a A f s :
  forallb (fun c => negb (cls c)) (a :: A) = true ->
  includes (a :: A) (collapse_runs cls f s) = true ->
  includes (a :: A) s = true.
Proof.
  intros HA H. apply includes_iff in H as (p & q & E).
  apply (collapse_suffix cls) in E as (s1 & s2 & f' & -> & E).
  simpl in HA. apply andb_true_iff in HA as [Ha HA].
  apply negb_true_iff in Ha. simpl in E.
  apply (collapse_head cls) in E as (sk & s' & -> & _ & E); auto.
  apply (collapse_word cls) in E as (s'' & -> & _); auto.
  apply includes_iff. exists (s1 ++ sk), s''. now rewrite <- !app_assoc.
Qed.

Lemma collapse_nocls A : forallb (fun c => negb (cls c)) A = true ->
  A <> [] -> forall f s,
  collapse_runs cls f (A ++ s) = A ++ collapse_runs cls false s.
Proof.
  induction A as [|a A IH]; intros HA Hne f s; [contradiction|].
  simpl in HA. apply andb_true_iff in HA as [Ha HA].
  apply negb_true_iff in Ha. simpl. rewrite Ha. f_equal.
  destruct A as [|a' A]; [reflexivity|]. apply IH; [exact HA|discriminate].
Qed.

Lemma collapse_in_run ws : forallb cls ws = true -> forall s,
  collapse_runs cls true (ws ++ s) = collapse_runs cls true s.
Proof.
  induction ws as [|c ws IH]; intros H s; auto.
  simpl in H. apply andb_true_iff in H as [Hc H]. simpl. rewrite Hc. auto.
Qed.

Lemma collapse_run ws : forallb cls ws = true -> ws <> [] -> forall s,
  collapse_runs cls false (ws ++ s) = 32 :: collapse_runs cls true s.
Proof.
  destruct ws as [|c ws]; intros H Hne s; [contradiction|].
  simpl in H. apply andb_true_iff in H as [Hc H]. simpl. rewrite Hc.
  f_equal. now apply collapse_in_run.
Qed.

Lemma collapse_pre pre : forall f s, exists x f',
  collapse_runs cls f (pre ++ s) = x ++ collapse_runs cls f' s.
Proof.
  induction pre as [|c pre IH]; intros f s.
  - exists [], f. reflexivity.
  - simpl. destruct (cls c); [destruct f|].
    + apply IH.
    + destruct (IH true s) as (x & f' & ->). now exists (32 :: x), f'.
    + destruct (IH false s) as (x & f' & ->). now exists (c :: x), f'.
Qed.

(** A run of the class between two words comes out as one space. *)
Lemma collapse_words A B ws f s :
  forallb (fun c => negb (cls c)) A = true -> A <> [] ->
  forallb (fun c => negb (cls c)) B = true -> B <> [] ->
  forallb cls ws = true -> ws <> [] ->
  collapse_runs cls f (A ++ ws ++ B ++ s) =
  A ++ [32] ++ collapse_runs cls true (B ++ s).
Proof.
  intros HA NA HB NB Hws Nws.
  rewrite collapse_nocls by auto. now rewrite collapse_run by auto.
Qed.

End Collapse.

Lemma trim_start_keeps c w y : is_space c = false -> forall x,
  exists x', trim_start (x ++ c :: w ++ y) = x' ++ c :: w ++ y.
Proof.
  intros Hc. induction x as [|a x IH]; simpl.
  - rewrite Hc. now exists [].
  - destruct (is_space a); auto. now exists (a :: x).
Qed.

(** A word keeps its place when the text around it is trimmed. *)
Lemma trim_keeps w : edge_ok (List.head w) -> edge_ok (List.head (rev w)) ->
  w <> [] -> forall x y, includes w (trim (x ++ w ++ y)) = true.
Proof.
  intros H1 H2 Hne x y. unfold trim, trim_end.
  destruct w as [|c w]; [contradiction|]. simpl in H1.
  change ((c :: w) ++ y) with (c :: w ++ y).
  destruct (trim_start_keeps c w y H1 x) as [x' ->].
  change (x' ++ c :: w ++ y) with (x' ++ (c :: w) ++ y).
  rewrite !rev_app_distr.
  destruct (rev (c :: w)) as [|d v] eqn:E.
  { apply (f_equal (@List.length N)) in E. rewrite length_rev in E.
    discriminate. }
  simpl in H2. rewrite <- app_assoc.
  change ((d :: v) ++ rev x') with (d :: v ++ rev x').
  destruct (trim_start_keeps d v (rev x') H2 (rev y)) as [y' ->].
  change (y' ++ d :: v ++ rev x') with (y' ++ (d :: v) ++ rev x').
  rewrite <- E, !rev_app_distr, !rev_involutive, <- app_assoc.
  apply includes_iff. eauto.
Qed.

Lemma includes_trim w s : includes w (trim s) = true -> includes w s = true.
Proof.
  intros H. apply includes_iff in H as (p & q & E).
  destruct (trim_inside s) as (l & t & ->). rewrite E.
  apply includes_iff. exists (l ++ p), (q ++ t). now rewrite <- !app_assoc.
Qed.

(** The phrase of [RE_PROHIBITED], with single spaces, in the normalized
    text. *)
Lemma prohibited_normalized L : test RE_PROHIBITED L = true ->
  includes (u16 "prohibited sales addendum") (trim (collapse_ws L)) = true.
Proof.
  intros H. apply test_inv in H as (pre & w & post & -> & H); [|reflexivity].
  unfold RE_PROHIBITED in H. cbn [seqs] in H.
  apply span_seq_inv in H as (w1 & r1 & -> & H1 & H); try reflexivity.
  apply span_seq_inv in H as (ws1 & r2 & -> & S1 & H); try reflexivity.
  apply span_seq_inv in H as (w2 & r3 & -> & H2 & H); try reflexivity.
  apply span_seq_inv in H as (ws2 & w3 & -> & S2 & H3); try reflexivity.
  apply span_lit in H1 as ->. apply span_lit in H2 as ->.
  apply span_lit in H3 as ->.
  apply span_rep in S1 as (W1 & L1 & _). apply span_rep in S2 as (W2 & L2 & _).
  assert (N1 : ws1 <> []) by (intros ->; simpl in L1; lia).
  assert (N2 : ws2 <> []) by (intros ->; simpl in L2; lia).
  unfold collapse_ws. rewrite <- !app_assoc.
  destruct (collapse_pre is_space pre false
              (u16 "prohibited" ++ ws1 ++ u16 "sales" ++ ws2 ++
               u16 "addendum" ++ post)) as (x & f & ->).
  rewrite (collapse_words is_space) by (auto; discriminate).
  rewrite (collapse_nocls is_space) by (auto; discriminate).
  rewrite (collapse_run is_space) by auto.
  rewrite (collapse_nocls is_space) by (auto; discriminate).
  change (u16 "prohibited" ++ [32] ++ u16 "sales" ++ 32 :: u16 "addendum" ++
            collapse_runs is_space false post)
    with (u16 "prohibited sales addendum" ++
            collapse_runs is_space false post).
  apply trim_keeps; try reflexivity. discriminate.
Qed.

Lemma prohibited_tests_agree l :
  test RE_PROHIBITED (toLowerCase l) = test RE_PROHIBITED (norm_label l).
Proof.
  unfold norm_label.
  destruct (test RE_PROHIBITED (toLowerCase l)) eqn:E.
  - apply prohibited_normalized in E. symmetry.
    apply includes_iff in E as (p & q & ->).
    apply (test_span RE_PROHIBITED p (u16 "prohibited sales addendum") q).
    change (u16 "prohibited sales addendum")
      with (u16 "prohibited" ++ [32] ++ u16 "sales" ++ [32] ++ u16 "addendum").
    unfold RE_PROHIBITED. cbn [seqs].
    repeat apply span_seq; try (now apply span_lit);
      now apply span_ws_plus.
  - destruct (test RE_PROHIBITED (trim _)) eqn:E'; auto.
    assert (H : includes (u16 "prohibited sales addendum")
                  (norm (norm (toLowerCase l))) = true)
      by (apply prohibited_normalized; exact E').
    rewrite norm_idem in H.
    apply (prohibited_matches (toLowerCase l)) in H. congruence.
Qed.

Lemma strict_cases l : isPurchaseAgreementAddendumLabel l = true ->
  test RE_PROHIBITED (norm_label l) = false /\
  (test RE_PAA (norm_label l) = true \/
   test RE_ADDENDUM_TO_PA (norm_label l) = true).
Proof.
  unfold isPurchaseAgreementAddendumLabel. cbv zeta.
  destruct (norm_label l) eqn:E; [discriminate|].
  destruct (test RE_PROHIBITED _); [discriminate|].
  intros H. apply orb_true_iff in H. auto.
Qed.

(** X7.  The strict test of the labels and [labelType] agree: a label is of the
    category [paa] exactly when the strict test accepts it and neither
    as-is pattern matches it; the two tests for the prohibited phrase, one
    on the lower-cased label and one on the normalized label, give the same
    answer; and every tile whose label is of the category [paa] is a
    candidate of the orchestrator. *)
Theorem paa_category_is_strict_test : forall l : jsstring,
  test RE_PROHIBITED (toLowerCase l) = test RE_PROHIBITED (norm_label l) /\
  (labelType l = paa <->
     isPurchaseAgreementAddendumLabel l = true /\
     test RE_ASIS (toLowerCase l) = false /\
     test RE_ASIS_PSA (toLowerCase l) = false) /\
  (labelType l = prohibited -> isPurchaseAgreementAddendumLabel l = false) /\
  (forall t, label t = l -> labelType l = paa -> isPAA t = true).
Proof.
  intros l. pose proof (prohibited_tests_agree l) as Hp.
  assert (Hs : isPurchaseAgreementAddendumLabel l = true ->
               test RE_PROHIBITED (toLowerCase l) = false).
  { intros H. apply strict_cases in H as [H _]. congruence. }
  assert (Hpaa : labelType l = paa ->
                 isPurchaseAgreementAddendumLabel l = true).
  { unfold labelType.
    destruct (test RE_PROHIBITED _); [discriminate|].
    destruct (_ || _); [discriminate|].
    destruct (isPurchaseAgreementAddendumLabel l); auto.
    destruct (test RE_ADDENDUM _); [discriminate|].
    destruct (test RE_PSA _); discriminate. }
  split; [exact Hp|]. split; [|split].
  - split.
    + intros H. split; [now apply Hpaa|]. revert H. unfold labelType.
      destruct (test RE_PROHIBITED _); [discriminate|].
      destruct (test RE_ASIS _); [discriminate|].
      destruct (test RE_ASIS_PSA _); [discriminate|]. auto.
    + intros (H & H1 & H2). unfold labelType.
      now rewrite (Hs H), H1, H2, H.
  - unfold labelType.
    destruct (test RE_PROHIBITED (toLowerCase l)) eqn:E.
    + intros _.
      destruct (isPurchaseAgreementAddendumLabel l); [|reflexivity].
      now specialize (Hs eq_refl).
    + destruct (_ || _); [discriminate|].
      destruct (isPurchaseAgreementAddendumLabel l); [discriminate|].
      destruct (test RE_ADDENDUM _); [discriminate|].
      destruct (test RE_PSA _); discriminate.
  - intros t <- H. unfold isPAA. now rewrite (Hpaa H).
Qed.

Lemma paa_category_is_strict_test_witness :
  labelType (u16 "Purchase Agreement Addendum") = paa /\
  isPAA (Tile (u16 "Purchase Agreement Addendum") [] 0 []) = true.
Proof.
  assert (H : labelType (u16 "Purchase Agreement Addendum") = paa)
    by (vm_compute; reflexivity).
  split; [exact H|].
  exact (proj2 (proj2 (proj2 (paa_category_is_strict_test
                                (u16 "Purchase Agreement Addendum"))))
           (Tile (u16 "Purchase Agreement Addendum") [] 0 []) eq_refl H).
Defined.

Lemma needs_addendum r t : plain r = true ->
  yields (eq (u16 "addendum")) r -> test r t = true ->
  includes (u16 "addendum") t = true.
Proof. apply test_needs. Qed.

(** X8.  No kind of addendum without the word: a label whose lower-cased text
    does not hold [addendum] is of the category [psa] or [other], and the
    strict test rejects it. *)
Theorem addendum_categories_need_the_word : forall l : jsstring,
  includes (u16 "addendum") (toLowerCase l) = false ->
  addendum_category (labelType l) = false /\
  isPurchaseAgreementAddendumLabel l = false.
Proof.
  intros l H.
  assert (Hn : forall r, plain r = true ->
                 yields (eq (u16 "addendum")) r ->
                 test r (toLowerCase l) = false).
  { intros r Pr Hr. destruct (test r (toLowerCase l)) eqn:E; auto.
    apply needs_addendum in E; auto. congruence. }
  assert (Hstrict : isPurchaseAgreementAddendumLabel l = false).
  { destruct (isPurchaseAgreementAddendumLabel l) eqn:E; auto.
    apply strict_cases in E as [_ E].
    assert (Hi : includes (u16 "addendum") (norm_label l) = true).
    { destruct E as [E|E]; revert E; apply needs_addendum;
        try reflexivity; unfold RE_PAA, RE_ADDENDUM_TO_PA; cbn [seqs];
        find_piece. }
    unfold norm_label in Hi. apply includes_trim in Hi.
    apply (collapse_includes_word is_space) in Hi; [|reflexivity..].
    change (includes (u16 "addendum") (toLowerCase l) = true) in Hi.
    congruence. }
  split; [|exact Hstrict].
  unfold labelType.
  rewrite (Hn RE_PROHIBITED), (Hn RE_ASIS), (Hn RE_ASIS_PSA), Hstrict,
    (Hn RE_ADDENDUM);
    try reflexivity;
    try (unfold RE_PROHIBITED, RE_ASIS, RE_ASIS_PSA, RE_ADDENDUM;
         cbn [seqs]; find_piece).
  simpl. now destruct (test RE_PSA _).
Qed.

Lemma addendum_categories_need_the_word_witness :
  includes (u16 "addendum")
    (toLowerCase (u16 "Review Purchase Agreement")) = false /\
  addendum_category (labelType (u16 "Review Purchase Agreement")) = false.
Proof.
  assert (H : includes (u16 "addendum")
                (toLowerCase (u16 "Review Purchase Agreement")) = false)
    by (vm_compute; reflexivity).
  split; [exact H|].
  exact (proj1 (addendum_categories_need_the_word _ H)).
Defined.

End LabelShape.

(** ** The tiles of a pass *)

Module TileShape.
Import TileFacts NormFacts.

Section Pass.
Variable lower : jsstring -> jsstring.

Lemma made_from_step a n id t : In (id, t) (tiles (pushTile lower a n)) ->
  In (id, t) (tiles a) \/ (nid n = id /\ made_from t n).
Proof.
  unfold pushTile. destruct (bool_decide _); [auto|].
  destruct (norm (node_text n)) eqn:E; cbn [tiles]; [auto|].
  intros H. apply in_app_iff in H as [H|[H|[]]]; [auto|].
  injection H as <- <-. right. unfold made_from. cbn. now rewrite E.
Qed.

Lemma made_from_collect nodes : forall id t,
  In (id, t) (tiles (collect lower nodes)) ->
  exists n, In n nodes /\ nid n = id /\ made_from t n.
Proof.
  induction nodes as [|n nodes IH] using rev_ind; intros id t H.
  - destruct H.
  - rewrite collect_snoc in H.
    apply made_from_step in H as [H|[Hid Hf]].
    + apply IH in H as (m & Hm & Hid & Hf).
      exists m. rewrite in_app_iff. auto.
    + exists n. rewrite in_app_iff. simpl. auto.
Qed.

(** The tiles counted under a key before a position carry the ordinals
    below their number. *)
Lemma count_key_reached k l : forall i m,
  (m < count_key lower k (take i l))%nat ->
  exists j p, (j < i)%nat /\ l !! j = Some p /\ label_key lower p = k /\
    count_key lower k (take j l) = m.
Proof.
  induction i as [|i IH]; intros m Hm.
  - rewrite take_0 in Hm. unfold count_key in Hm. simpl in Hm. lia.
  - destruct (l !! i) as [p|] eqn:Hi.
    + rewrite (take_S_r _ _ _ Hi), count_key_app, count_key_one in Hm.
      destruct (Nat.lt_ge_cases m (count_key lower k (take i l))) as [Hlt|Hge].
      * destruct (IH m Hlt) as (j & q & Hj & Hq & Hk & Hc).
        exists j, q. repeat split; auto.
      * destruct (bool_decide (label_key lower p = k)) eqn:Hd; [|lia].
        apply bool_decide_eq_true in Hd.
        exists i, p. repeat split; auto. lia.
    + apply lookup_ge_None in Hi.
      rewrite take_ge in Hm by lia.
      rewrite <- (take_ge l i) in Hm by lia.
      destruct (IH m Hm) as (j & q & Hj & Hq & Hk & Hc).
      exists j, q. repeat split; auto.
Qed.

Lemma pushTile_seen a n : nid n ∈ seenNodes a -> pushTile lower a n = a.
Proof.
  intros H. unfold pushTile. now rewrite bool_decide_eq_true_2.
Qed.

Lemma seen_again nodes more :
  (forall n, In n more -> exists m, In m nodes /\ nid m = nid n) ->
  fold_left (pushTile lower) more (collect lower nodes) = collect lower nodes.
Proof.
  intros H. induction more as [|n more IH]; simpl; auto.
  rewrite pushTile_seen.
  - apply IH. intros x Hx. apply H. simpl. auto.
  - apply (inv_seen _ _ _ (Inv_collect lower nodes)). apply H. simpl. auto.
Qed.

Lemma tile_labels_normal nodes t : In t (tiles_of_nodes lower nodes) ->
  label t <> [] /\ norm (label t) = label t /\
  exists n, In n nodes /\ made_from t n.
Proof.
  unfold tiles_of_nodes. intros Ht.
  apply in_map_iff in Ht as ([id t'] & <- & Ht). cbn [snd].
  destruct (inv_from _ _ _ (Inv_collect lower nodes) id t' Ht)
    as (_ & _ & _ & Hne).
  destruct (made_from_collect nodes id t' Ht) as (n & Hn & _ & Hf).
  split; [exact Hne|]. split; [|eauto].
  destruct Hf as (-> & _). apply norm_idem.
Qed.

End Pass.

(** X9.  The tiles of a pass: each carries the normalized text of a node the
    selectors found, which is not empty and is its own normal form, and
    the address and identifier read off that node; no two tiles share
    the lower case of their label and their ordinal; under a lower-cased
    label the ordinals come without gaps, counted from zero; and there are
    no more tiles than nodes found.  This holds whatever function
    [toLowerCase] of the engine is. *)
Theorem tile_keys_identify :
  forall (lower : jsstring -> jsstring) (nodes : list node),
  let ts := tiles_of_nodes lower nodes in
  (forall t, In t ts ->
     label t <> [] /\ norm (label t) = label t /\
     exists n, In n nodes /\ made_from t n) /\
  NoDup (List.map (tile_key lower) ts) /\
  (forall i t k, ts !! i = Some t -> (k < ordinal t)%nat ->
     exists j t', (j < i)%nat /\ ts !! j = Some t' /\
       lower (label t') = lower (label t) /\ ordinal t' = k) /\
  (List.length ts <= List.length nodes)%nat.
Proof.
  intros lower nodes ts. pose proof (Inv_collect lower nodes) as I.
  set (out := tiles (collect lower nodes)) in *.
  assert (Ets : ts = List.map snd out) by reflexivity.
  assert (Hlook : forall i t, ts !! i = Some t ->
            exists id, out !! i = Some (id, t)).
  { intros i t H. rewrite Ets, list_lookup_fmap in H.
    destruct (out !! i) as [[id t']|] eqn:E; [|discriminate].
    injection H as <-. eauto. }
  split; [|split; [|split]].
  - apply tile_labels_normal.
  - apply NoDup_alt. intros i j [k o] Hi Hj.
    rewrite list_lookup_fmap in Hi, Hj.
    destruct (ts !! i) as [t1|] eqn:E1; [|discriminate].
    destruct (ts !! j) as [t2|] eqn:E2; [|discriminate].
    injection Hi as Hk1 Ho1. injection Hj as Hk2 Ho2.
    destruct (Hlook _ _ E1) as [id1 L1]. destruct (Hlook _ _ E2) as [id2 L2].
    pose proof (inv_ordinal _ _ _ I _ _ _ L1) as O1.
    pose proof (inv_ordinal _ _ _ I _ _ _ L2) as O2.
    unfold label_key in O1, O2. cbn [snd] in O1, O2.
    rewrite Hk1 in O1. rewrite Hk2 in O2.
    assert (Hlt : forall a b p, (a < b)%nat -> out !! a = Some p ->
              label_key lower p = k ->
              (count_key lower k (take a out)
               < count_key lower k (take b out))%nat).
    { intros a b p Hab Ha Hp.
      pose proof (count_key_take_le lower k out (S a) b Hab) as Hle.
      rewrite (take_S_r _ _ _ Ha), count_key_app, count_key_one in Hle.
      rewrite bool_decide_eq_true_2 in Hle by exact Hp. lia. }
    destruct (Nat.lt_trichotomy i j) as [Hij|[->|Hji]]; auto.
    + pose proof (Hlt i j _ Hij L1 Hk1). unfold out in *. lia.
    + pose proof (Hlt j i _ Hji L2 Hk2). unfold out in *. lia.
  - intros i t k Hi Hk. destruct (Hlook _ _ Hi) as [id L].
    pose proof (inv_ordinal _ _ _ I _ _ _ L) as O.
    rewrite O in Hk.
    destruct (count_key_reached _ _ _ _ _ Hk)
      as (j & [id' t'] & Hj & Lj & Kj & Cj).
    exists j, t'. split; [exact Hj|]. split; [|split].
    + rewrite Ets, list_lookup_fmap. unfold out. now rewrite Lj.
    + exact Kj.
    + rewrite (inv_ordinal _ _ _ I _ _ _ Lj), Kj. exact Cj.
  - rewrite Ets, length_map, <- (length_map fst),
      <- (length_map nid nodes).
    apply NoDup_incl_length.
    + apply NoDup_ListNoDup, (inv_nodup _ _ _ I).
    + intros id Hid. apply in_map_iff in Hid as ([id' t] & <- & Ht).
      apply (inv_from _ _ _ I) in Ht as (n & Hn & <- & _).
      cbn [fst]. apply in_map_iff. eauto.
Qed.

Lemma tile_keys_identify_witness :
  In (Tile (u16 "Purchase Agreement Addendum") PAA_B 1 [])
    (tiles_of_nodes toLowerCase two_tiles) /\
  norm (u16 "Purchase Agreement Addendum")
    = u16 "Purchase Agreement Addendum".
Proof.
  assert (H : In (Tile (u16 "Purchase Agreement Addendum") PAA_B 1 [])
                (tiles_of_nodes toLowerCase two_tiles))
    by (vm_compute; right; left; reflexivity).
  split; [exact H|].
  exact (proj1 (proj2 (proj1 (tile_keys_identify toLowerCase two_tiles) _ H))).
Defined.

(** X10.  A node the pass has met adds nothing when a later selector or scope
    finds it again: the tiles are those of the nodes met first. *)
Theorem rescan_adds_nothing :
  forall (lower : jsstring -> jsstring) (nodes more : list node),
  (forall n, In n more -> exists m, In m nodes /\ nid m = nid n) ->
  tiles_of_nodes lower (nodes ++ more) = tiles_of_nodes lower nodes.
Proof.
  intros lower nodes more H. unfold tiles_of_nodes.
  replace (collect lower (nodes ++ more))
    with (fold_left (pushTile lower) more (collect lower nodes))
    by (unfold collect; now rewrite fold_left_app).
  now rewrite seen_again.
Qed.

Lemma rescan_adds_nothing_witness :
  (forall n, In n (rev two_tiles) ->
     exists m, In m two_tiles /\ nid m = nid n) /\
  tiles_of_nodes toLowerCase (two_tiles ++ rev two_tiles) =
    tiles_of_nodes toLowerCase two_tiles.
Proof.
  assert (H : forall n, In n (rev two_tiles) ->
                exists m, In m two_tiles /\ nid m = nid n).
  { intros n Hn. exists n. split; [|reflexivity]. apply in_rev. exact Hn. }
  split; [exact H|].
  exact (rescan_adds_nothing toLowerCase two_tiles (rev two_tiles) H).
Defined.

End TileShape.

(** ** What the operations return *)

Module PostFacts.
Import MonadFacts.

Section Returns.
Context {W : Type}.

Lemma returns_ret {A} (a : A) (Q : A -> Prop) :
  Q a -> returns (ret a : M W A) Q.
Proof. intros H s x s' [= <- <-]. exact H. Qed.

Lemma returns_throw {A} e (Q : A -> Prop) : returns (throw e : M W A) Q.
Proof. intros s x s' H. discriminate. Qed.

Lemma returns_weaken {A} (m : M W A) (P Q : A -> Prop) :
  returns m P -> (forall a, P a -> Q a) -> returns m Q.
Proof. intros H HPQ s a s' E. eauto. Qed.

Lemma returns_bind {A B} (m : M W A) (k : A -> M W B) P Q :
  returns m P -> (forall a, P a -> returns (k a) Q) -> returns (bind m k) Q.
Proof.
  intros Hm Hk s b s' H. apply bind_ok in H as (a & s1 & H1 & H2).
  exact (Hk a (Hm _ _ _ H1) _ _ _ H2).
Qed.

Lemma returns_then {A B} (m : M W A) (k : A -> M W B) Q :
  (forall a, returns (k a) Q) -> returns (bind m k) Q.
Proof.
  intros Hk. apply returns_bind with (P := fun _ => True); auto.
  intros s a s' _. exact I.
Qed.

Lemma returns_catch {A} (m : M W A) h Q :
  returns m Q -> (forall e, returns (h e) Q) -> returns (catch m h) Q.
Proof.
  intros Hm Hh s a s' H. unfold catch in H.
  destruct (m s) as [[x|e] s1] eqn:E.
  - injection H as <- <-. eauto.
  - eapply Hh. exact H.
Qed.

Lemma returns_or_else {A} (m : M W A) d (Q : A -> Prop) :
  returns m Q -> Q d -> returns (or_else m d) Q.
Proof.
  intros Hm Hd. apply returns_catch; auto. intros e. now apply returns_ret.
Qed.

Lemma returns_call {A} (p : W -> outcome A * W) (Q : A -> Prop) :
  (forall w a w', p w = (Ok a, w') -> Q a) -> returns (call p) Q.
Proof.
  intros H s a s' E. unfold call in E.
  destruct (p (world s)) as [o w'] eqn:Ep. injection E as -> <-. eauto.
Qed.

Lemma returns_call_ {A} (p : W -> A * W) (Q : A -> Prop) :
  (forall w, Q (fst (p w))) -> returns (call_ p) Q.
Proof.
  intros H s a s' E. unfold call_ in E. specialize (H (world s)).
  destruct (p (world s)) as [x w']. injection E as <- <-. exact H.
Qed.

Lemma returns_read {A} (p : W -> A) (Q : A -> Prop) :
  (forall w, Q (p w)) -> returns (read p) Q.
Proof. intros H s a s' [= <- <-]. apply H. Qed.

Lemma returns_safe_from {A} (fn : M W A) tries wait Q :
  returns fn Q -> forall left i last,
  returns (safe_from fn tries wait i left last) Q.
Proof.
  intros Hfn. induction left as [|n IH]; intros i last.
  - apply returns_throw.
  - cbn [safe_from]. apply returns_catch; auto. intros e.
    destruct (includes PAGE_CLOSED e); [apply returns_throw|].
    destruct (_ || _); [apply returns_throw|].
    apply returns_then. intros _. apply IH.
Qed.

Lemma returns_safe' {A} (fn : M W A) Q : returns fn Q -> returns (safe' fn) Q.
Proof. intros H. now apply returns_safe_from. Qed.


End Returns.

End PostFacts.

(** ** The matches of a global pattern *)

Module MatchFacts.
Import RegexFacts SpanFacts.

Lemma matched_at pre w post :
  matched (at_ pre (w ++ post)) (at_ (pre ++ w) post) = w.
Proof.
  unfold matched, at_. cbn [consumed].
  rewrite !length_rev, length_app.
  replace (List.length pre + List.length w - List.length pre)%nat
    with (List.length (rev w)) by (rewrite length_rev; lia).
  rewrite rev_app_distr, firstn_app, firstn_all, Nat.sub_diag.
  cbn [firstn]. rewrite app_nil_r. apply rev_involutive.
Qed.

(** Each match of a pattern with the [g] flag is a match of the pattern
    somewhere in the text. *)
Lemma match_all_from_spans r : plain r = true -> forall fuel pre s m,
  In m (match_all_from fuel r (rev pre) s) ->
  exists p q, pre ++ s = p ++ m ++ q /\ span r p m q.
Proof.
  intros Pr. induction fuel as [|fuel IH]; intros pre s m H; [destruct H|].
  cbn [match_all_from] in H.
  destruct (search r (rev pre) s) as [[st0 st]|] eqn:E; [|destruct H].
  apply search_some in E as (a & b & -> & -> & Hin).
  apply run_span in Hin as (w & post & -> & -> & Hs); auto.
  destruct H as [H|H].
  - rewrite matched_at in H. subst m.
    exists (pre ++ a), post. split; auto. now rewrite <- !app_assoc.
  - unfold at_ in H. cbn [consumed rest] in H.
    apply IH in H as (p & q & E & Hm).
    exists p, q. split; auto. rewrite <- E. now rewrite <- !app_assoc.
Qed.

Lemma match_all_spans r s m : plain r = true -> In m (match_all r s) ->
  exists p q, s = p ++ m ++ q /\ span r p m q.
Proof.
  intros Pr H. unfold match_all in H.
  change (@nil N) with (rev (@nil N)) in H.
  now apply match_all_from_spans in H.
Qed.

Lemma str_eqb_eq a : forall b, str_eqb a b = true <-> a = b.
Proof.
  induction a as [|x a IH]; intros [|y b]; simpl; split; try easy.
  - intros H. apply andb_true_iff in H as [H1 H2].
    apply N.eqb_eq in H1. apply IH in H2. congruence.
  - intros [= -> ->]. rewrite N.eqb_refl. now apply IH.
Qed.

Lemma set_values_from l : forall acc,
  NoDup acc ->
  NoDup (fold_left
           (fun acc u => if existsb (str_eqb u) acc then acc else acc ++ [u])
           l acc) /\
  forall u, In u (fold_left
           (fun acc u => if existsb (str_eqb u) acc then acc else acc ++ [u])
           l acc) <-> In u acc \/ In u l.
Proof.
  induction l as [|x l IH]; intros acc Hn; simpl.
  - split; auto. intros u. tauto.
  - destruct (existsb (str_eqb x) acc) eqn:E.
    + destruct (IH acc Hn) as [H1 H2]. split; auto.
      intros u. rewrite H2. split; [tauto|].
      intros [H|[<-|H]]; auto. left.
      apply existsb_exists in E as (y & Hy & Exy).
      apply str_eqb_eq in Exy. now subst.
    + assert (Hn' : NoDup (acc ++ [x])).
      { apply NoDup_app. split; auto. split; [|apply NoDup_singleton].
        intros y Hy Hx. apply list_elem_of_In in Hx as [<-|[]].
        apply list_elem_of_In in Hy.
        assert (existsb (str_eqb x) acc = true); [|congruence].
        apply existsb_exists. exists x. split; auto. now apply str_eqb_eq. }
      destruct (IH _ Hn') as [H1 H2]. split; auto.
      intros u. rewrite H2, in_app_iff. simpl. tauto.
Qed.

(** The values of a set: each value once, and no other. *)
Lemma set_values_spec l :
  NoDup (set_values l) /\ forall u, In u (set_values l) <-> In u l.
Proof.
  unfold set_values.
  destruct (set_values_from l [] (NoDup_nil_2 (A := jsstring))) as [H1 H2].
  split; auto. intros u. rewrite H2. simpl. tauto.
Qed.

End MatchFacts.

(** ** The outcomes of the orchestrator *)

Module OutcomeFacts.
Import RegexFacts SpanFacts UrlFacts MonadFacts PostFacts MatchFacts.
Import DetectShape TileShape OrchFacts LocatorFacts.

Lemma sound_detection raw fn sample :
  (List.length sample <= 600)%nat ->
  sound_analysis
    (Analysis (isCWCOT (detectCWCOTInText raw fn))
       (hits (detectCWCOTInText raw fn))
       (cwcot_rev (detectCWCOTInText raw fn)) sample "pdfjs" fn).
Proof.
  intros H. constructor; cbn; auto.
  - apply isCWCOT_iff.
  - apply hits_sublist.
Qed.

Lemma selected_coherent reason lbl u det tiles :
  sound_analysis det -> u <> [] -> labelled tiles ->
  reason <> "paa_not_found"%string ->
  (reason = "paa_cwcot_hit"%string -> a_isCWCOT det = true) ->
  (reason = "paa_no_cwcot"%string -> a_isCWCOT det = false) ->
  (reason = "paa_cwcot_hit"%string \/ reason = "paa_no_cwcot"%string ->
   artifact_typed u /\ In lbl (List.map label tiles)) ->
  coherent (selected reason lbl u det tiles).
Proof.
  intros [Hv Hh Hs Hsrc] Hu Hl Hr Hhit Hmiss Htile.
  constructor; cbn; auto.
  - split; intros H; congruence.
  - intros H. contradiction.
  - intros H. destruct (Htile H) as [Ht Hin]. split; eauto.
  - exists (List.map label tiles). rewrite length_map.
    split; [reflexivity|]. split; [reflexivity|].
    intros l Hin. apply in_map_iff in Hin as (t & <- & Ht). now apply Hl.
Qed.

Lemma not_found_coherent tiles : labelled tiles -> coherent (NOT_FOUND tiles).
Proof.
  intros Hl. constructor; cbn; auto; try discriminate.
  - split; [discriminate|]. intros H. now contradiction H.
  - split; auto.
  - intros H. now contradiction H.
  - intros [H|H]; discriminate.
  - apply sublist_nil_l.
  - lia.
  - exists (List.map label tiles). rewrite length_map.
    split; [reflexivity|]. split; [reflexivity|].
    intros l Hin. apply in_map_iff in Hin as (t & <- & Ht). now apply Hl.
Qed.

Section Outcomes.
Context {W : Type}.
Variable pg : page W.
Variable base : jsstring.

Lemma analyze_sound u : returns (analyzeAddendumPdf pg base u) sound_analysis.
Proof.
  unfold analyzeAddendumPdf. apply returns_then. intros _.
  apply returns_then. intros _. apply returns_catch.
  - apply returns_then. intros pdfText. apply returns_ret.
    apply sound_detection. rewrite length_firstn. lia.
  - intros e. apply returns_then. intros _. apply returns_throw.
Qed.

Lemma locate_resolved t : returns (clickTileAndSniffPdf pg t) resolved.
Proof. intros s r s' H. now apply clickTileAndSniffPdf_resolved in H. Qed.

Lemma kept_nil ts : kept ts ∅ [].
Proof. constructor; [constructor|]. intros x []. Qed.

Lemma kept_snoc ts seen results t u det :
  kept ts seen results -> In t ts -> u <> [] -> u ∉ seen ->
  artifact_typed u -> sound_analysis det ->
  kept ts ({[u]} ∪ seen) (results ++ [Found (label t) u det]).
Proof.
  intros [Hn He] Ht Hu Hs Ha Hd. constructor.
  - rewrite map_app. apply NoDup_app. split; [exact Hn|].
    split; [|apply NoDup_singleton].
    intros y Hy Hy'. apply list_elem_of_In in Hy' as [<-|[]].
    apply list_elem_of_In, in_map_iff in Hy as (x & Hx & Hin).
    apply He in Hin as (_ & Hin & _). cbn [f_url] in Hx. congruence.
  - intros x Hx. apply in_app_iff in Hx as [Hx|[<-|[]]].
    + destruct (He x Hx) as (H1 & H2 & H3 & H4 & H5).
      split; [exact H1|]. split; [|auto].
      apply elem_of_union. now right.
    + cbn. split; [exact Hu|]. split.
      { apply elem_of_union. left. now apply elem_of_singleton. }
      split; [exact Ha|]. split; [exact Hd|]. eauto.
Qed.

Lemma candidates_kept ts0 : forall ts seen results,
  incl ts ts0 -> kept ts0 seen results ->
  returns (candidates pg base ts seen results)
    (fun out => exists seen', kept ts0 seen' out).
Proof.
  induction ts as [|t ts IH]; intros seen results Hi Hk.
  - apply returns_ret. eauto.
  - assert (Hi' : incl ts ts0) by (intros x Hx; apply Hi; simpl; auto).
    cbn [candidates].
    apply returns_bind with (P := resolved); [apply locate_resolved|].
    intros u Hres. apply returns_then. intros _.
    destruct (negb (nonempty u) || bool_decide (u ∈ seen)) eqn:E.
    + now apply IH.
    + apply orb_false_iff in E as [E1 E2].
      apply negb_false_iff in E1. apply bool_decide_eq_false in E2.
      assert (Hu : u <> []) by (intros ->; discriminate).
      apply returns_bind with (P := sound_analysis); [apply analyze_sound|].
      intros det Hdet. apply IH; auto.
      apply kept_snoc; auto. apply Hi. simpl. auto.
Qed.

Lemma candidates_length : forall ts seen results,
  returns (candidates pg base ts seen results)
    (fun out =>
       (List.length out <= List.length results + List.length ts)%nat).
Proof.
  induction ts as [|t ts IH]; intros seen results.
  - apply returns_ret. simpl. lia.
  - cbn [candidates]. apply returns_then. intros u.
    apply returns_then. intros _.
    destruct (negb (nonempty u) || bool_decide (u ∈ seen)).
    + eapply returns_weaken; [apply IH|]. intros out H. simpl in *. lia.
    + apply returns_then. intros det.
      eapply returns_weaken; [apply IH|]. intros out H.
      rewrite length_app in H. simpl in *. lia.
Qed.

Lemma select_coherent ts seen results tiles r :
  kept ts seen results -> incl ts tiles -> labelled tiles ->
  select_result results tiles = Some r -> coherent r.
Proof.
  intros [_ He] Hi Hl H. unfold select_result in H.
  destruct results as [|first rest]; [discriminate|].
  assert (Hpick : forall x reason,
            In x (first :: rest) ->
            (reason = "paa_cwcot_hit"%string /\ a_isCWCOT (f_det x) = true) \/
            (reason = "paa_no_cwcot"%string /\ a_isCWCOT (f_det x) = false) ->
            coherent (selected reason (f_label x) (f_url x) (f_det x) tiles)).
  { intros x reason Hx Hr.
    destruct (He x Hx) as (H1 & _ & H3 & H4 & t & Ht & Hlab).
    apply selected_coherent; auto.
    - destruct Hr as [[-> _]|[-> _]]; discriminate.
    - intros ->. destruct Hr as [[_ Hr]|[Hr _]]; [auto|discriminate].
    - intros ->. destruct Hr as [[Hr _]|[_ Hr]]; [discriminate|auto].
    - intros _. split; auto. rewrite Hlab. apply in_map. auto. }
  destruct (List.find _ (first :: rest)) as [hit|] eqn:F;
    injection H as <-.
  - apply find_some in F as [Hin Hhit]. apply Hpick; auto.
  - apply Hpick; [simpl; auto|]. right. split; auto.
    apply (find_none _ _ F). simpl. auto.
Qed.

Lemma paa_url_nonempty u :
  test RE_PAA_URL u || test RE_ADDENDUM_TO_PA_URL u = true -> u <> [].
Proof. intros H ->. discriminate. Qed.

Lemma fallback_coherent tiles : labelled tiles ->
  returns (fallback pg base tiles) coherent.
Proof.
  intros Hl. unfold fallback. apply returns_then. intros links.
  destruct (List.find _ links) as [hidden|] eqn:F.
  - apply find_some in F as [_ F]. apply paa_url_nonempty in F.
    apply returns_bind with (P := sound_analysis); [apply analyze_sound|].
    intros det Hdet. apply returns_ret.
    apply selected_coherent; auto; try discriminate.
    intros [H|H]; discriminate.
  - apply returns_then. intros legacy.
    destruct (nonempty legacy) eqn:E.
    + apply returns_bind with (P := sound_analysis); [apply analyze_sound|].
      intros det Hdet. apply returns_ret.
      apply selected_coherent; auto; try discriminate.
      * intros ->. discriminate.
      * intros [H|H]; discriminate.
    + apply returns_ret. now apply not_found_coherent.
Qed.

Lemma tiles_labelled : returns (listDocumentTiles pg) labelled.
Proof.
  unfold listDocumentTiles. apply returns_or_else.
  - apply returns_safe'. apply returns_then. intros nodes.
    apply returns_ret. intros t Ht.
    apply tile_labels_normal in Ht as (H1 & H2 & _). auto.
  - intros t [].
Qed.

Lemma attempt_coherent : returns (attempt pg base) coherent.
Proof.
  unfold attempt. apply returns_then. intros _.
  apply returns_bind with (P := labelled); [apply tiles_labelled|].
  intros tiles Hl.
  apply returns_bind
    with (P := fun out => exists seen, kept (List.filter isPAA tiles) seen out).
  - apply candidates_kept; [apply incl_refl|apply kept_nil].
  - intros results [seen Hk].
    destruct (select_result results tiles) as [r|] eqn:E.
    + apply returns_ret. eapply select_coherent; eauto.
      intros t Ht. now apply filter_In in Ht as [Ht _].
    + now apply fallback_coherent.
Qed.

Lemma attempts_coherent retries : returns (attempts pg retries base) coherent.
Proof.
  induction retries as [|n IH]; cbn [attempts].
  - apply attempt_coherent.
  - apply returns_catch; [apply attempt_coherent|]. intros e.
    destruct (negb _); [apply returns_throw|].
    apply returns_then. intros _. apply returns_then. intros _. exact IH.
Qed.

End Outcomes.

(** X11.  Whatever the page, an analysis of a document that returns gives a
    verdict that is positive exactly when it has a tag, tags in the fixed
    order of the rules, a sample of at most 600 code units and the source
    [pdfjs].  It is made of the text the reader answered for that address, in
    the attempt of [safe] that did not fail, after fewer than five attempts
    that failed with an error [safe] retries: the sample is the head of the
    normalized text, the tags and the revision are those of that text, the
    file name is that of the address.  When the extraction of the text fails
    with an error that [safe] does not retry, that error is the error of the
    analysis. *)
Theorem analysis_is_sound :
  forall (W : Type) (pg : page W) (base u : jsstring) (s : sys W),
  (forall a s', analyzeAddendumPdf pg base u s = (Ok a, s') ->
     sound_analysis a /\
     exists w1 k sk text,
       get_reader pg (world s) = (Ok tt, w1) /\
       (k < 5)%nat /\
       Retried (call (pdf_text pg u)) 450 k
         (Sys w1 (trace s ++ [Classify u])) sk /\
       call (pdf_text pg u) sk = (Ok text, s') /\
       (let fn := filename_of pg base u in
        let det := detectCWCOTInText (normText text) fn in
        a = Analysis (isCWCOT det) (hits det) (cwcot_rev det)
              (firstn 600 (normText text)) "pdfjs" fn) /\
       a_pdf_text_sample a = firstn 600 (normText text) /\
       a_cwcot_hits a = hits (detectCWCOTInText text (a_filename a)) /\
       a_cwcot_rev a = cwcot_rev (detectCWCOTInText text (a_filename a))) /\
  (forall e w1 w2,
     get_reader pg (world s) = (Ok tt, w1) ->
     pdf_text pg u w1 = (Throw e, w2) -> retriable e = false ->
     exists s', analyzeAddendumPdf pg base u s = (Throw e, s') /\
       world s' = reader_failed pg (test READER_GONE_RE e) w2).
Proof.
  intros W pg base u s. split.
  - intros a s' H. split; [now apply analyze_sound in H|].
    unfold analyzeAddendumPdf in H.
    apply bind_ok in H as ([] & s1 & E1 & H).
    apply bind_ok in H as ([] & s2 & E2 & H).
    unfold emit in E1. injection E1 as <-.
    unfold call in E2. cbn [world trace] in E2.
    destruct (get_reader pg (world s)) as [[[]|e] w1] eqn:Er;
      [|discriminate].
    injection E2 as <-.
    unfold catch in H.
    destruct (bind (safe' (call (pdf_text pg u))) _ _) as [[x|e] s3] eqn:E.
    + injection H as <- <-.
      apply bind_ok in E as (text & s4 & Es & E). injection E as <- <-.
      set (s2 := Sys w1 (trace s ++ [Classify u])) in *.
      destruct (InvokerFacts.safe_from_spec (call (pdf_text pg u)) 5 450 4 0
                  s2 s2 (u16 "undefined") eq_refl (Retried_O _ _ _))
        as (k & sk & Hk & Hr & [(a & s' & Ea & Eb)|(e & s' & _ & _ & Eb)]).
      * unfold safe', safe in Es. rewrite Es in Eb. injection Eb as <- <-.
        exists w1, k, sk, text. split; [reflexivity|]. split; [exact Hk|].
        split; [exact Hr|]. split; [exact Ea|]. split; [reflexivity|].
        rewrite <- (detect_of_normalized text).
        split; [|split]; reflexivity.
      * unfold safe', safe in Es. rewrite Es in Eb. discriminate.
    + apply bind_ok in H as ([] & s4 & _ & H). discriminate.
  - intros e w1 w2 Hr Ht Hn. unfold analyzeAddendumPdf.
    unfold bind at 1. unfold emit at 1. unfold bind at 1. unfold call at 1.
    cbn [world trace]. rewrite Hr. unfold catch, bind at 1.
    unfold safe', safe.
    erewrite InvokerFacts.safe_from_stop;
      [| unfold call; cbn [world]; rewrite Ht; reflexivity | auto].
    eexists. split; [reflexivity|]. reflexivity.
Qed.

Lemma analysis_is_sound_witness :
  exists a s',
    analyzeAddendumPdf two_tile_page BASE PAA_A START = (Ok a, s') /\
    sound_analysis a.
Proof.
  destruct (analyzeAddendumPdf two_tile_page BASE PAA_A START)
    as [[a|e] s'] eqn:E; [|vm_compute in E; discriminate].
  exists a, s'. split; [reflexivity|].
  exact (proj1 (proj1 (analysis_is_sound unit two_tile_page BASE PAA_A START)
                  a s' E)).
Defined.

(** X12.  The loop over the candidate tiles keeps at most one result for each
    tile, and no two results with the same address: every address kept is
    not empty and of the artifact type, and comes with a sound analysis
    and the label of one of the tiles. *)
Theorem candidates_distinct_addresses :
  forall (W : Type) (pg : page W) (base : jsstring) (ts : list tile)
         (s s' : sys W) (out : list found),
  candidates pg base ts ∅ [] s = (Ok out, s') ->
  NoDup (List.map f_url out) /\
  (List.length out <= List.length ts)%nat /\
  forall x, In x out ->
    f_url x <> [] /\ artifact_typed (f_url x) /\
    sound_analysis (f_det x) /\ exists t, In t ts /\ f_label x = label t.
Proof.
  intros W pg base ts s s' out H.
  destruct (candidates_kept pg base ts ts ∅ [] (incl_refl ts) (kept_nil ts)
              _ _ _ H) as [seen [Hn He]].
  split; [exact Hn|]. split.
  - exact (candidates_length pg base ts ∅ [] _ _ _ H).
  - intros x Hx. destruct (He x Hx) as (H1 & _ & H3 & H4 & H5). auto.
Qed.

Lemma candidates_distinct_addresses_witness :
  exists out s',
    candidates two_tile_page BASE (tiles_of_nodes toLowerCase two_tiles)
      ∅ [] START = (Ok out, s') /\
    NoDup (List.map f_url out).
Proof.
  destruct (candidates two_tile_page BASE
              (tiles_of_nodes toLowerCase two_tiles) ∅ [] START)
    as [[out|e] s'] eqn:E; [|vm_compute in E; discriminate].
  exists out, s'. split; [reflexivity|].
  exact (proj1 (candidates_distinct_addresses unit two_tile_page BASE
                  (tiles_of_nodes toLowerCase two_tiles) START s' out E)).
Defined.

(** X13.  Whatever the page, the outcome of [getBestAddendumAndDetect] hangs
    together: its verdict is positive exactly when it has a tag; the
    reason [paa_cwcot_hit] comes with a positive verdict and
    [paa_no_cwcot] with a negative one; its address is empty exactly when
    the reason is [paa_not_found], and then verdict, source and label are
    empty too; an address found through a tile is of the artifact type and
    comes with the label of one of the tiles listed; the sample has at
    most 600 code units; and the labels listed are as many as the tiles
    seen, none empty, each normalized. *)
Theorem outcome_is_coherent :
  forall (W : Type) (pg : page W) (base : jsstring) (s s' : sys W)
         (r : selection),
  getBestAddendumAndDetect pg base s = (Ok r, s') -> coherent r.
Proof.
  intros W pg base s s' r H. exact (attempts_coherent pg base 2 _ _ _ H).
Qed.

Lemma outcome_is_coherent_witness :
  exists r s',
    getBestAddendumAndDetect two_tile_page BASE START = (Ok r, s') /\
    coherent r.
Proof.
  destruct (getBestAddendumAndDetect two_tile_page BASE START)
    as [[r|e] s'] eqn:E; [|vm_compute in E; discriminate].
  exists r, s'. split; [reflexivity|].
  exact (outcome_is_coherent unit two_tile_page BASE START s' r E).
Defined.

End OutcomeFacts.

(** ** Retries: of an operation, and of a whole attempt *)

Module RetryFacts.
Import MonadFacts InvokerFacts.

Lemma slept_app a b : slept (a ++ b) = slept a + slept b.
Proof.
  induction a as [|ev a IH]; simpl; auto. destruct ev; auto. lia.
Qed.


Lemma backoff_mono wait j k : (j <= k)%nat -> backoff wait j <= backoff wait k.
Proof. induction 1; cbn [backoff]; lia. Qed.





Section Attempts.
Context {W : Type}.
Variable pg : page W.
Variable base : jsstring.

Lemma waitSettle_ok s : exists s', waitSettle pg s = (Ok tt, s').
Proof.
  unfold waitSettle, bind, read, update, ret, sleep, emit.
  destruct (is_closed pg (world s)); [eauto|]. cbn [world].
  destruct (is_closed pg _); eauto.
Qed.

Lemma recover_ok s : exists s', recover pg s = (Ok tt, s').
Proof.
  unfold recover, bind at 1. unfold update. apply waitSettle_ok.
Qed.

Lemma attempts_lost n s e s1 s2 :
  attempt pg base s = (Throw e, s1) -> test CONTEXT_LOST_RE e = true ->
  recover pg s1 = (Ok tt, s2) ->
  attempts pg (S n) base s = attempts pg n base s2.
Proof.
  intros E L R. cbn [attempts]. unfold catch. rewrite E, L.
  cbn [negb]. unfold recover, bind at 1, update in R.
  unfold bind at 1. unfold update. unfold bind at 1. now rewrite R.
Qed.

Lemma attempts_spec : forall n s0 s k,
  Reloaded pg base k s0 s ->
  exists k' sk o s',
    (k <= k' <= k + n)%nat /\ Reloaded pg base k' s0 sk /\
    attempt pg base sk = (o, s') /\ attempts pg n base s = (o, s') /\
    match o with
    | Ok _ => True
    | Throw e => test CONTEXT_LOST_RE e = false \/ k' = (k + n)%nat
    end.
Proof.
  induction n as [|n IH]; intros s0 s k Hr.
  - destruct (attempt pg base s) as [o s'] eqn:E.
    exists k, s, o, s'. split; [lia|]. split; [exact Hr|].
    split; [exact E|]. split; [exact E|]. destruct o; auto.
  - destruct (attempt pg base s) as [[r|e] s1] eqn:E.
    + exists k, s, (Ok r), s1. split; [lia|]. split; [exact Hr|].
      split; [exact E|]. split; [|exact I].
      cbn [attempts]. unfold catch. now rewrite E.
    + destruct (test CONTEXT_LOST_RE e) eqn:L.
      * destruct (recover_ok s1) as [s2 R].
        rewrite (attempts_lost n _ _ _ _ E L R).
        destruct (IH s0 s2 (S k))
          as (k' & sk & o & s' & Hk & Hr' & Ha & Hb & Ho).
        { eapply Reloaded_S; eauto. }
        exists k', sk, o, s'. split; [lia|]. split; [exact Hr'|].
        split; [exact Ha|]. split; [exact Hb|].
        destruct o; auto. destruct Ho; auto. right. lia.
      * exists k, s, (Throw e), s1. split; [lia|]. split; [exact Hr|].
        split; [exact E|]. split; [|now left].
        cbn [attempts]. unfold catch. now rewrite E, L.
Qed.

End Attempts.

(** X15.  A run of [getBestAddendumAndDetect] is at most two attempts that lost
    their execution context, each followed by a reload and the wait for
    the page to settle, and one attempt more whose outcome is the outcome
    of the run: a result, an error that is not a loss of context, or the
    error of the third attempt.  An error of another kind is never
    retried. *)
Theorem attempts_retry_on_context_loss :
  forall (W : Type) (pg : page W) (base : jsstring) (s : sys W),
  (exists k sk o s',
     (k <= 2)%nat /\ Reloaded pg base k s sk /\
     attempt pg base sk = (o, s') /\
     getBestAddendumAndDetect pg base s = (o, s') /\
     match o with
     | Ok _ => True
     | Throw e => test CONTEXT_LOST_RE e = false \/ k = 2%nat
     end) /\
  (forall e s', attempt pg base s = (Throw e, s') ->
     test CONTEXT_LOST_RE e = false ->
     getBestAddendumAndDetect pg base s = (Throw e, s')) /\
  (forall e, test CONTEXT_LOST_RE e = true <->
     includes_ci (u16 "detached frame") e \/
     includes_ci (u16 "Execution context was destroyed") e \/
     includes_ci (u16 "Cannot find context") e).
Proof.
  intros W pg base s. split; [|split].
  - destruct (attempts_spec pg base 2 s s 0%nat (Reloaded_O pg base s))
      as (k & sk & o & s' & Hk & Hr & Ha & Hb & Ho).
    exists k, sk, o, s'. split; [lia|]. split; [exact Hr|].
    split; [exact Ha|]. split; [exact Hb|]. exact Ho.
  - intros e s' E L. unfold getBestAddendumAndDetect. cbn [attempts].
    unfold catch. now rewrite E, L.
  - intros e. unfold CONTEXT_LOST_RE, includes_ci. cbn [alts].
    rewrite !SpanFacts.test_alt, !SpanFacts.test_liti;
      try reflexivity; try apply SpanFacts.plain_liti.
Qed.

Lemma attempts_retry_on_context_loss_witness :
  test CONTEXT_LOST_RE BOOM = false /\
  exists s',
    attempt no_capture_page BASE START = (Throw BOOM, s') /\
    getBestAddendumAndDetect no_capture_page BASE START = (Throw BOOM, s').
Proof.
  split; [reflexivity|].
  destruct (attempt no_capture_page BASE START) as [[r|e] s'] eqn:E;
    [vm_compute in E; discriminate|].
  assert (He : e = BOOM) by (vm_compute in E; now injection E as <- _).
  subst e. exists s'. split; [reflexivity|].
  exact (proj1 (proj2 (attempts_retry_on_context_loss unit no_capture_page
                         BASE START)) BOOM s' E eq_refl).
Defined.

End RetryFacts.

(** ** The budget of a page: errors *)

Module BudgetErrors.

Local Open Scope Z_scope.

(** X16.  An error of the detection reaches the caller only when it comes
    within the first budget; a later one is dropped for the default
    outcome.  A detection that settles within the first budget is passed
    on as it is; any other outcome is the default one or the late result,
    tagged if it has no reason.  The first budget is never below four
    seconds, and five seconds when none is configured. *)
Theorem detection_error_only_in_time : forall (cfgMs : Z) (tk : task),
  (forall e, pick cfgMs tk = Throw e <->
     settled tk = Throw e /\
     exists t, finish tk = Some t /\ t < detectTimeout cfgMs) /\
  (forall t, finish tk = Some t -> t < detectTimeout cfgMs ->
     pick cfgMs tk = settled tk) /\
  (forall r, pick cfgMs tk = Ok r ->
     r = defaultDetectResult \/
     exists r0, settled tk = Ok r0 /\ (r = r0 \/ r = tag_slow r0)) /\
  4000 <= detectTimeout cfgMs /\
  detectTimeout 0 = 5000 /\
  (cfgMs <> 0 -> detectTimeout cfgMs = Z.max 4000 cfgMs).
Proof.
  intros cfgMs tk. unfold pick. cbv zeta.
  split; [|split; [|split; [|split; [|split]]]].
  - intros e. destruct (finish tk) as [t|]; cbn [before].
    + destruct (t <? detectTimeout cfgMs) eqn:E.
      * apply Z.ltb_lt in E. split; [intros H; eauto|]. now intros [H _].
      * apply Z.ltb_ge in E. split.
        -- destruct (t <? _); [destruct (settled tk)|]; discriminate.
        -- intros (_ & t' & [= <-] & H). lia.
    + split; [discriminate|]. now intros (_ & t & H & _).
  - intros t Ht H. rewrite Ht. cbn [before].
    now replace (t <? detectTimeout cfgMs) with true
      by (symmetry; apply Z.ltb_lt; lia).
  - intros r. destruct (before (finish tk) (detectTimeout cfgMs)).
    + intros H. right. eauto.
    + destruct (before _ _); [destruct (settled tk) as [r0|e]|];
        intros [= <-]; eauto.
  - unfold detectTimeout. lia.
  - reflexivity.
  - intros H. unfold detectTimeout.
    now replace (cfgMs =? 0) with false by (symmetry; apply Z.eqb_neq; lia).
Qed.

Lemma detection_error_only_in_time_witness :
  (1000 < detectTimeout 5000)%Z /\
  pick 5000 (Task (Some 1000%Z) (Throw BOOM)) = Throw BOOM /\
  pick 5000 (Task (Some 6000%Z) (Throw BOOM)) = Ok defaultDetectResult.
Proof.
  assert (H : (1000 < detectTimeout 5000)%Z) by reflexivity.
  split; [exact H|]. split.
  - exact (proj1 (proj2 (detection_error_only_in_time 5000
                           (Task (Some 1000%Z) (Throw BOOM))))
             1000%Z eq_refl H).
  - reflexivity.
Defined.

End BudgetErrors.

(** ** Addresses read off the markup, and the legacy chain *)

Module LinkFacts.
Import RegexFacts SpanFacts StringFacts UrlFacts MonadFacts PostFacts.
Import MatchFacts YieldFacts LocatorFacts.

Lemma yields_last_liti s : yields_last (same_ci (u16 s)) (liti s).
Proof.
  intros pre w post H. apply span_liti in H. now exists [], w.
Qed.

Lemma yields_last_seq P a b : plain a = true -> plain b = true ->
  yields_last P b -> yields_last P (Seq a b).
Proof.
  intros Pa Pb Hb pre w post H.
  apply span_seq_inv in H as (w1 & w2 & -> & H1 & H2); auto.
  apply Hb in H2 as (x & m & -> & Hm).
  exists (w1 ++ x), m. now rewrite <- !app_assoc.
Qed.

(** A text that begins with [http://] or [https://], in any case, is
    absolute. *)
Lemma absolute_intro w1 o w3 rest :
  same_ci (u16 "http") w1 ->
  forallb (ci 115) o = true -> (List.length o <= 1)%nat ->
  w3 = u16 "://" ->
  absolute (w1 ++ o ++ w3 ++ rest).
Proof.
  intros H1 Ho Hl ->. unfold absolute.
  replace (w1 ++ o ++ u16 "://" ++ rest)
    with ([] ++ (w1 ++ o ++ u16 "://") ++ rest)
    by (now rewrite <- !app_assoc).
  apply test_span. unfold HTTP_RE. cbn [seqs].
  apply DetectFacts.span_seq_nil_l; [now apply span_bol|].
  apply span_seq; [now apply span_liti|].
  apply span_seq; [|now apply span_lit].
  apply span_rep. repeat split; auto. lia.
Qed.

Section Links.
Variable cls : N -> bool.

Lemma link_span g pre m post :
  span (link_re cls g) pre m post -> document_link m.
Proof.
  intros H. split; [|split].
  - unfold link_re in H. cbn [seqs] in H.
    apply span_seq_inv in H as (w1 & r1 & -> & H1 & H); try reflexivity.
    apply span_seq_inv in H as (o & r2 & -> & Ho & H); try reflexivity.
    apply span_seq_inv in H as (w3 & r3 & -> & H3 & H); try reflexivity.
    apply span_liti in H1. apply span_lit in H3.
    apply span_rep in Ho as (Ho & _ & Hl).
    now apply absolute_intro.
  - assert (Y : yields (same_ci (u16 "imgix.net/resi/globalDocuments/"))
                  (link_re cls g))
      by (unfold link_re; cbn [seqs]; find_piece).
    destruct (Y _ _ _ H) as (x & w & y & -> & Hw). now exists x, w, y.
  - assert (Y : yields_last (same_ci (u16 ".pdf")) (link_re cls g)).
    { unfold link_re. cbn [seqs].
      do 6 (apply yields_last_seq; [reflexivity|reflexivity|]).
      apply yields_last_liti. }
    exact (Y _ _ _ H).
Qed.

End Links.

Lemma hydration_is_link_re : HYDRATION_RE = link_re no_quote_space false.
Proof. reflexivity. Qed.

Lemma html_pdf_is_link_re : HTML_PDF_RE = link_re no_quote true.
Proof. reflexivity. Qed.

Lemma document_link_typed u : document_link u -> artifact_typed u.
Proof. intros (_ & H & _). now right. Qed.

Lemma document_link_nonempty u : document_link u -> u <> [].
Proof. intros (H & _) ->. discriminate. Qed.

Lemma hydration_matches html u :
  In u (set_values (match_all HYDRATION_RE html)) ->
  document_link u /\ includes u html = true.
Proof.
  intros H. apply (proj1 (proj2 (set_values_spec _) u)) in H.
  apply match_all_spans in H as (p & q & -> & H); [|reflexivity].
  split.
  - rewrite hydration_is_link_re in H. now apply link_span in H.
  - apply includes_iff. eauto.
Qed.

Section Legacy.
Context {W : Type}.
Variable pg : page W.

Lemma perf_entry_resolved :
  returns
    (or_else
       (safe' (bind (call (perf_entries pg))
                 (fun names =>
                    ret (match List.find (test IMGIX_PDF_RE) names with
                         | Some n => n
                         | None => []
                         end))))
       [])
    resolved.
Proof.
  apply returns_or_else; [|intros H; now contradiction H].
  apply returns_safe'. apply returns_then. intros names. apply returns_ret.
  destruct (List.find _ names) as [n|] eqn:F; [|intros H; now contradiction H].
  apply find_some in F as [_ F]. intros _. right.
  assert (Y : yields (same_ci (u16 "imgix.net/resi/globalDocuments/"))
                IMGIX_PDF_RE)
    by (unfold IMGIX_PDF_RE; cbn [seqs]; find_piece).
  exact (test_yields _ IMGIX_PDF_RE _ eq_refl Y F).
Qed.

Lemma perf_poll_returns (Q : jsstring -> Prop) pause hit k :
  (forall p r, resolved p -> hit p = Some r -> Q r) ->
  returns k Q ->
  forall rounds, returns (perf_poll pg rounds pause hit k) Q.
Proof.
  intros Hhit Hk. induction rounds as [|n IH]; [exact Hk|].
  cbn [perf_poll].
  apply returns_bind with (P := resolved); [apply perf_entry_resolved|].
  intros perf Hp. destruct (hit perf) as [x|] eqn:E.
  - apply returns_ret. eauto.
  - apply returns_then. intros _. exact IH.
Qed.

Hypothesis no_popup : forall w, fst (popup_url pg w) = [].
Hypothesis no_hit : forall w, pdf_hits pg w = [].
Hypothesis no_capture : forall w c w',
  read_capture pg w = (Ok c, w') -> c = NO_CAPTURE.

Lemma direct_link_resolved anchors : resolved (direct_link anchors).
Proof.
  unfold direct_link.
  destruct (List.find _ anchors) as [a|] eqn:F;
    [|intros H; now contradiction H].
  apply find_some in F as [_ F]. apply andb_true_iff in F as [_ F].
  intros _. left. now apply pdf_ext_iff.
Qed.

Lemma getAddendumUrl_resolved base :
  returns (getAddendumUrl pg base) resolved.
Proof.
  unfold getAddendumUrl.
  apply returns_then. intros _. apply returns_then. intros _.
  apply returns_then. intros _. apply returns_then. intros _.
  apply returns_bind with (P := resolved).
  { apply returns_or_else; [|intros H; now contradiction H].
    apply returns_safe'. apply returns_then. intros anchors.
    apply returns_ret. apply direct_link_resolved. }
  intros direct Hd. destruct (nonempty direct) eqn:E.
  { apply returns_ret. intros _. apply artifact_typed_toAbs. apply Hd.
    intros ->. discriminate. }
  apply returns_then. intros preHits. apply returns_then. intros _.
  apply returns_then. intros _. apply returns_then. intros _.
  apply returns_then. intros nowUrl.
  destruct (test PDF_EXT_RE nowUrl || test IMGIX_PDF_RE nowUrl) eqn:En.
  { apply returns_ret. intros _. apply orb_true_iff in En as [En|En].
    - left. now apply pdf_ext_iff.
    - right.
      assert (Y : yields (same_ci (u16 "imgix.net/resi/globalDocuments/"))
                    IMGIX_PDF_RE)
        by (unfold IMGIX_PDF_RE; cbn [seqs]; find_piece).
      exact (test_yields _ IMGIX_PDF_RE _ eq_refl Y En). }
  apply returns_bind with (P := fun u => u = []);
    [apply returns_call_; apply no_popup|].
  intros popupUrl ->. cbn [nonempty].
  apply returns_bind with (P := fun u => u = []).
  { apply returns_read. intros w. rewrite no_hit. now rewrite skipn_nil. }
  intros hit ->. cbn [nonempty].
  apply perf_poll_returns.
  - intros p r Hp Hr. destruct (nonempty p) eqn:Ep; [|discriminate].
    injection Hr as <-. intros _. apply artifact_typed_toAbs. apply Hp.
    intros ->. discriminate.
  - apply returns_then. intros html.
    destruct (match_all HTML_PDF_RE html) as [|m ms] eqn:Em.
    + apply returns_bind with (P := fun c => c = NO_CAPTURE).
      { unfold readCapture. apply returns_or_else; [|reflexivity].
        apply returns_safe'. apply returns_call. apply no_capture. }
      intros cap ->. cbn. apply returns_ret. intros H. now contradiction H.
    + apply returns_ret. intros _. apply document_link_typed.
      assert (Hin : In m (match_all HTML_PDF_RE html))
        by (rewrite Em; simpl; auto).
      apply match_all_spans in Hin as (p & q & _ & Hs); [|reflexivity].
      rewrite html_pdf_is_link_re in Hs. now apply link_span in Hs.
Qed.

End Legacy.

(** X17.  The hidden scan never fails.  Its addresses come without repetition;
    each stands in the markup of the page, is absolute, lies under the
    document host and ends in [.pdf], so [isPdfUrl] accepts it; and a page
    whose markup cannot be read has none. *)
Theorem hidden_links_are_documents :
  forall (W : Type) (pg : page W) (s : sys W),
  (exists links s',
     parseHydrationLinksFromHTML pg s = (Ok links, s') /\
     NoDup links /\
     forall u, In u links ->
       document_link u /\ isPdfUrlS u = true /\ u <> []) /\
  (forall html w', page_content pg (world s) = (Ok html, w') ->
     exists s', parseHydrationLinksFromHTML pg s =
                  (Ok (set_values (match_all HYDRATION_RE html)), s') /\
       forall u, In u (set_values (match_all HYDRATION_RE html)) ->
         includes u html = true) /\
  (forall e w', page_content pg (world s) = (Throw e, w') ->
     retriable e = false ->
     exists s', parseHydrationLinksFromHTML pg s = (Ok [], s')).
Proof.
  intros W pg s. split; [|split].
  - unfold parseHydrationLinksFromHTML, bind at 1. unfold emit.
    unfold bind.
    destruct (or_else (safe' (call (page_content pg))) []
                (Sys (world s) (trace s ++ [ScanHidden])))
      as [[html|e] s1] eqn:E.
    + destruct (nonempty html).
      * unfold ret. eexists _, _. split; [reflexivity|].
        split; [apply set_values_spec|]. intros u Hu.
        apply hydration_matches in Hu as [Hl _].
        split; [exact Hl|]. split; [|now apply document_link_nonempty].
        now apply isPdfUrlS_iff, document_link_typed.
      * unfold ret. eexists _, _. split; [reflexivity|].
        split; [constructor|]. intros u [].
    + apply or_else_inv in E as (a & Ha & _). discriminate.
  - intros html w' H.
    unfold parseHydrationLinksFromHTML, bind at 1. unfold emit.
    unfold bind.
    rewrite (TileFacts.or_else_value _ _ _ html
               (Sys w' (trace s ++ [ScanHidden]))).
    + destruct html as [|c html]; cbn [nonempty]; unfold ret.
      * eexists. split; [reflexivity|]. intros u [].
      * eexists. split; [reflexivity|]. intros u Hu.
        now apply hydration_matches in Hu.
    + unfold safe', safe. apply InvokerFacts.safe_from_ok.
      unfold call. cbn [world trace]. now rewrite H.
  - intros e w' H R.
    unfold parseHydrationLinksFromHTML, bind at 1. unfold emit.
    unfold bind.
    rewrite (TileFacts.or_else_throw _ _ _ e
               (Sys w' (trace s ++ [ScanHidden]))).
    + cbn [nonempty]. unfold ret. eauto.
    + unfold safe', safe. apply InvokerFacts.safe_from_stop; auto.
      unfold call. cbn [world trace]. now rewrite H.
Qed.

Lemma hidden_links_are_documents_witness :
  exists links s',
    parseHydrationLinksFromHTML both_links_page START = (Ok links, s') /\
    In HIDDEN_PAA links /\ document_link HIDDEN_PAA.
Proof.
  destruct (proj1 (hidden_links_are_documents unit both_links_page START))
    as (links & s' & E & _ & H).
  exists links, s'. split; [exact E|].
  assert (Hin : In HIDDEN_PAA links).
  { vm_compute in E. injection E as <- _. left. reflexivity. }
  split; [exact Hin|]. exact (proj1 (H _ Hin)).
Defined.

(** X18.  Where the click opens no window, the network listener has no hit
    and the click capture is empty, the legacy chain returns nothing or an
    address of the artifact type: its direct link, the address of the
    page, the resource entries and the markup are all checked. *)
Theorem legacy_checked_stages :
  forall (W : Type) (pg : page W) (base : jsstring) (s s' : sys W)
         (r : jsstring),
  (forall w, fst (popup_url pg w) = []) ->
  (forall w, pdf_hits pg w = []) ->
  (forall w c w', read_capture pg w = (Ok c, w') -> c = NO_CAPTURE) ->
  getAddendumUrl pg base s = (Ok r, s') ->
  r = [] \/ isPdfUrlS r = true.
Proof.
  intros W pg base s s' r H1 H2 H3 H.
  apply (getAddendumUrl_resolved pg H1 H2 H3) in H.
  destruct r as [|c r]; [now left|right].
  apply isPdfUrlS_iff, H. discriminate.
Qed.

Lemma legacy_checked_stages_witness :
  exists r s',
    getAddendumUrl both_links_page BASE START = (Ok r, s') /\
    (r = [] \/ isPdfUrlS r = true).
Proof.
  destruct (getAddendumUrl both_links_page BASE START)
    as [[r|e] s'] eqn:E; [|vm_compute in E; discriminate].
  exists r, s'. split; [reflexivity|].
  apply (legacy_checked_stages unit both_links_page BASE START s' r);
    auto.
  intros w c w' [= <- _]. reflexivity.
Defined.

End LinkFacts.

(** ** Navigation and new pages *)

Module NavFacts.
Import RegexFacts SpanFacts MonadFacts RetryFacts.

Section Loop.
Context {W A : Type}.
Variable body : M W A.
Variable pause : N.
Variable maxRetries : nat.
Variable after : M W A.

Lemma retry_from_ok i left si a s' :
  body si = (Ok a, s') ->
  retry_from body pause maxRetries i (S left) after si = (Ok a, s').
Proof. intros E. cbn [retry_from]. unfold catch. now rewrite E. Qed.

Lemma retry_from_last i left si e s' :
  body si = (Throw e, s') -> i = (maxRetries - 1)%nat ->
  retry_from body pause maxRetries i (S left) after si = (Throw e, s').
Proof.
  intros E ->. cbn [retry_from]. unfold catch. rewrite E.
  now rewrite Nat.eqb_refl.
Qed.

Lemma retry_from_again i left si e s' :
  body si = (Throw e, s') -> i <> (maxRetries - 1)%nat ->
  retry_from body pause maxRetries i (S left) after si =
  retry_from body pause maxRetries (S i) left after
    (Sys (world s') (trace s' ++ [Sleep (pause * N.of_nat (S i))])).
Proof.
  intros E Hi. cbn [retry_from]. unfold catch. rewrite E.
  apply Nat.eqb_neq in Hi. rewrite Hi.
  unfold bind, sleep, emit. cbn [world trace].
  now replace (i + 1)%nat with (S i) by lia.
Qed.

Lemma retry_from_spec : forall left i s si,
  (i + S left = maxRetries)%nat -> Tried body pause i s si ->
  exists k sk, (k < maxRetries)%nat /\ Tried body pause k s sk /\
    ((exists a s', body sk = (Ok a, s') /\
        retry_from body pause maxRetries i (S left) after si = (Ok a, s')) \/
     (exists e s', body sk = (Throw e, s') /\ k = (maxRetries - 1)%nat /\
        retry_from body pause maxRetries i (S left) after si
          = (Throw e, s'))).
Proof.
  induction left as [|left IH]; intros i s si Hi Hr.
  - exists i, si. split; [lia|]. split; [exact Hr|].
    destruct (body si) as [[a|e] s'] eqn:E.
    + left. exists a, s'. split; auto. now apply retry_from_ok.
    + right. exists e, s'. split; auto. split; [lia|].
      apply retry_from_last; auto. lia.
  - destruct (body si) as [[a|e] s'] eqn:E.
    + exists i, si. split; [lia|]. split; [exact Hr|]. left.
      exists a, s'. split; auto. now apply retry_from_ok.
    + rewrite (retry_from_again _ _ _ _ _ E) by lia.
      apply IH; [lia|]. eapply Tried_S; eauto.
Qed.

(** An attempt that fails without a change leaves the pauses only. *)
Lemma retry_from_stuck e w :
  (forall t, body (Sys w t) = (Throw e, Sys w t)) ->
  forall left i t, (i + S left = maxRetries)%nat ->
  retry_from body pause maxRetries i (S left) after (Sys w t) =
    (Throw e, Sys w (t ++ pauses pause i left)).
Proof.
  intros Hb. induction left as [|left IH]; intros i t Hi.
  - rewrite (retry_from_last _ _ _ _ _ (Hb t)) by lia.
    cbn [pauses]. now rewrite app_nil_r.
  - rewrite (retry_from_again _ _ _ _ _ (Hb t)) by lia.
    cbn [world trace]. rewrite IH by lia. cbn [pauses].
    rewrite <- app_assoc. cbn [app].
    now replace (i + 1)%nat with (S i) by lia.
Qed.

Lemma Tried_slept : quiet body -> forall k s sk,
  Tried body pause k s sk ->
  slept (trace sk) = (slept (trace s) + backoff pause k)%N.
Proof.
  intros Hq k s sk H. induction H as [s|k s sk e s' H IH Hb].
  - simpl. lia.
  - cbn [trace backoff]. rewrite slept_app, (Hq _ _ _ Hb), IH. simpl. lia.
Qed.

End Loop.

Lemma canon_word c k : canon c = k -> is_word k = true -> is_word c = true.
Proof.
  unfold canon. intros H Hk. destruct (is_lower c) eqn:L.
  - unfold is_word. now rewrite L, orb_true_r.
  - now subst k.
Qed.

Lemma same_ci_last u c w : same_ci (u ++ [c]) w ->
  exists v x, w = v ++ [x] /\ canon x = canon c.
Proof.
  unfold same_ci. intros H.
  destruct (rev w) as [|x v] eqn:E.
  - apply (f_equal (@rev N)) in E. rewrite rev_involutive in E. subst w.
    rewrite map_app in H. simpl in H. now destruct (List.map canon u).
  - apply (f_equal (@rev N)) in E. rewrite rev_involutive in E.
    simpl in E. subst w. exists (rev v), x. split; auto.
    rewrite !map_app in H. apply (f_equal (@rev N)) in H.
    rewrite !rev_app_distr in H. simpl in H. now injection H as H _.
Qed.

Lemma host_ends_in_word pre w : same_ci (u16 ".auction.com") w ->
  word_at (before_cu (pre ++ w)) = true.
Proof.
  intros H.
  change (u16 ".auction.com") with (u16 ".auction.co" ++ [109]) in H.
  apply same_ci_last in H as (v & x & -> & Hx).
  rewrite app_assoc, DetectFacts.before_cu_snoc. cbn [word_at].
  now apply (canon_word x (canon 109)).
Qed.

Section Navigate.
Context {W R P : Type}.
Variable nv : navigator W R.
Variable fc : factory W P.

Lemma navigate_once_ok url s a s' :
  navigate_once nv url s = (Ok a, s') ->
  exists r w', a = Some r /\ page_closed nv (world s) = false /\
    goto nv url (world s) = (Ok r, w') /\
    on_site (current_url nv w') = true /\ s' = Sys w' (trace s).
Proof.
  unfold navigate_once, bind, read, call, throw, ret, on_site.
  destruct (page_closed nv (world s)); [discriminate|].
  destruct (goto nv url (world s)) as [[r|e] w']; [|discriminate].
  cbn [world trace].
  destruct (test AUCTION_HOST_RE (current_url nv w')) eqn:E1;
    cbn [negb andb orb].
  - intros [= <- <-]. exists r, w'. rewrite E1. auto 10.
  - destruct (test ABOUT_BLANK_RE (current_url nv w')) eqn:E2;
      cbn [negb]; [|discriminate].
    intros [= <- <-]. exists r, w'. rewrite E1, E2. auto 10.
Qed.

Lemma navigate_once_closed url s :
  page_closed nv (world s) = true ->
  navigate_once nv url s = (Throw CLOSED_BEFORE, s).
Proof.
  intros H. unfold navigate_once, bind, read. now rewrite H.
Qed.

Lemma navigate_once_throw url s e s' :
  navigate_once nv url s = (Throw e, s') ->
  (page_closed nv (world s) = true /\ e = CLOSED_BEFORE /\ s' = s) \/
  (page_closed nv (world s) = false /\
   exists w', s' = Sys w' (trace s) /\
     (goto nv url (world s) = (Throw e, w') \/
      exists r, goto nv url (world s) = (Ok r, w') /\
        on_site (current_url nv w') = false /\ e = REDIRECTED)).
Proof.
  unfold navigate_once, bind, read, call, throw, ret, on_site.
  destruct (page_closed nv (world s)).
  { intros [= <- <-]. auto. }
  destruct (goto nv url (world s)) as [[r|e'] w'].
  - cbn [world trace].
    destruct (test AUCTION_HOST_RE (current_url nv w')) eqn:E1;
      cbn [negb andb orb]; [discriminate|].
    destruct (test ABOUT_BLANK_RE (current_url nv w')) eqn:E2;
      cbn [negb]; [discriminate|].
    intros [= <- <-]. right. split; auto. exists w'. split; auto.
    right. exists r. rewrite E1, E2. auto.
  - intros [= <- <-]. right. split; auto. exists w'. auto.
Qed.

Lemma quiet_navigate_once url : quiet (navigate_once nv url).
Proof.
  intros s [a|e] s' H.
  - apply navigate_once_ok in H as (r & w' & _ & _ & _ & _ & ->).
    reflexivity.
  - apply navigate_once_throw in H
      as [(_ & _ & ->)|(_ & w' & -> & _)]; reflexivity.
Qed.

Lemma create_once_ok s p s' :
  create_once fc s = (Ok p, s') ->
  fst (context_valid fc (world s)) = true /\
  new_page fc (snd (context_valid fc (world s))) = (Ok (Some p), world s') /\
  born_closed fc p (world s') = false /\ trace s' = trace s.
Proof.
  unfold create_once, bind, call_, call, read, throw, ret.
  destruct (context_valid fc (world s)) as [[|] w1]; cbn [negb fst snd];
    [|discriminate].
  cbn [world trace].
  destruct (new_page fc w1) as [[[q|]|e] w2]; try discriminate.
  cbn [world trace].
  destruct (born_closed fc q w2) eqn:E; [discriminate|].
  intros [= <- <-]. auto.
Qed.

End Navigate.

(** X19.  A run of [safeNavigate] is a number of failed attempts, each
    followed by a sleep of 1500 ms times its number, and one attempt more:
    either that one finds the page open, navigates, and ends at an address
    of the site or at [about:blank], and its response is the result; or it
    is the last attempt allowed, and its error is the error of the run.
    Every error is retried, that of a closed page too.  With no attempt
    allowed the result is [undefined].  No run sleeps more than
    [1500 * (1 + ... + (maxRetries - 1))] ms. *)
Theorem safeNavigate_spec :
  forall (W R : Type) (nv : navigator W R) (url : jsstring)
         (maxRetries : nat) (s : sys W),
  ((maxRetries = 0%nat /\ safeNavigate nv url maxRetries s = (Ok None, s)) \/
   exists k sk, (k < maxRetries)%nat /\
     Tried (navigate_once nv url) 1500 k s sk /\
     ((exists r w',
         page_closed nv (world sk) = false /\
         goto nv url (world sk) = (Ok r, w') /\
         on_site (current_url nv w') = true /\
         safeNavigate nv url maxRetries s
           = (Ok (Some r), Sys w' (trace sk))) \/
      (exists e s',
         navigate_once nv url sk = (Throw e, s') /\
         k = (maxRetries - 1)%nat /\
         safeNavigate nv url maxRetries s = (Throw e, s')))) /\
  (slept (trace (snd (safeNavigate nv url maxRetries s)))
   <= slept (trace s) + backoff 1500 (maxRetries - 1))%N /\
  backoff 1500 (3 - 1) = 4500%N.
Proof.
  intros W R nv url maxRetries s.
  assert (H : (maxRetries = 0%nat /\
               safeNavigate nv url maxRetries s = (Ok None, s)) \/
    exists k sk, (k < maxRetries)%nat /\
      Tried (navigate_once nv url) 1500 k s sk /\
      ((exists a s', navigate_once nv url sk = (Ok a, s') /\
          safeNavigate nv url maxRetries s = (Ok a, s')) \/
       (exists e s', navigate_once nv url sk = (Throw e, s') /\
          k = (maxRetries - 1)%nat /\
          safeNavigate nv url maxRetries s = (Throw e, s')))).
  { destruct maxRetries as [|n]; [left; auto|right].
    unfold safeNavigate. apply retry_from_spec; [lia|constructor]. }
  split; [|split; [|reflexivity]].
  - destruct H as [H|(k & sk & Hk & Ht & H)]; [now left|right].
    exists k, sk. split; [exact Hk|]. split; [exact Ht|].
    destruct H as [(a & s' & Hb & E)|H]; [left|now right].
    apply navigate_once_ok in Hb as (r & w' & -> & Hc & Hg & Ho & ->).
    exists r, w'. auto.
  - destruct H as [[-> E]|(k & sk & Hk & Ht & H)].
    + rewrite E. simpl. lia.
    + apply (Tried_slept _ _ (quiet_navigate_once nv url)) in Ht.
      assert (Hs : slept (trace (snd (safeNavigate nv url maxRetries s)))
                   = slept (trace sk)).
      { destruct H as [(a & s' & Hb & ->)|(e & s' & Hb & _ & ->)];
          cbn [snd]; now apply quiet_navigate_once in Hb. }
      rewrite Hs, Ht.
      pose proof (backoff_mono 1500 k (maxRetries - 1)). lia.
Qed.

(** One redirection away, one sleep of 1500 ms, and the second
    navigation arrives. *)
Example detour_once :
  safeNavigate (detour 1) BASE 3 (Sys 0%nat []) =
    (Ok (Some 1%nat), Sys 2%nat [Sleep 1500]).
Proof. vm_compute. reflexivity. Qed.

(** X20.  On a page that is closed, [safeNavigate] never calls [goto]: it
    makes all its attempts, sleeping between them, and throws
    [Page is closed before navigation]. *)
Theorem safeNavigate_closed_page :
  forall (W R : Type) (nv : navigator W R) (url : jsstring)
         (maxRetries : nat) (s : sys W),
  page_closed nv (world s) = true -> (0 < maxRetries)%nat ->
  safeNavigate nv url maxRetries s =
    (Throw CLOSED_BEFORE,
     Sys (world s) (trace s ++ pauses 1500 0 (maxRetries - 1))).
Proof.
  intros W R nv url maxRetries [w t] Hc Hm. cbn [world trace] in *.
  unfold safeNavigate. destruct maxRetries as [|n]; [lia|].
  replace (S n - 1)%nat with n by lia.
  apply retry_from_stuck; [|lia].
  intros t'. now apply navigate_once_closed.
Qed.

Lemma safeNavigate_closed_page_witness :
  page_closed closed_page 0%nat = true /\ (0 < 3)%nat /\
  safeNavigate closed_page BASE 3 (Sys 0%nat []) =
    (Throw CLOSED_BEFORE, Sys 0%nat [Sleep 1500; Sleep 3000]).
Proof.
  split; [reflexivity|]. split; [lia|].
  exact (safeNavigate_closed_page nat unit closed_page BASE 3
           (Sys 0%nat []) eq_refl (Nat.lt_0_succ 2)).
Defined.

(** X21.  The address test of [safeNavigate] accepts an address that holds
    [.auction.com], in any case, not followed by a letter, a digit or an
    underscore, and the address [about:blank], and no other. *)
Theorem on_site_exact : forall u : jsstring,
  on_site u = true <->
  (exists pre w post, u = pre ++ w ++ post /\
     same_ci (u16 ".auction.com") w /\ word_at (after_cu post) = false) \/
  same_ci (u16 "about:blank") u.
Proof.
  intros u.
  unfold on_site. rewrite orb_true_iff.
  rewrite !test_iff by reflexivity. split.
  - intros [(pre & w & post & -> & H)|(pre & w & post & -> & H)].
    + left. unfold AUCTION_HOST_RE in H. cbn [seqs] in H.
      apply span_seq_inv in H as (w1 & w2 & -> & H1 & H2); try reflexivity.
      apply span_liti in H1. apply span_wordb in H2 as [-> H2].
      exists pre, w1, post. rewrite app_nil_r. split; auto. split; auto.
      pose proof (host_ends_in_word pre w1 H1) as B.
      rewrite B in H2. now destruct (word_at (after_cu post)).
    + right. unfold ABOUT_BLANK_RE in H. cbn [seqs] in H.
      apply span_seq_inv in H as (w1 & w2 & -> & H1 & H); try reflexivity.
      apply span_seq_inv in H as (w3 & w4 & -> & H3 & H4); try reflexivity.
      apply span_bol in H1 as [-> ->]. apply span_liti in H3.
      apply span_eol in H4 as [-> ->]. simpl. now rewrite !app_nil_r.
  - intros [(pre & w & post & -> & H1 & H2)|H].
    + left. exists pre, w, post. split; auto.
      unfold AUCTION_HOST_RE. cbn [seqs].
      apply DetectFacts.span_seq_nil_r; [now apply span_liti|].
      apply span_wordb. split; auto. rewrite H2.
      pose proof (host_ends_in_word pre w H1) as B.
      now rewrite B.
    + right. exists [], u, []. rewrite app_nil_r. split; auto.
      unfold ABOUT_BLANK_RE. cbn [seqs].
      apply DetectFacts.span_seq_nil_l; [now apply span_bol|].
      apply DetectFacts.span_seq_nil_r; [now apply span_liti|].
      apply span_eol. auto.
Qed.

(** X22.  A run of [createNewPage] is a number of failed attempts, each
    followed by a sleep of 1000 ms times its number, and one attempt more:
    either that one finds the context valid and gets a page that is not
    closed, which is the result; or it is the last attempt allowed, and
    its error is the error of the run.  With no attempt allowed the run
    throws the error that stands behind its loop. *)
Theorem createNewPage_spec :
  forall (W P : Type) (fc : factory W P) (retries : nat) (s : sys W),
  (retries = 0%nat /\ createNewPage fc retries s = (Throw GAVE_UP, s)) \/
  exists k sk, (k < retries)%nat /\ Tried (create_once fc) 1000 k s sk /\
    ((exists p s',
        fst (context_valid fc (world sk)) = true /\
        born_closed fc p (world s') = false /\
        createNewPage fc retries s = (Ok p, s')) \/
     (exists e s',
        create_once fc sk = (Throw e, s') /\ k = (retries - 1)%nat /\
        createNewPage fc retries s = (Throw e, s'))).
Proof.
  intros W P fc retries s.
  destruct retries as [|n]; [left; auto|right].
  destruct (retry_from_spec (create_once fc) 1000 (S n) (throw GAVE_UP)
              n 0 s s) as (k & sk & Hk & Ht & H); [lia|constructor|].
  exists k, sk. split; [exact Hk|]. split; [exact Ht|].
  destruct H as [(p & s' & Hb & E)|H]; [left|now right].
  apply create_once_ok in Hb as (Hv & _ & Hc & _).
  exists p, s'. auto.
Qed.

End NavFacts.

(** ** Cookies *)

Module CookieFacts.
Import NormFacts.

Lemma without_app c a b : without c (a ++ b) <-> without c a /\ without c b.
Proof. unfold without. rewrite forallb_app. apply andb_true_iff. Qed.

Lemma without_In c s : without c s <-> ~ In c s.
Proof.
  unfold without. rewrite forallb_forall. split.
  - intros H Hin. apply H in Hin. now rewrite N.eqb_refl in Hin.
  - intros H x Hx. apply negb_true_iff, N.eqb_neq. intros ->. auto.
Qed.

Lemma without_sub c a b : (forall x, In x a -> In x b) ->
  without c b -> without c a.
Proof. rewrite !without_In. auto. Qed.

Lemma firstn_elements {A} i (l : list A) x : In x (firstn i l) -> In x l.
Proof.
  intros H. rewrite <- (firstn_skipn i l). apply in_app_iff. now left.
Qed.

Lemma skipn_elements {A} i (l : list A) x : In x (skipn i l) -> In x l.
Proof.
  intros H. rewrite <- (firstn_skipn i l). apply in_app_iff. now right.
Qed.

Lemma without_trim c s : without c s -> without c (trim s).
Proof. apply without_sub. apply trim_elements. Qed.

(** No piece holds a semicolon. *)
Lemma split_from_pieces s : forall skip cur p,
  without 59 cur -> In p (split_from skip cur s) -> without 59 p.
Proof.
  induction s as [|c s IH]; intros skip cur p Hc H.
  - destruct H as [<-|[]]. eapply without_sub; [|exact Hc].
    intros x. now rewrite <- in_rev.
  - cbn [split_from] in H. destruct (skip && (c =? 32)); [eauto|].
    destruct (c =? 59) eqn:E.
    + destruct H as [<-|H].
      * eapply without_sub; [|exact Hc]. intros x. now rewrite <- in_rev.
      * eapply IH; [|exact H]. reflexivity.
    + eapply IH; [|exact H]. unfold without in *. simpl. now rewrite E, Hc.
Qed.

Lemma split_from_length s : forall skip cur,
  List.length (split_from skip cur s)
  = S (List.length (List.filter (N.eqb 59) s)).
Proof.
  induction s as [|c s IH]; intros skip cur; [reflexivity|].
  cbn [split_from List.filter].
  destruct (skip && (c =? 32)) eqn:E.
  - apply andb_true_iff in E as [_ E]. apply N.eqb_eq in E. subst c.
    cbn. apply IH.
  - rewrite (N.eqb_sym 59 c). destruct (c =? 59); cbn; now rewrite IH.
Qed.

Lemma keep_some_length {A} (l : list (option A)) :
  (List.length (keep_some l) <= List.length l)%nat.
Proof. induction l as [|[a|] l IH]; simpl; lia. Qed.

Lemma keep_some_In {A} (l : list (option A)) a :
  In a (keep_some l) <-> In (Some a) l.
Proof.
  induction l as [|[x|] l IH]; simpl; [tauto| |].
  - rewrite IH. split; intros [H|H]; auto; left; congruence.
  - rewrite IH. split; auto. intros [H|H]; [discriminate|auto].
Qed.

Lemma index_of_found c s i : index_of c s = Some i ->
  without c (firstn i s) /\ nth_error s i = Some c.
Proof.
  revert i. induction s as [|x s IH]; intros i H; [discriminate|].
  cbn [index_of] in H. destruct (x =? c) eqn:E.
  - injection H as <-. apply N.eqb_eq in E. subst x. split; reflexivity.
  - destruct (index_of c s) as [j|]; [|discriminate]. injection H as <-.
    destruct (IH j eq_refl) as [H1 H2]. split; auto.
    unfold without in *. simpl. now rewrite E, H1.
Qed.

Lemma index_of_first c a b : without c a ->
  index_of c (a ++ c :: b) = Some (List.length a).
Proof.
  unfold without. induction a as [|x a IH]; intros H; simpl.
  - now rewrite N.eqb_refl.
  - simpl in H. apply andb_true_iff in H as [Hx H].
    apply negb_true_iff in Hx. now rewrite Hx, IH.
Qed.

Lemma cookie_of_pair name value :
  without 61 name -> trimmed name -> trimmed value ->
  cookie_of (name ++ [61] ++ value) = Some (make_cookie name value).
Proof.
  intros Hn Tn Tv. unfold cookie_of. cbn [app].
  rewrite (index_of_first 61 name value Hn).
  rewrite firstn_app, firstn_all, Nat.sub_diag. cbn [firstn].
  rewrite app_nil_r.
  replace (skipn (S (List.length name)) (name ++ 61 :: value)) with value.
  - now rewrite !trimmed_fixed.
  - change (name ++ 61 :: value) with (name ++ [61] ++ value).
    rewrite app_assoc.
    rewrite skipn_app, skipn_all2 by (rewrite length_app; simpl; lia).
    rewrite length_app. simpl.
    now replace (S (List.length name) - (List.length name + 1))%nat
      with 0%nat by lia.
Qed.

(** A piece without a semicolon is read to its end. *)
Lemma split_piece_end p : without 59 p -> forall cur,
  split_from false cur p = [rev cur ++ p].
Proof.
  unfold without. induction p as [|x p IH]; intros H cur.
  - now rewrite app_nil_r.
  - simpl in H. apply andb_true_iff in H as [Hx H].
    apply negb_true_iff in Hx. cbn [split_from andb]. rewrite Hx.
    rewrite (IH H). cbn [rev]. now rewrite <- app_assoc.
Qed.

Lemma split_piece_semi p : without 59 p -> forall cur rest,
  split_from false cur (p ++ 59 :: rest) =
  (rev cur ++ p) :: split_from true [] rest.
Proof.
  unfold without. induction p as [|x p IH]; intros H cur rest.
  - now rewrite app_nil_r.
  - simpl in H. apply andb_true_iff in H as [Hx H].
    apply negb_true_iff in Hx. cbn [app split_from andb]. rewrite Hx.
    rewrite (IH H). cbn [rev]. now rewrite <- app_assoc.
Qed.

Lemma split_after_separator c s : c <> 32 ->
  split_from true [] (c :: s) = split_from false [] (c :: s).
Proof.
  intros H. cbn [split_from]. apply N.eqb_neq in H. rewrite H.
  now rewrite andb_false_r.
Qed.

Lemma split_header cs : Forall clean cs -> cs <> [] ->
  split_from false [] (header_of cs) =
  List.map (fun c => c_name c ++ [61] ++ c_value c) cs.
Proof.
  induction 1 as [|c cs Hc Hcs IH]; intros Hne; [contradiction|].
  destruct Hc as (N1 & N2 & N3 & V1 & V2 & _).
  assert (Hp : without 59 (c_name c ++ [61] ++ c_value c)).
  { apply without_app. split; [exact N1|].
    apply without_app. split; [reflexivity|exact V1]. }
  destruct cs as [|c' cs].
  - cbn [header_of List.map]. now rewrite (split_piece_end _ Hp).
  - rewrite map_cons. rewrite <- IH by discriminate.
    change (header_of (c :: c' :: cs))
      with (c_name c ++ [61] ++ c_value c ++ [59; 32] ++
              header_of (c' :: cs)).
    replace (c_name c ++ [61] ++ c_value c ++ [59; 32] ++
               header_of (c' :: cs))
      with ((c_name c ++ [61] ++ c_value c) ++
              59 :: 32 :: header_of (c' :: cs))
      by (now rewrite <- !app_assoc).
    rewrite (split_piece_semi _ Hp). cbn [rev app].
    f_equal. cbn [split_from andb]. cbn [N.eqb Pos.eqb].
    apply Forall_inv in Hcs. destruct Hcs as (_ & _ & T & _).
    assert (E : exists x s, header_of (c' :: cs) = x :: s /\ x <> 32).
    { destruct T as [T _].
      destruct cs as [|c'' cs]; cbn [header_of];
        destruct (c_name c') as [|a nm]; simpl in *;
        eexists _, _; (split; [reflexivity|]);
        try discriminate; intros ->; discriminate. }
    destruct E as (x & s & -> & Hx). now apply split_after_separator.
Qed.

(** X23.  Whatever the header, the cookies read off it have names without
    [=] and without [;], values without [;], no white space at the ends
    of either, and the fixed attributes; there are no more cookies than
    pieces, one more than the header has semicolons; and an empty header
    has none. *)
Theorem cookies_well_formed : forall header : jsstring,
  (forall c, In c (cookiesFromHeader header) -> clean c) /\
  (List.length (cookiesFromHeader header)
   <= S (List.length (List.filter (N.eqb 59) header)))%nat /\
  cookiesFromHeader [] = [].
Proof.
  intros header. split; [|split; [|reflexivity]].
  - intros c H. destruct header as [|h0 header]; [destruct H|].
    unfold cookiesFromHeader in H. apply keep_some_In in H.
    apply in_map_iff in H as (kv & Hk & Hin).
    apply split_from_pieces in Hin; [|reflexivity].
    unfold cookie_of in Hk.
    destruct (index_of 61 kv) as [i|] eqn:E; [|discriminate].
    injection Hk as <-. apply index_of_found in E as [E _].
    unfold clean. cbn.
    split; [|split; [|split; [|split; [|split]]]]; auto.
    + apply without_trim. eapply without_sub; [|exact Hin].
      intros x. apply firstn_elements.
    + now apply without_trim.
    + apply trim_trimmed.
    + apply without_trim. eapply without_sub; [|exact Hin].
      intros x. apply skipn_elements.
    + apply trim_trimmed.
  - destruct header as [|h0 header]; [simpl; lia|].
    unfold cookiesFromHeader.
    etransitivity; [apply keep_some_length|].
    rewrite length_map. unfold split_semicolons.
    now rewrite split_from_length.
Qed.

Lemma cookies_well_formed_witness :
  In (make_cookie (u16 "sid") (u16 "abc"))
    (cookiesFromHeader (u16 " sid = abc ;  junk; =")) /\
  clean (make_cookie (u16 "sid") (u16 "abc")).
Proof.
  assert (H : In (make_cookie (u16 "sid") (u16 "abc"))
                (cookiesFromHeader (u16 " sid = abc ;  junk; =")))
    by (vm_compute; left; reflexivity).
  split; [exact H|].
  exact (proj1 (cookies_well_formed (u16 " sid = abc ;  junk; =")) _ H).
Defined.

(** X24.  The cookies of a header sent for clean cookies are those cookies:
    [cookiesFromHeader] inverts the writing of the header. *)
Theorem cookie_header_round_trip : forall cs : list cookie,
  Forall clean cs -> cookiesFromHeader (header_of cs) = cs.
Proof.
  intros cs H. destruct cs as [|c cs]; [reflexivity|].
  assert (Hh : header_of (c :: cs) <> []).
  { cbn [header_of]. destruct cs; destruct (c_name c); discriminate. }
  unfold cookiesFromHeader.
  destruct (header_of (c :: cs)) as [|h0 h] eqn:E; [contradiction|].
  rewrite <- E. unfold split_semicolons.
  rewrite (split_header _ H) by discriminate.
  clear E Hh. induction H as [|x l Hx Hl IH]; [reflexivity|].
  cbn [List.map keep_some].
  destruct Hx as (N1 & N2 & N3 & V1 & V2 & Hx).
  rewrite cookie_of_pair by auto. rewrite <- Hx. cbn [keep_some].
  now rewrite IH.
Qed.

Lemma cookie_header_round_trip_witness :
  Forall clean SESSION /\
  cookiesFromHeader (u16 "sid=a=b c; theme=; =x") = SESSION.
Proof.
  assert (H : Forall clean SESSION).
  { repeat constructor. }
  split; [exact H|]. exact (cookie_header_round_trip SESSION H).
Defined.

End CookieFacts.

(** ** Texts of a page, rows and the summary *)

Module ReportFacts.
Import MonadFacts PostFacts NormFacts OutcomeFacts.

Lemma count_le {A} (p q : A -> bool) l :
  (forall x, In x l -> p x = true -> q x = true) ->
  (count p l <= count q l)%nat.
Proof.
  unfold count. induction l as [|x l IH]; intros H; simpl; [lia|].
  assert (IH' : (List.length (List.filter p l)
                 <= List.length (List.filter q l))%nat)
    by (apply IH; intros y Hy; apply H; simpl; auto).
  destruct (p x) eqn:Ep.
  - rewrite (H x) by (simpl; auto). simpl. lia.
  - destruct (q x); simpl; lia.
Qed.



Section Select.
Context {W : Type}.
Variable text_content : jsstring -> W -> outcome (option jsstring) * W.



End Select.



Section Loop.
Context {W : Type}.
Variable new_page : W -> outcome unit * W.
Variable close_pages : W -> W.
Variable visit : jsstring -> M W (selection * health).

Lemma scrape_one_cases u s :
  (exists e s', call new_page s = (Throw e, s') /\
     scrape_one new_page close_pages visit u s = (Throw e, s')) \/
  (exists s0, call new_page s = (Ok tt, s0) /\
     ((exists p h s1, visit u s0 = (Ok (p, h), s1) /\
         scrape_one new_page close_pages visit u s =
           (Ok (success_row u p h),
            Sys (close_pages (world s1)) (trace s1))) \/
      (exists e s1, visit u s0 = (Throw e, s1) /\
         scrape_one new_page close_pages visit u s =
           (Ok (error_row u e),
            Sys (close_pages (world s1)) (trace s1))))).
Proof.
  unfold scrape_one, catch, bind, ret, update.
  destruct (call new_page s) as [[[]|e] s0]; [right|left; eauto].
  exists s0. split; [reflexivity|].
  destruct (visit u s0) as [[[p h]|e] s1]; [left|right]; eauto 6.
Qed.

(** The loop ends with one row for each address, or with the error of
    the creation of a page. *)
Lemma scrape_all_rows Q :
  (forall u, returns (visit u) (fun x => Q (fst x))) ->
  forall urls s o s',
    scrape_all new_page close_pages visit urls s = (o, s') ->
    match o with
    | Ok rows =>
        List.map row_url rows = urls /\ forall r, In r rows -> made_by Q r
    | Throw e => exists sk, call new_page sk = (Throw e, s')
    end.
Proof.
  intros HQ. induction urls as [|u urls IH]; intros s o s' H;
    cbn [scrape_all] in H.
  - injection H as <- <-. split; [reflexivity|]. intros r [].
  - unfold bind in H.
    destruct (scrape_one_cases u s)
      as [(e & s1 & Hn & E)
         |(s0 & Hn & [(p & h & s1 & Hv & E)|(e & s1 & Hv & E)])];
      rewrite E in H.
    + injection H as <- <-. eauto.
    + destruct (scrape_all _ _ _ urls _) as [[rows|e] s2] eqn:Er;
        specialize (IH _ _ _ Er); injection H as <- <-; [|exact IH].
      destruct IH as [Hm Hr]. cbn [List.map]. split; [now rewrite Hm|].
      intros r [<-|Hin]; auto.
      left. exists p, h. split; [|reflexivity]. exact (HQ _ _ _ _ Hv).
    + destruct (scrape_all _ _ _ urls _) as [[rows|e'] s2] eqn:Er;
        specialize (IH _ _ _ Er); injection H as <- <-; [|exact IH].
      destruct IH as [Hm Hr]. cbn [List.map]. split; [now rewrite Hm|].
      intros r [<-|Hin]; auto.
      right. now exists e.
Qed.


End Loop.

Lemma tag_slow_backed r : backed r -> backed (tag_slow r).
Proof.
  unfold backed, tag_slow. now destruct (selection_reason r).
Qed.

Lemma coherent_backed r : coherent r -> backed r.
Proof.
  intros C Hv Hu. destruct (coh_none _ C Hu) as [H _]. congruence.
Qed.

Lemma picked_backed cfgMs tk p :
  (forall r, settled tk = Ok r -> coherent r) ->
  pick cfgMs tk = Ok p ->
  backed p /\ (sel_isCWCOT p = true -> cwcot_hits p <> []).
Proof.
  intros Hc H.
  assert (D : backed defaultDetectResult /\
              (sel_isCWCOT defaultDetectResult = true ->
               cwcot_hits defaultDetectResult <> []))
    by (split; intros H'; discriminate).
  assert (T : forall r, coherent r ->
            backed (tag_slow r) /\
            (sel_isCWCOT (tag_slow r) = true -> cwcot_hits (tag_slow r) <> [])).
  { intros r C. split; [now apply tag_slow_backed, coherent_backed|].
    unfold tag_slow. destruct (selection_reason r); cbn;
      apply (coh_verdict _ C). }
  unfold pick in H. cbv zeta in H.
  destruct (before (finish tk) (detectTimeout cfgMs)).
  - specialize (Hc p H). split; [now apply coherent_backed|].
    apply (coh_verdict _ Hc).
  - destruct (before _ _); [|injection H as <-; exact D].
    destruct (settled tk) as [r|e]; injection H as <-; [|exact D].
    apply T, Hc. reflexivity.
Qed.

Lemma detect_visit_backed {W} (pg : page W) cfgMs clock arrive h basics u :
  returns (detect_visit pg cfgMs clock arrive h basics u)
    (fun x => backed (fst x) /\
              (sel_isCWCOT (fst x) = true -> cwcot_hits (fst x) <> [])).
Proof.
  unfold detect_visit. apply returns_then. intros _.
  apply returns_then. intros hv. apply returns_then.
  intros _ s [p h'] s' H.
  destruct (getBestAddendumAndDetect pg u s) as [o s1] eqn:E.
  destruct (pick cfgMs (Task (clock u) o)) as [q|e] eqn:Ep; [|discriminate].
  injection H as <- <- <-. cbn [fst].
  apply (picked_backed _ _ _) with (2 := Ep). cbn [settled].
  intros r ->. exact (attempts_coherent pg u 2 _ _ _ E).
Qed.







(** A limit of one and a half, with two addresses: one row, of the one
    and a half the summary says were attempted, and the summary says that
    not all were scraped. *)
Example fraction_limit_not_all_scraped :
  slice_to [BASE; PAA_A] (Finite 3 2) = [BASE] /\
  forall r,
    attempted (summarize [r] 2 (Finite 3 2)) = Finite 3 2 /\
    scrapedAllAvailable (summarize [r] 2 (Finite 3 2)) = false.
Proof. split; [reflexivity|]. intros r. split; reflexivity. Qed.

(** A limit of minus one, with two addresses: the last address is left
    out, and the summary says that minus one were attempted. *)
Example negative_limit_drops_last :
  slice_to [BASE; PAA_A] (Finite (-1) 1) = [BASE] /\
  forall r,
    attempted (summarize [r] 2 (Finite (-1) 1)) = Finite (-1) 1 /\
    total (summarize [r] 2 (Finite (-1) 1)) = 1%nat.
Proof. split; [reflexivity|]. intros r. split; reflexivity. Qed.

(** X28.  In a run whose visits are detections under a budget, every row with
    a positive verdict has an address and a tag and no error: the rows
    counted as CWCOT are among those counted with an addendum. *)
Theorem cwcot_rows_have_address :
  forall (W : Type) (pg : page W) (cfgMs : Z) (clock : jsstring -> option Z)
         (arrive : jsstring -> M W unit) (h : M W health)
         (basics : M W unit) (new_page : W -> outcome unit * W)
         (close_pages : W -> W) (detailUrls : list jsstring)
         (maxProperties : jsnumber) (s s' : sys W) (rows : list row),
  main_loop new_page close_pages
    (detect_visit pg cfgMs clock arrive h basics) detailUrls
    maxProperties s = (Ok rows, s') ->
  (forall r, In r rows -> row_isCWCOT r = true ->
     addendum_url r <> [] /\ row_cwcot_hits r <> [] /\ row_error r = []) /\
  let sm := summarize rows (List.length detailUrls) maxProperties in
  (cwcot sm <= withAddendum sm <= ok sm)%nat.
Proof.
  intros W pg cfgMs clock arrive h basics new_page close_pages detailUrls
    maxProperties s s' rows H.
  unfold main_loop in H.
  destruct (scrape_all_rows new_page close_pages
              (detect_visit pg cfgMs clock arrive h basics)
              (fun p => backed p /\
                 (sel_isCWCOT p = true -> cwcot_hits p <> []))
              (fun u => detect_visit_backed pg cfgMs clock arrive h basics u)
              _ _ _ _ H)
    as [_ Hr].
  assert (Hc : forall r, In r rows -> row_isCWCOT r = true ->
     addendum_url r <> [] /\ row_cwcot_hits r <> [] /\ row_error r = []).
  { intros r Hin Hv.
    destruct (Hr r Hin) as [(p & hv & [Hb Ht] & Er)|(e & Er)];
      rewrite Er in Hv |- *; cbn in *; [auto|discriminate]. }
  split; [exact Hc|]. cbn. split.
  - apply count_le. intros r Hin Hv.
    destruct (Hc r Hin Hv) as [Ha _]. now destruct (addendum_url r).
  - apply count_le. intros r Hin Ha.
    destruct (Hr r Hin) as [(p & hv & _ & Er)|(e & Er)].
    + now rewrite Er.
    + rewrite Er in Ha. discriminate.
Qed.

Lemma cwcot_rows_have_address_witness :
  exists rows s',
    main_loop (fun w => (Ok tt, w)) (fun w => w)
      (detect_visit two_tile_page 5000 (fun _ => Some 1000%Z)
         (fun _ => ret tt) (ret (health_of [])) (ret tt))
      [BASE] (of_nat 5) START = (Ok rows, s') /\
    forall r, In r rows -> row_isCWCOT r = true -> addendum_url r <> [].
Proof.
  destruct (main_loop (fun w => (Ok tt, w)) (fun w => w)
              (detect_visit two_tile_page 5000
                 (fun _ => Some 1000%Z) (fun _ => ret tt)
                 (ret (health_of [])) (ret tt))
              [BASE] (of_nat 5) START) as [[rows|e] s'] eqn:E;
    [|vm_compute in E; discriminate].
  exists rows, s'. split; [reflexivity|]. intros r Hin Hv.
  exact (proj1 (proj1 (cwcot_rows_have_address unit two_tile_page 5000
                         (fun _ => Some 1000%Z) (fun _ => ret tt)
                         (ret (health_of [])) (ret tt)
                         (fun w => (Ok tt, w)) (fun w => w)
                         [BASE] (of_nat 5) START s' rows E) r Hin Hv)).
Defined.

End ReportFacts.

(** ** The links of a results page *)

Module ResultFacts.
Import RegexFacts SpanFacts StringFacts RevisionFacts MonadFacts PostFacts.
Import MatchFacts AbsFacts.

Lemma reps_keeps_cap g p : forall hi lo st st',
  In st' (reps g p lo hi st) -> cap1 st' = cap1 st.
Proof.
  induction hi as [|hi IH]; intros lo st st' H; cbn [reps] in H.
  - destruct (Nat.eqb lo 0); [|destruct H]. now destruct H as [<-|[]].
  - assert (Hm : In st' match rest st with
                        | c :: r =>
                            if p c
                            then reps g p (Nat.pred lo) hi (step st c r)
                            else []
                        | [] => []
                        end -> cap1 st' = cap1 st).
    { destruct (rest st) as [|c r]; [intros []|].
      destruct (p c); [|intros []]. intros H'. now apply IH in H'. }
    destruct (Nat.eqb lo 0); [|auto]. destruct g.
    + apply in_app_iff in H as [H|[<-|[]]]; auto.
    + destruct H as [<-|H]; auto.
Qed.

(** A pattern without a group leaves the capture as it is. *)
Lemma run_keeps_cap r : plain r = true -> forall st st',
  In st' (run r st) -> cap1 st' = cap1 st.
Proof.
  induction r; intros Hp st st' H; simpl in Hp; try discriminate;
    cbn [run] in H.
  - now destruct H as [<-|[]].
  - destruct (rest st) as [|c s]; [destruct H|].
    destruct (p c); [|destruct H]. now destruct H as [<-|[]].
  - apply andb_true_iff in Hp as [Ha Hb].
    apply in_flat_map in H as (m & Hm & H).
    rewrite (IHr2 Hb _ _ H). now apply IHr1.
  - apply andb_true_iff in Hp as [Ha Hb].
    apply in_app_iff in H as [H|H]; auto.
  - now apply reps_keeps_cap in H.
  - destruct (xorb _ _); [|destruct H]. now destruct H as [<-|[]].
  - destruct (consumed st); [|destruct H]. now destruct H as [<-|[]].
  - destruct (rest st); [|destruct H]. now destruct H as [<-|[]].
Qed.

Lemma run_group b : plain b = true -> forall p s m,
  In m (run (Grp b) (at_ p s)) ->
  exists w post, s = w ++ post /\ cap1 m = Some w /\ span b p w post.
Proof.
  intros Hb p s m H.
  destruct (run_tailgrp (Grp b) Hb _ _ _ H) as (w & g & post & -> & ->).
  apply (cspan_grp b p w g post Hb) in H as [-> H]. eauto.
Qed.

(** What a pattern with one group captures is a match of the group. *)
Lemma group_captured r : forall b, group_of r = Some b ->
  forall pre s st, In st (run r (at_ pre s)) ->
  exists g p q, cap1 st = Some g /\ span b p g q.
Proof.
  induction r; intros b Hg pre s st H; try discriminate.
  assert (Hrest : forall a, plain a = true -> group_of r2 = Some b ->
            In st (run (Seq a r2) (at_ pre s)) ->
            exists g p q, cap1 st = Some g /\ span b p g q).
  { intros a Ha Hg' H'. cbn [run] in H'.
    apply in_flat_map in H' as (m & Hm & H').
    apply (run_at a Ha) in Hm as (w & post & -> & ->). eauto. }
  destruct r1; cbn [group_of] in Hg;
    try (destruct (plain _) eqn:Ep in Hg; [|discriminate]; eauto; fail);
    try (apply Hrest; auto; fail).
  destruct (plain r1 && plain r2) eqn:Ep; [|discriminate].
  injection Hg as <-. apply andb_true_iff in Ep as [E1 E2].
  cbn [run] in H. apply in_flat_map in H as (m & Hm & H).
  apply (run_group r1 E1) in Hm as (w & post & -> & Hc & Hs).
  apply (run_keeps_cap r2 E2) in H. rewrite H. eauto.
Qed.

Lemma capture_all_from_group r b : group_of r = Some b ->
  forall fuel pre_rev s x, In x (capture_all_from fuel r pre_rev s) ->
  exists p q, span b p x q.
Proof.
  intros Hg. induction fuel as [|fuel IH]; intros pre_rev s x H;
    [destruct H|].
  cbn [capture_all_from] in H.
  destruct (search r pre_rev s) as [[st0 st]|] eqn:E; [|destruct H].
  destruct H as [H|H]; [|eauto].
  rewrite <- (rev_involutive pre_rev) in E.
  apply search_some in E as (a & c & -> & -> & Hin).
  apply (group_captured r b Hg) in Hin as (g & p & q & Hc & Hs).
  rewrite Hc in H. subst x. eauto.
Qed.

Lemma absolute_head c s : absolute (c :: s) -> canon c = 72.
Proof.
  unfold absolute. intros H.
  apply test_inv in H as (pre & w & post & E & H); [|reflexivity].
  unfold HTTP_RE in H. cbn [seqs] in H.
  apply span_seq_inv in H as (w0 & r0 & -> & H0 & H); try reflexivity.
  apply span_seq_inv in H as (w1 & r1 & -> & H1 & H); try reflexivity.
  apply span_bol in H0 as [-> ->]. apply span_liti in H1.
  destruct w1 as [|x w1]; [discriminate|]. simpl in E. injection E as -> _.
  unfold same_ci in H1. simpl in H1. now injection H1 as H1 _.
Qed.

Lemma toAbs_details x :
  toAbs (u16 "/details/" ++ x) SITE = SITE ++ u16 "/details/" ++ x.
Proof.
  unfold toAbs. change (u16 "/details/" ++ x)
    with (47 :: 100 :: u16 "etails/" ++ x).
  destruct (test HTTP_RE (47 :: 100 :: u16 "etails/" ++ x)) eqn:E.
  - apply absolute_head in E. discriminate.
  - reflexivity.
Qed.

Lemma details_span cls p g q :
  span (Seq (lit "/details/") (plus cls)) p g q ->
  exists x, x <> [] /\ g = u16 "/details/" ++ x.
Proof.
  intros H. apply span_seq_inv in H as (w1 & w2 & -> & H1 & H2);
    try reflexivity.
  apply span_lit in H1 as ->. apply span_rep in H2 as (_ & H2 & _).
  exists w2. split; auto. intros ->. simpl in H2. lia.
Qed.

Lemma full_link_span p m q : span FULL_LINK_RE p m q -> site_link m.
Proof.
  unfold FULL_LINK_RE. cbn [seqs]. intros H.
  apply span_seq_inv in H as (w1 & r1 & -> & H1 & H); try reflexivity.
  apply span_seq_inv in H as (o & r2 & -> & Ho & H); try reflexivity.
  apply span_seq_inv in H as (w3 & x & -> & H3 & Hx); try reflexivity.
  apply span_lit in H1 as ->. apply span_lit in H3 as ->.
  apply span_rep in Ho as (Ho & _ & Hl). apply span_rep in Hx as (_ & Hx & _).
  exists x. split; [intros ->; simpl in Hx; lia|].
  destruct o as [|c [|c' o]]; [now right| |simpl in Hl; lia].
  cbn [forallb] in Ho. rewrite andb_true_r in Ho.
  apply N.eqb_eq in Ho. subst c. now left.
Qed.

Lemma site_link_details u : site_link u ->
  includes (u16 "/details/") u = true /\ absolute u.
Proof.
  intros (x & _ & [->| ->]); split.
  - apply includes_iff. exists (u16 "https://www.auction.com"), x.
    reflexivity.
  - change (u16 "https://www.auction.com/details/" ++ x)
      with (u16 "https://" ++ u16 "www.auction.com/details/" ++ x).
    apply absolute_app. reflexivity.
  - apply includes_iff. exists (u16 "http://www.auction.com"), x.
    reflexivity.
  - change (u16 "http://www.auction.com/details/" ++ x)
      with (u16 "http://" ++ u16 "www.auction.com/details/" ++ x).
    apply absolute_app. reflexivity.
Qed.

Lemma html_links html u :
  In u (set_values
          (match_all FULL_LINK_RE html
           ++ List.map (fun m => toAbs m SITE)
                (capture_all RELATIVE_LINK_RE html)
           ++ List.map (fun m => toAbs m SITE)
                (capture_all DATA_LINK_RE html))) ->
  site_link u.
Proof.
  intros H. apply (proj1 (proj2 (set_values_spec _) u)) in H.
  assert (Hcap : forall r cls,
            group_of r = Some (Seq (lit "/details/") (plus cls)) ->
            In u (List.map (fun m => toAbs m SITE) (capture_all r html)) ->
            site_link u).
  { intros r cls Hg Hin. apply in_map_iff in Hin as (g & <- & Hin).
    unfold capture_all in Hin.
    apply (capture_all_from_group r _ Hg) in Hin as (p & q & Hs).
    apply details_span in Hs as (x & Hx & ->).
    rewrite toAbs_details. exists x. split; auto. }
  apply in_app_iff in H as [H|H]; [|apply in_app_iff in H as [H|H]].
  - apply match_all_spans in H as (p & q & _ & H); [|reflexivity].
    now apply full_link_span in H.
  - now apply (Hcap RELATIVE_LINK_RE url_char).
  - now apply (Hcap DATA_LINK_RE no_quote).
Qed.

Section Collect.
Context {W : Type}.
Variable card_hrefs : W -> outcome (list jsstring) * W.
Variable content : W -> outcome jsstring * W.

Lemma collect_total s : exists links s',
  collectDetailLinksFromHTML card_hrefs content s = (Ok links, s').
Proof.
  unfold collectDetailLinksFromHTML, bind at 1. unfold sleep, emit.
  unfold bind at 1.
  match goal with
  | |- context [or_else ?m ?d ?st] =>
      destruct (TileFacts.or_else_ok m d st) as (cards & s1 & ->)
  end.
  destruct cards as [|c cards]; [|unfold ret; eauto].
  unfold bind.
  destruct (TileFacts.or_else_ok (safe' (call content)) [] s1)
    as (html & s2 & ->).
  destruct (nonempty html); unfold ret; eauto.
Qed.

Lemma collect_links :
  returns (collectDetailLinksFromHTML card_hrefs content)
    (fun links => NoDup links /\
       forall u, In u links -> includes (u16 "/details/") u = true).
Proof.
  unfold collectDetailLinksFromHTML. apply returns_then. intros _.
  apply returns_bind
    with (P := fun l => forall u, In u l ->
                 includes (u16 "/details/") u = true).
  { apply returns_or_else; [|intros u []].
    apply returns_safe'. apply returns_then. intros hrefs.
    apply returns_ret. intros u Hu. now apply filter_In in Hu as [_ Hu]. }
  intros cards Hc. destruct cards as [|c cards].
  - apply returns_then. intros html. destruct (nonempty html).
    + apply returns_ret. split; [apply set_values_spec|].
      intros u Hu. now apply html_links, site_link_details in Hu.
    + apply returns_ret. split; [constructor|intros u []].
  - apply returns_ret. split; [apply set_values_spec|].
    intros u Hu. apply Hc.
    exact (proj1 (proj2 (set_values_spec _) u) Hu).
Qed.

Lemma collect_from_markup :
  (forall w hrefs w', card_hrefs w = (Ok hrefs, w') ->
     List.filter (includes (u16 "/details/")) hrefs = []) ->
  returns (collectDetailLinksFromHTML card_hrefs content)
    (fun links => forall u, In u links -> site_link u).
Proof.
  intros Hn. unfold collectDetailLinksFromHTML.
  apply returns_then. intros _.
  apply returns_bind with (P := fun l => l = []).
  { apply returns_or_else; [|reflexivity].
    apply returns_safe'.
    apply returns_bind
      with (P := fun hrefs =>
                   List.filter (includes (u16 "/details/")) hrefs = []).
    - apply returns_call. exact Hn.
    - intros hrefs H. now apply returns_ret. }
  intros cards ->. apply returns_then. intros html.
  destruct (nonempty html); apply returns_ret.
  - intros u. apply html_links.
  - intros u [].
Qed.

End Collect.

(** X29.  [collectDetailLinksFromHTML] never fails.  Its links come without
    repetition and each holds [/details/]; and when the cards of the page
    give no such link, each link read off the markup is the address of a
    property under the site, absolute, whether the markup had it in full,
    as a relative address or in a data attribute. *)
Theorem detail_links_are_properties :
  forall (W : Type) (card_hrefs : W -> outcome (list jsstring) * W)
         (content : W -> outcome jsstring * W) (s : sys W),
  exists links s',
    collectDetailLinksFromHTML card_hrefs content s = (Ok links, s') /\
    NoDup links /\
    (forall u, In u links -> includes (u16 "/details/") u = true) /\
    ((forall w hrefs w', card_hrefs w = (Ok hrefs, w') ->
        List.filter (includes (u16 "/details/")) hrefs = []) ->
     forall u, In u links -> site_link u /\ absolute u).
Proof.
  intros W card_hrefs content s.
  destruct (collect_total card_hrefs content s) as (links & s' & E).
  exists links, s'. split; [exact E|].
  destruct (collect_links card_hrefs content _ _ _ E) as [H1 H2].
  split; [exact H1|]. split; [exact H2|].
  intros Hn u Hu.
  pose proof (collect_from_markup card_hrefs content Hn _ _ _ E u Hu) as Hl.
  split; [exact Hl|]. now apply site_link_details.
Qed.

Lemma detail_links_are_properties_witness :
  exists links s',
    collectDetailLinksFromHTML (W := unit) (fun w => (Ok [], w))
      (fun w => (Ok RESULTS_HTML, w)) START = (Ok links, s') /\
    List.length links = 2%nat /\
    forall u, In u links -> site_link u /\ absolute u.
Proof.
  destruct (detail_links_are_properties unit (fun w => (Ok [], w))
              (fun w => (Ok RESULTS_HTML, w)) START)
    as (links & s' & E & _ & _ & H).
  exists links, s'. split; [exact E|]. split.
  - vm_compute in E. injection E as <- _. reflexivity.
  - apply H. intros w hrefs w' [= <- _]. reflexivity.
Defined.

End ResultFacts.
